(** * offline-whisper: a shallow embedding of the transcription plugin

    The development follows the two JavaScript sources of the plugin:
    - [src/main.js] (class [WhisperTranscriptionPlugin]): model loading,
      chunk recording, resampling, and the result sequencer that inserts
      transcriptions into the editor in capture order;
    - [src/desktop-transcriber.js] (class [DesktopTranscriber]): WAV
      serialisation, provisioning of the whisper.cpp binary and model, and
      the per-chunk subprocess invocation.
    - the test programs ([tests/test_desktop.js], [tests/test_mobile.js],
      [tests/patch_header.js]): the WAV readers that feed the transcriber,
      a copy of the resampler, and the wrapper of [https.get].

    JavaScript runs every stretch of code between two [await]s atomically,
    so asynchronous methods are modelled as transition systems whose
    events are those atomic stretches. *)

From stdpp Require Import base gmap list strings pretty.
From Stdlib Require Import Ascii ZArith QArith Qround Qabs Lia Lqa.

Local Open Scope nat_scope.

(** ** Editor (the document sink of Obsidian) *)

Module Editor.

(** [EditorPosition] *)
Record Pos := mkPos { line : nat; ch : nat }.

(** The editor as the plugin sees it: the cursor it reads with
    [getCursor] and sets with [setCursor], and the log of
    [replaceRange(text, pos)] calls, oldest first. *)
Record t := mk { cursor : Pos; replaced : list (string * Pos) }.

Definition getCursor (ed : t) : Pos := cursor ed.

Definition replaceRange (text : string) (pos : Pos) (ed : t) : t :=
  {| cursor := cursor ed; replaced := replaced ed ++ [(text, pos)] |}.

Definition setCursor (pos : Pos) (ed : t) : t :=
  {| cursor := pos; replaced := replaced ed |}.

(** The texts handed to [replaceRange], in call order. *)
Definition texts (ed : t) : list string := (replaced ed).*1.

Definition empty : t := {| cursor := mkPos 0 0; replaced := [] |}.

End Editor.

(** ** Result sequencer ([flushPendingResults], [transcribeAudio]) *)

Module Sequencer.

(** [text.startsWith(s)] *)
Definition startsWith (text s : string) : bool := String.prefix s text.

(** [text.endsWith(s)]: the last [s.length] code units of [text] are [s]. *)
Definition endsWith (text s : string) : bool :=
  let len := String.length text in
  let n := String.length s in
  if decide (n <= len) then String.eqb (String.substring (len - n) n text) s
  else false.

(** The condition of the [if] in [flushPendingResults]:
    [text && text.length > 0 && text !== 'you'
     && !(text.startsWith('[') && text.endsWith(']'))
     && !(text.startsWith('(') && text.endsWith(')'))]. *)
Definition survives (text : string) : bool :=
  negb (String.eqb text "")
  && (0 <? String.length text)
  && negb (String.eqb text "you")
  && negb (startsWith text "[" && endsWith text "]")
  && negb (startsWith text "(" && endsWith text ")").

(** The part of the plugin object the sequencer and the recorder touch.
    [inflight] holds the chunk numbers of the [transcribeAudio] calls
    that are suspended at an [await]; [liveRecorder] is the [chunkNum]
    captured by the closures of the [MediaRecorder] whose [onstop] has
    not fired yet. *)
Record plugin := mkPlugin {
  isRecording : bool;
  isStopping : bool;
  mediaStream : bool;
  transcriber : bool;
  liveRecorder : option nat;
  targetEditor : option Editor.t;
  processingCount : Z;
  chunkNumber : nat;
  nextInsertChunk : nat;
  pendingResults : gmap nat string;
  inflight : gset nat
}.

Definition set_editor (ed : option Editor.t) (p : plugin) : plugin :=
  mkPlugin (isRecording p) (isStopping p) (mediaStream p) (transcriber p)
    (liveRecorder p) ed (processingCount p) (chunkNumber p)
    (nextInsertChunk p) (pendingResults p) (inflight p).

Definition set_pending (m : gmap nat string) (p : plugin) : plugin :=
  mkPlugin (isRecording p) (isStopping p) (mediaStream p) (transcriber p)
    (liveRecorder p) (targetEditor p) (processingCount p) (chunkNumber p)
    (nextInsertChunk p) m (inflight p).

Definition set_next (n : nat) (p : plugin) : plugin :=
  mkPlugin (isRecording p) (isStopping p) (mediaStream p) (transcriber p)
    (liveRecorder p) (targetEditor p) (processingCount p) (chunkNumber p)
    n (pendingResults p) (inflight p).

(** The insertion branch: [getCursor], [replaceRange(text + ' ', cursor)],
    [setCursor({line, ch: cursor.ch + insertText.length})]. *)
Definition insertAtCursor (text : string) (ed : Editor.t) : Editor.t :=
  let cursor := Editor.getCursor ed in
  let insertText := (text ++ " ")%string in
  let ed := Editor.replaceRange insertText cursor ed in
  let newPos :=
    Editor.mkPos (Editor.line cursor)
                 (Editor.ch cursor + String.length insertText) in
  Editor.setCursor newPos ed.

(** What one popped text does to the editor. *)
Definition emit (ed : Editor.t) (text : string) : Editor.t :=
  if survives text then insertAtCursor text ed else ed.

(** The body of the [while] loop, for the entry [text] found under
    [nextInsertChunk]. *)
Definition flush_body (text : string) (p : plugin) : plugin :=
  let chunkNum := nextInsertChunk p in
  let p := set_pending (delete chunkNum (pendingResults p)) p in
  let p :=
    if survives text then
      match targetEditor p with
      | Some ed => set_editor (Some (insertAtCursor text ed)) p
      | None => p
      end
    else p in
  set_next (S (nextInsertChunk p)) p.

(** [while (this.pendingResults.has(this.nextInsertChunk)) { ... }];
    every iteration deletes one entry, so the number of entries bounds
    the number of iterations. *)
Fixpoint flush_loop (fuel : nat) (p : plugin) : plugin :=
  match fuel with
  | 0 => p
  | S fuel =>
      match pendingResults p !! nextInsertChunk p with
      | Some text => flush_loop fuel (flush_body text p)
      | None => p
      end
  end.

Definition flushPendingResults (p : plugin) : plugin :=
  flush_loop (size (pendingResults p)) p.

(** The tail of the [try] block of [transcribeAudio]:
    [this.pendingResults.set(chunkNum, text); this.flushPendingResults()]. *)
Definition submit (chunkNum : nat) (text : string) (p : plugin) : plugin :=
  flushPendingResults
    (set_pending (<[chunkNum := text]> (pendingResults p)) p).

(** *** One recording session *)

Definition set_recorder (isRec isStop stream : bool) (live : option nat)
    (p : plugin) : plugin :=
  mkPlugin isRec isStop stream (transcriber p) live (targetEditor p)
    (processingCount p) (chunkNumber p) (nextInsertChunk p)
    (pendingResults p) (inflight p).

Definition set_chunkNumber (n : nat) (p : plugin) : plugin :=
  mkPlugin (isRecording p) (isStopping p) (mediaStream p) (transcriber p)
    (liveRecorder p) (targetEditor p) (processingCount p) n
    (nextInsertChunk p) (pendingResults p) (inflight p).

Definition set_processing (c : Z) (s : gset nat) (p : plugin) : plugin :=
  mkPlugin (isRecording p) (isStopping p) (mediaStream p) (transcriber p)
    (liveRecorder p) (targetEditor p) c (chunkNumber p)
    (nextInsertChunk p) (pendingResults p) s.

Definition set_transcriber (b : bool) (p : plugin) : plugin :=
  mkPlugin (isRecording p) (isStopping p) (mediaStream p) b
    (liveRecorder p) (targetEditor p) (processingCount p) (chunkNumber p)
    (nextInsertChunk p) (pendingResults p) (inflight p).

(** [recordChunk]: [this.chunkNumber++; const chunkNum = this.chunkNumber;]
    and a new recorder whose closures hold [chunkNum]. *)
Definition recordChunk (p : plugin) : plugin :=
  if negb (isRecording p) || negb (mediaStream p) then p
  else
    let p := set_chunkNumber (S (chunkNumber p)) p in
    set_recorder (isRecording p) (isStopping p) (mediaStream p)
      (Some (chunkNumber p)) p.

(** The state [startRecording] leaves behind when the model is loaded
    and the microphone is granted, on a plugin none of whose earlier
    transcriptions is still suspended: [isRecording = true],
    [chunkNumber = 0], [nextInsertChunk = 1], a fresh [Map], and the
    first [recordChunk()]. *)
Definition startRecording (ed : Editor.t) : plugin :=
  recordChunk
    {| isRecording := true; isStopping := false; mediaStream := true;
       transcriber := true; liveRecorder := None; targetEditor := Some ed;
       processingCount := 0; chunkNumber := 0; nextInsertChunk := 1;
       pendingResults := ∅; inflight := ∅ |}.

(** [transcribeAudio] up to its first [await]. *)
Definition transcribeAudio_begin (chunkNum : nat) (p : plugin) : plugin :=
  if negb (transcriber p) then p
  else match targetEditor p with
       | None => p
       | Some _ =>
           set_processing (processingCount p + 1) ({[chunkNum]} ∪ inflight p) p
       end.

(** [transcribeAudio] from the point where [await this.transcriber(...)]
    yields a result whose trimmed text is [text]: the rest of the [try]
    block and the [finally] block. *)
Definition transcribeAudio_resolved (chunkNum : nat) (text : string)
    (p : plugin) : plugin :=
  let p := submit chunkNum text p in
  set_processing (processingCount p - 1) (inflight p ∖ {[chunkNum]}) p.

(** [transcribeAudio] when decoding or the transcriber throws: the
    [catch] block (a log line and a [Notice]) and the [finally] block. *)
Definition transcribeAudio_rejected (chunkNum : nat) (p : plugin) : plugin :=
  set_processing (processingCount p - 1) (inflight p ∖ {[chunkNum]}) p.

(** [recorder.onstop] of the recorder of chunk [chunkNum]; [hasAudio] is
    [audioChunks.length > 0]. *)
Definition onstop (chunkNum : nat) (hasAudio : bool) (p : plugin) : plugin :=
  let p := set_recorder (isRecording p) (isStopping p) (mediaStream p) None p in
  let p := if hasAudio then transcribeAudio_begin chunkNum p else p in
  if isStopping p then set_recorder (isRecording p) false false None p
  else if isRecording p && mediaStream p then recordChunk p
  else p.

(** [stopRecording]: the live recorder is told to stop; its [onstop]
    fires later. *)
Definition stopRecording (p : plugin) : plugin :=
  if negb (isRecording p) then p
  else set_recorder false true (mediaStream p) (liveRecorder p) p.

(** The atomic stretches of one session. *)
Inductive event :=
| RecorderStopped (hasAudio : bool)
| StopRequested
| ModelChanged
| Resolved (chunkNum : nat) (text : string)
| Rejected (chunkNum : nat).

(** An event that is not enabled (no live recorder, no such suspended
    transcription) leaves the plugin as it is. *)
Definition step (p : plugin) (e : event) : plugin :=
  match e with
  | RecorderStopped hasAudio =>
      match liveRecorder p with
      | Some chunkNum => onstop chunkNum hasAudio p
      | None => p
      end
  | StopRequested => stopRecording p
  | ModelChanged => set_transcriber false p
  | Resolved chunkNum text =>
      if decide (chunkNum ∈ inflight p)
      then transcribeAudio_resolved chunkNum text p else p
  | Rejected chunkNum =>
      if decide (chunkNum ∈ inflight p)
      then transcribeAudio_rejected chunkNum p else p
  end.

Definition run (p : plugin) (evs : list event) : plugin := foldl step p evs.

(** The texts inserted so far. *)
Definition inserted (p : plugin) : list string :=
  match targetEditor p with
  | Some ed => Editor.texts ed
  | None => []
  end.

End Sequencer.

(** ** Model loading ([loadModel]) *)

Module Loader.

(** [callers] are the invocations of [loadModel], named by a number.
    [loading] lists the invocations suspended inside the [try] block,
    that is, the download/load sequences in flight; [started] counts the
    sequences begun so far; [returned] logs the value each invocation
    returned, oldest first. *)
Record plugin := mkPlugin {
  transcriber : bool;
  isModelLoading : bool;
  loading : list nat;
  started : nat;
  returned : list (nat * bool)
}.

Definition initial : plugin :=
  {| transcriber := false; isModelLoading := false; loading := [];
     started := 0; returned := [] |}.

(** [loadModel] up to its first [await]: the two guards, then
    [this.isModelLoading = true] and the start of the download/load. *)
Definition loadModel_begin (caller : nat) (p : plugin) : plugin :=
  if transcriber p then
    mkPlugin (transcriber p) (isModelLoading p) (loading p) (started p)
      (returned p ++ [(caller, true)])
  else if isModelLoading p then
    mkPlugin (transcriber p) (isModelLoading p) (loading p) (started p)
      (returned p ++ [(caller, false)])
  else
    mkPlugin (transcriber p) true (caller :: loading p) (S (started p))
      (returned p).

(** The awaited initialisation resolved: [this.transcriber = ...;
    this.isModelLoading = false; return true]. *)
Definition loadModel_loaded (caller : nat) (p : plugin) : plugin :=
  mkPlugin true false (List.filter (λ c, negb (c =? caller)) (loading p))
    (started p) (returned p ++ [(caller, true)]).

(** The awaited initialisation threw: the [catch] block,
    [this.isModelLoading = false; return false]. *)
Definition loadModel_failed (caller : nat) (p : plugin) : plugin :=
  mkPlugin (transcriber p) false
    (List.filter (λ c, negb (c =? caller)) (loading p))
    (started p) (returned p ++ [(caller, false)]).

Inductive event :=
| Call (caller : nat)
| Loaded (caller : nat)
| Failed (caller : nat)
| ModelChanged   (* settings tab: [this.plugin.transcriber = null] *)
| Unloaded.      (* [onunload]: [this.transcriber = null] *)

Definition step (p : plugin) (e : event) : plugin :=
  match e with
  | Call caller => loadModel_begin caller p
  | Loaded caller =>
      if bool_decide (caller ∈ loading p) then loadModel_loaded caller p else p
  | Failed caller =>
      if bool_decide (caller ∈ loading p) then loadModel_failed caller p else p
  | ModelChanged | Unloaded =>
      mkPlugin false (isModelLoading p) (loading p) (started p) (returned p)
  end.

Definition run (p : plugin) (evs : list event) : plugin := foldl step p evs.

(** The value [loadModel] returned to [caller], if it has returned. *)
Definition outcome (p : plugin) (caller : nat) : option bool :=
  snd <$> List.find (λ r, fst r =? caller) (returned p).

End Loader.

(** ** Numbers

    JavaScript numbers are modelled by exact rationals: audio samples are
    finite [Float32Array] entries, sample rates and lengths are integers,
    and the rounding of IEEE double arithmetic is not modelled. *)

Module Num.

Definition of_nat (n : nat) : Q := inject_Z (Z.of_nat n).

(** [Math.floor] *)
Definition floor (x : Q) : Z := Qfloor x.

(** [Math.round]: the nearest integer, halves rounded up. *)
Definition round (x : Q) : Z := Qfloor (x + (1 # 2))%Q.

(** [Math.min] and [Math.max] *)
Definition min (x y : Q) : Q := if Qle_bool x y then x else y.
Definition max (x y : Q) : Q := if Qle_bool x y then y else x.

End Num.

(** ** Resampling ([resampleAudio]) *)

Module Resample.

(** A [Float32Array] element: a finite sample, or [NaN], which is what
    storing [undefined] (a read outside the source array) leaves. *)
Definition sample := option Q.

(** [audioData[index]] *)
Definition at_index (audioData : list Q) (index : Z) : sample :=
  if (index <? 0)%Z then None else audioData !! Z.to_nat index.

(** [resampleAudio] of [src/main.js].  [new Float32Array(newLength)]
    throws a [RangeError] on a negative length ([None]). *)
Definition resampleAudio (audioData : list Q) (fromSampleRate toSampleRate : Q)
    : option (list sample) :=
  let ratio := (fromSampleRate / toSampleRate)%Q in
  let newLength := Num.round (Num.of_nat (length audioData) / ratio)%Q in
  if (newLength <? 0)%Z then None
  else Some ((λ i, at_index audioData (Num.floor (Num.of_nat i * ratio)%Q))
               <$> seq 0 (Z.to_nat newLength)).

End Resample.

(** ** Resampling in the earlier revision of the plugin file *)

Module ResampleLinear.

(** [resampleAudio] of the earlier revision of the plugin file, which
    blends the two neighbouring samples (the rounding of the stored value
    to single precision is not modelled). *)
Definition resampleAudio (audioData : list Q) (fromSampleRate toSampleRate : Q)
    : option (list Resample.sample) :=
  let ratio := (fromSampleRate / toSampleRate)%Q in
  let newLength := Num.round (Num.of_nat (length audioData) / ratio)%Q in
  if (newLength <? 0)%Z then None
  else Some ((λ i,
                let srcIndex := (Num.of_nat i * ratio)%Q in
                let srcIndexFloor := Num.floor srcIndex in
                let srcIndexCeil :=
                  Z.min (srcIndexFloor + 1) (Z.of_nat (length audioData) - 1) in
                let t := (srcIndex - inject_Z srcIndexFloor)%Q in
                a ← Resample.at_index audioData srcIndexFloor;
                b ← Resample.at_index audioData srcIndexCeil;
                Some (a * (1 - t) + b * t)%Q)
               <$> seq 0 (Z.to_nat newLength)).

End ResampleLinear.

(** ** Node buffers *)

Module Buffer.

(** A [Buffer]: its bytes, each in [0, 256). *)
Abbreviation t := (list Z).

(** [Buffer.alloc(size)]: zero-filled. *)
Definition alloc (size : nat) : t := replicate size 0%Z.

(** [buf[offset] = b0; buf[offset + 1] = b1; ...]; a typed array
    ignores a store outside its bounds. *)
Fixpoint store (bytes : list Z) (offset : nat) (buf : t) : t :=
  match bytes with
  | [] => buf
  | b :: bytes => store bytes (S offset) (<[offset := b]> buf)
  end.

(** The [width] low bytes of [value], least significant first, as
    [buf[offset++] = value; value = value >>> 8; ...] stores them. *)
Definition le_bytes (width : nat) (value : Z) : list Z :=
  (λ i, Z.land (Z.shiftr value (8 * Z.of_nat i)) 255) <$> seq 0 width.

Definition le_value (bytes : list Z) : Z :=
  foldr (λ b acc, b + 256 * acc)%Z 0%Z bytes.

Definition bytes_at (offset n : nat) (buf : t) : list Z :=
  take n (drop offset buf).

(** [buf.write(string, offset)] for an ASCII string: its character
    codes, as far as they fit. *)
Definition write (s : string) (offset : nat) (buf : t) : t :=
  store ((λ c, Z.of_nat (nat_of_ascii c)) <$> String.list_ascii_of_string s)
    offset buf.

(** The integer writers throw a [RangeError] ([None]) when [value] is
    outside the range of the field or the field does not fit. *)
Definition write_int (width : nat) (lo hi value : Z) (offset : nat) (buf : t)
    : option t :=
  if decide ((lo <= value <= hi)%Z ∧ offset + width <= length buf)
  then Some (store (le_bytes width value) offset buf)
  else None.

Definition writeUInt32LE := write_int 4 0 4294967295.
Definition writeUInt16LE := write_int 2 0 65535.
Definition writeInt16LE := write_int 2 (-32768) 32767.

Definition read_uint (width : nat) (offset : nat) (buf : t) : option Z :=
  if decide (offset + width <= length buf)
  then Some (le_value (bytes_at offset width buf))
  else None.

Definition readUInt32LE := read_uint 4.
Definition readUInt16LE := read_uint 2.

(** [readInt16LE]: the unsigned value, reinterpreted in two's complement. *)
Definition readInt16LE (offset : nat) (buf : t) : option Z :=
  (λ v, if (v <? 32768)%Z then v else (v - 65536)%Z)
    <$> read_uint 2 offset buf.

(** [buf.toString('ascii', start, end)] *)
Definition toString (start stop : nat) (buf : t) : string :=
  String.string_of_list_ascii
    ((λ b, ascii_of_nat (Z.to_nat b)) <$> bytes_at start (stop - start) buf).

End Buffer.

(** ** WAV serialisation ([writeWavFile]) *)

Module Wav.

(** [Math.round(Math.max(-1, Math.min(1, audioData[i])) * 32767)] *)
Definition intSample (x : Q) : Z :=
  let sample := Num.max (-1) (Num.min 1 x) in
  Num.round (sample * 32767)%Q.

(** The [for] loop over the samples, from index [i] on. *)
Fixpoint write_samples (audioData : list Q) (i : nat) (buffer : Buffer.t)
    : option Buffer.t :=
  match audioData with
  | [] => Some buffer
  | x :: audioData =>
      buffer ← Buffer.writeInt16LE (intSample x) (44 + i * 2) buffer;
      write_samples audioData (S i) buffer
  end.

(** The buffer [writeWavFile] builds before [fs.writeFileSync]. *)
Definition wav_buffer (audioData : list Q) (sampleRate : Z)
    : option Buffer.t :=
  let numChannels := 1%Z in
  let bitsPerSample := 16%Z in
  let byteRate := (sampleRate * numChannels * bitsPerSample / 8)%Z in
  let blockAlign := (numChannels * bitsPerSample / 8)%Z in
  let dataSize := length audioData * 2 in
  let headerSize := 44 in
  let fileSize := (Z.of_nat (headerSize + dataSize) - 8)%Z in
  let buffer := Buffer.alloc (headerSize + dataSize) in
  let buffer := Buffer.write "RIFF" 0 buffer in
  buffer ← Buffer.writeUInt32LE fileSize 4 buffer;
  let buffer := Buffer.write "WAVE" 8 buffer in
  let buffer := Buffer.write "fmt " 12 buffer in
  buffer ← Buffer.writeUInt32LE 16 16 buffer;
  buffer ← Buffer.writeUInt16LE 1 20 buffer;
  buffer ← Buffer.writeUInt16LE numChannels 22 buffer;
  buffer ← Buffer.writeUInt32LE sampleRate 24 buffer;
  buffer ← Buffer.writeUInt32LE byteRate 28 buffer;
  buffer ← Buffer.writeUInt16LE blockAlign 32 buffer;
  buffer ← Buffer.writeUInt16LE bitsPerSample 34 buffer;
  let buffer := Buffer.write "data" 36 buffer in
  buffer ← Buffer.writeUInt32LE (Z.of_nat dataSize) 40 buffer;
  write_samples audioData 0 buffer.

(** [writeWavFile(filePath, audioData, sampleRate)] on a directory of
    files. *)
Definition writeWavFile (filePath : string) (audioData : list Q)
    (sampleRate : Z) (files : gmap string Buffer.t)
    : option (gmap string Buffer.t) :=
  buffer ← wav_buffer audioData sampleRate;
  Some (<[filePath := buffer]> files).

End Wav.

(** ** The desktop transcriber ([DesktopTranscriber]) *)

Module Desktop.

(** [path.join(dir, name)] *)
Definition join (dir name : string) : string := (dir ++ "/" ++ name)%string.

(** A directory entry, as [readdirSync(dir, { withFileTypes: true })]
    reports it: [isFile()], [isDirectory()], or neither. *)
#[warnings="-register-all"]
Inductive node :=
| File (name : string)
| Dir (name : string) (entries : list node)
| Other (name : string).

Definition node_name (n : node) : string :=
  match n with File name | Dir name _ | Other name => name end.

(** What the release index answers: a network error, a status other
    than 200, or the assets of the latest release. *)
Inductive release_reply :=
| NetworkError
| Status (code : Z)
| Release (assets : list (string * string)).  (* name, browser_download_url *)

(** The host machine and the network: [process.platform] and
    [process.arch], the plugin directory, [os.tmpdir()], the answer of the
    release index, whether the download of a URL succeeds (redirects
    followed), what extracting the downloaded archive makes of the entries
    of the bin directory ([None]: the extraction fails), and whether a
    file may be unlinked. *)
Record host := mkHost {
  platform : string;
  arch : string;
  pluginDir : string;
  tmpdir : string;
  latest_release : release_reply;
  download_ok : string → bool;
  unzip : list node → option (list node);
  can_unlink : string → bool
}.

(** The files the transcriber works on, the traces it leaves, and the
    fields of the [DesktopTranscriber] object.  [binDir] holds the
    entries of [<pluginDir>/bin] ([None]: no such directory),
    [modelsDir] the file names in [<pluginDir>/models], [tmpFiles] the
    files of [os.tmpdir()] by path.  [requests] lists the URLs requested
    with [https.get], [unlinks] the temporary files [fs.unlinkSync] was
    called on, [chmods] the paths made executable, [console] the messages
    passed to [log], [progress] the statuses passed to [progressCallback],
    each oldest first. *)
Record state := mkState {
  binDir : option (list node);
  modelsDir : option (list string);
  tmpFiles : gmap string Buffer.t;
  requests : list string;
  unlinks : list string;
  chmods : list string;
  console : list string;
  progress : list string;
  whisperPath : option string;
  modelPath : option string;
  initialized : bool
}.

(** *** A state and exception monad *)

Inductive result (A : Type) : Type :=
| Ok (a : A)
| Threw (message : string).
Arguments Ok {A} a.
Arguments Threw {A} message.

Definition M (A : Type) : Type := state → result A * state.

#[global] Instance M_ret : MRet M := λ A a st, (Ok a, st).

#[global] Instance M_bind : MBind M := λ A B f c st,
  match c st with
  | (Ok a, st) => f a st
  | (Threw message, st) => (Threw message, st)
  end.

Definition throw {A} (message : string) : M A := λ st, (Threw message, st).

(** [try { c } catch (e) { handler(e) }] *)
Definition try_catch {A} (c : M A) (handler : string → M A) : M A := λ st,
  match c st with
  | (Ok a, st) => (Ok a, st)
  | (Threw message, st) => handler message st
  end.

Definition get : M state := λ st, (Ok st, st).
Definition modify (f : state → state) : M unit := λ st, (Ok tt, f st).

Definition set_binDir (d : option (list node)) (st : state) : state :=
  mkState d (modelsDir st) (tmpFiles st) (requests st) (unlinks st)
    (chmods st) (console st) (progress st) (whisperPath st) (modelPath st)
    (initialized st).

Definition set_modelsDir (d : option (list string)) (st : state) : state :=
  mkState (binDir st) d (tmpFiles st) (requests st) (unlinks st)
    (chmods st) (console st) (progress st) (whisperPath st) (modelPath st)
    (initialized st).

Definition set_tmpFiles (files : gmap string Buffer.t) (st : state) : state :=
  mkState (binDir st) (modelsDir st) files (requests st) (unlinks st)
    (chmods st) (console st) (progress st) (whisperPath st) (modelPath st)
    (initialized st).

Definition add_request (url : string) (st : state) : state :=
  mkState (binDir st) (modelsDir st) (tmpFiles st) (requests st ++ [url])
    (unlinks st) (chmods st) (console st) (progress st) (whisperPath st)
    (modelPath st) (initialized st).

Definition add_unlink (path : string) (st : state) : state :=
  mkState (binDir st) (modelsDir st) (tmpFiles st) (requests st)
    (unlinks st ++ [path]) (chmods st) (console st) (progress st)
    (whisperPath st) (modelPath st) (initialized st).

Definition add_chmod (path : string) (st : state) : state :=
  mkState (binDir st) (modelsDir st) (tmpFiles st) (requests st)
    (unlinks st) (chmods st ++ [path]) (console st) (progress st)
    (whisperPath st) (modelPath st) (initialized st).

Definition add_console (message : string) (st : state) : state :=
  mkState (binDir st) (modelsDir st) (tmpFiles st) (requests st)
    (unlinks st) (chmods st) (console st ++ [message]) (progress st)
    (whisperPath st) (modelPath st) (initialized st).

Definition add_progress (status : string) (st : state) : state :=
  mkState (binDir st) (modelsDir st) (tmpFiles st) (requests st)
    (unlinks st) (chmods st) (console st) (progress st ++ [status])
    (whisperPath st) (modelPath st) (initialized st).

Definition set_whisperPath (path : option string) (st : state) : state :=
  mkState (binDir st) (modelsDir st) (tmpFiles st) (requests st)
    (unlinks st) (chmods st) (console st) (progress st) path
    (modelPath st) (initialized st).

Definition set_modelPath (path : option string) (st : state) : state :=
  mkState (binDir st) (modelsDir st) (tmpFiles st) (requests st)
    (unlinks st) (chmods st) (console st) (progress st) (whisperPath st)
    path (initialized st).

Definition set_initialized (b : bool) (st : state) : state :=
  mkState (binDir st) (modelsDir st) (tmpFiles st) (requests st)
    (unlinks st) (chmods st) (console st) (progress st) (whisperPath st)
    (modelPath st) b.

Definition log (message : string) : M unit := modify (add_console message).

(** [progressCallback({ status, ... })] *)
Definition progressCallback (status : string) : M unit :=
  modify (add_progress status).

(** *** Provisioning *)

Definition MODEL_BASE_URL : string :=
  "https://huggingface.co/ggerganov/whisper.cpp/resolve/main".

Definition MODEL_MAP : list (string * string) :=
  [("Xenova/whisper-tiny.en", "ggml-tiny.en.bin");
   ("Xenova/whisper-base.en", "ggml-base.en.bin");
   ("Xenova/whisper-small.en", "ggml-small.en.bin");
   ("Xenova/whisper-medium.en", "ggml-medium.en.bin");
   ("Xenova/whisper-tiny", "ggml-tiny.bin");
   ("Xenova/whisper-base", "ggml-base.bin");
   ("Xenova/whisper-small", "ggml-small.bin");
   ("Xenova/whisper-medium", "ggml-medium.bin")]%string.

(** [MODEL_MAP[modelId] || 'ggml-base.en.bin'] *)
Definition modelFileName (modelId : string) : string :=
  default "ggml-base.en.bin"%string
    (snd <$> List.find (λ kv, String.eqb (fst kv) modelId) MODEL_MAP).

(** [getPlatformInfo]: the executable names and the archive name. *)
Definition execNames (h : host) : list string :=
  if String.eqb (platform h) "win32" then ["whisper-cli.exe"%string]
  else ["whisper-cli"%string].

Definition archivePattern (h : host) : string :=
  if String.eqb (platform h) "win32" then "whisper-blas-bin-x64.zip"
  else if String.eqb (platform h) "darwin" then
    let archSuffix :=
      if String.eqb (arch h) "arm64" then "arm64" else "x64" in
    ("whisper-bin-" ++ archSuffix ++ "-apple-darwin.zip")%string
  else if String.eqb (platform h) "linux" then
    "whisper-bin-x86_64-linux-gnu.zip"
  else "".

(** [findExecutable]: [visit] is the body of the [for] loop for one
    entry of [dir], [scan] the loop over the entries. *)
Fixpoint visit (names : list string) (dir : string) (entry : node)
    : option string :=
  match entry with
  | Dir name entries =>
      (fix scan (l : list node) : option string :=
         match l with
         | [] => None
         | e :: l =>
             match visit names (join dir name) e with
             | Some found => Some found
             | None => scan l
             end
         end) entries
  | File name =>
      if bool_decide (name ∈ names) then Some (join dir name) else None
  | Other _ => None
  end.

Fixpoint scan (names : list string) (dir : string) (entries : list node)
    : option string :=
  match entries with
  | [] => None
  | e :: entries =>
      match visit names dir e with
      | Some found => Some found
      | None => scan names dir entries
      end
  end.

Definition findExecutable (dir : string) (tree : option (list node))
    (names : list string) : option string :=
  match tree with
  | None => None             (* [!fs.existsSync(dir)] *)
  | Some entries => scan names dir entries
  end.

(** [listDirRecursive] *)
Fixpoint list_entry (prefix : string) (entry : node) : list string :=
  let relativePath :=
    if String.eqb prefix "" then node_name entry
    else (prefix ++ "/" ++ node_name entry)%string in
  match entry with
  | Dir _ entries =>
      (relativePath ++ "/")%string
      :: (fix walk (l : list node) : list string :=
            match l with
            | [] => []
            | e :: l => list_entry relativePath e ++ walk l
            end) entries
  | _ => [relativePath]
  end.

Definition listDirRecursive (tree : option (list node)) : list string :=
  match tree with
  | None => []
  | Some entries => entries ≫= list_entry ""
  end.

(** [ensureDir]: [mkdirSync] when the directory is missing. *)
Definition ensureDir {A} (dir : option (list A)) : option (list A) :=
  match dir with
  | None => Some []
  | Some entries => Some entries
  end.

(** [getLatestReleaseUrl]: one request to the release index. *)
Definition getLatestReleaseUrl (h : host) (pattern : string) : M string :=
  log "Fetching latest whisper.cpp release info";;
  modify (add_request
    "https://api.github.com/repos/ggerganov/whisper.cpp/releases/latest");;
  match latest_release h with
  | NetworkError => throw "request failed"
  | Status code => throw ("GitHub API returned " ++ pretty code)%string
  | Release assets =>
      log "Latest release";;
      match List.find (λ a, String.eqb (fst a) pattern) assets with
      | Some asset => mret (snd asset)
      | None =>
          throw ("Could not find " ++ pattern ++ " in release. Available: "
                 ++ String.concat ", " (fst <$> assets))%string
      end
  end.

(** [downloadFile(url, destPath)]: one request; on success the file
    [destPath] exists, which [create] records. *)
Definition downloadFile (h : host) (url : string)
    (create : state → state) : M unit :=
  modify (add_request url);;
  if download_ok h url then modify create else throw "HTTP error".

Definition create_in_bin (name : string) (st : state) : state :=
  set_binDir
    (Some (File name
           :: List.filter (λ e, negb (String.eqb (node_name e) name))
                (default [] (binDir st)))) st.

Definition create_in_models (name : string) (st : state) : state :=
  set_modelsDir
    (Some (name :: List.filter (λ f, negb (String.eqb f name))
                     (default [] (modelsDir st)))) st.

(** [extractZip]: the archive is unpacked into the bin directory. *)
Definition extractZip (h : host) : M unit :=
  st ← get;
  match unzip h (default [] (binDir st)) with
  | Some entries => modify (set_binDir (Some entries))
  | None => throw "Extraction failed"
  end.

(** [fs.unlinkSync] of a file of the bin directory. *)
Definition unlink_in_bin (name : string) : M unit :=
  st ← get;
  let entries := default [] (binDir st) in
  if existsb (λ e, String.eqb (node_name e) name) entries then
    modify (set_binDir
      (Some (List.filter (λ e, negb (String.eqb (node_name e) name)) entries)))
  else throw "ENOENT".

Definition downloadExecutable (h : host) : M unit :=
  url ← getLatestReleaseUrl h (archivePattern h);
  log "Downloading from";;
  downloadFile h url (create_in_bin "whisper.zip");;
  log "Extracting archive";;
  progressCallback "extracting";;
  extractZip h;;
  try_catch (unlink_in_bin "whisper.zip")
    (λ _, log "Failed to delete zip file").

Definition downloadModel (h : host) (fileName : string) : M unit :=
  let url := (MODEL_BASE_URL ++ "/" ++ fileName)%string in
  log "Downloading model from";;
  downloadFile h url (create_in_models fileName);;
  log "Model downloaded".

(** [fs.existsSync(this.modelPath)] *)
Definition model_exists (fileName : string) (st : state) : bool :=
  bool_decide (fileName ∈ default [] (modelsDir st)).

(** [DesktopTranscriber.initialize(modelId, progressCallback)] *)
Definition initialize (h : host) (modelId : string) : M unit :=
  let binPath := join (pluginDir h) "bin" in
  let modelsPath := join (pluginDir h) "models" in
  modify (λ st, set_binDir (ensureDir (binDir st)) st);;
  modify (λ st, set_modelsDir (ensureDir (modelsDir st)) st);;
  st ← get;
  modify (set_whisperPath (findExecutable binPath (binDir st) (execNames h)));;
  st ← get;
  match whisperPath st with
  | Some _ => mret tt
  | None =>
      log "Downloading whisper executable";;
      progressCallback "downloading";;
      downloadExecutable h;;
      st ← get;
      modify (set_whisperPath
                (findExecutable binPath (binDir st) (execNames h)));;
      st ← get;
      match whisperPath st with
      | Some _ => mret tt
      | None =>
          throw ("Could not find whisper executable after extraction. Contents: "
                 ++ String.concat ", " (listDirRecursive (binDir st)))%string
      end
  end;;
  st ← get;
  (if String.eqb (platform h) "win32" then mret tt
   else modify (add_chmod (default "" (whisperPath st))));;
  log "Using whisper executable";;
  let fileName := modelFileName modelId in
  modify (set_modelPath (Some (join modelsPath fileName)));;
  st ← get;
  (if model_exists fileName st then mret tt
   else
     log "Downloading model";;
     progressCallback "downloading";;
     downloadModel h fileName);;
  modify (set_initialized true);;
  progressCallback "ready";;
  log "Desktop transcriber initialized".

(** *** Transcription *)

(** What the spawned process emits: [close] with the exit code and the
    collected output, or [error]. *)
Inductive proc_event :=
| Close (code : Z) (stdout stderr : string)
| Error (message : string).

(** [fs.unlinkSync] of a temporary file. *)
Definition unlinkSync (h : host) (path : string) : M unit :=
  modify (add_unlink path);;
  st ← get;
  if bool_decide (is_Some (tmpFiles st !! path)) && can_unlink h path
  then modify (set_tmpFiles (delete path (tmpFiles st)))
  else throw "unlink failed".

Definition is_space (c : Ascii.ascii) : bool :=
  let n := nat_of_ascii c in (n =? 32) || ((9 <=? n) && (n <=? 13)).

Fixpoint trim_start (s : string) : string :=
  match s with
  | String c s' => if is_space c then trim_start s' else s
  | EmptyString => EmptyString
  end.

(** [stdout.trim()] *)
Definition trim (s : string) : string :=
  String.rev (trim_start (String.rev (trim_start s))).

(** The [close] handler; its value is how it settles the promise. *)
Definition on_close (h : host) (tempWavPath : string)
    (code : Z) (stdout stderr : string) : M (result string) :=
  try_catch (unlinkSync h tempWavPath)
    (λ _, log "Failed to delete temp file");;
  if (code =? 0)%Z then
    let text := trim stdout in
    log "Transcription result";;
    mret (Ok text)
  else
    log "whisper.cpp failed";;
    mret (Threw ("whisper.cpp exited with code " ++ pretty code ++ ": "
                 ++ stderr)%string).

(** The [error] handler. *)
Definition on_error (h : host) (tempWavPath : string) (message : string)
    : M (result string) :=
  try_catch (unlinkSync h tempWavPath) (λ _, mret tt);;
  log "whisper.cpp spawn error";;
  mret (Threw message).

(** A promise settles once: later [resolve]/[reject] calls are ignored. *)
Definition handle (h : host) (tempWavPath : string)
    (settled : option (result string)) (e : proc_event)
    : M (option (result string)) :=
  r ← match e with
      | Close code stdout stderr => on_close h tempWavPath code stdout stderr
      | Error message => on_error h tempWavPath message
      end;
  mret (match settled with Some r' => Some r' | None => Some r end).

Definition tempWavPath (h : host) (now : Z) : string :=
  join (tmpdir h) ("whisper-" ++ pretty now ++ ".wav")%string.

(** [DesktopTranscriber.transcribe(audioData)], with [now] the value of
    [Date.now()] and [events] what the process emits; the value is the
    settlement of the returned promise, if any. *)
Definition transcribe (h : host) (now : Z) (audioData : list Q)
    (events : list proc_event) : M (option (result string)) :=
  st ← get;
  if negb (initialized st) then throw "Transcriber not initialized"
  else
    match Wav.writeWavFile (tempWavPath h now) audioData 16000 (tmpFiles st) with
    | None => throw "RangeError"
    | Some files => modify (set_tmpFiles files)
    end;;
    log "Wrote temp WAV";;
    log "Spawning whisper";;
    foldl (λ acc e, settled ← acc; handle h (tempWavPath h now) settled e)
      (mret None) events.

End Desktop.

(** ** JavaScript string methods *)

Module Str.

(** [s.includes(sub)] *)
Fixpoint includes (s sub : string) : bool :=
  String.prefix sub s
  || match s with
     | EmptyString => false
     | String _ s' => includes s' sub
     end.

(** [s.replace(c, rep)] for a one-character pattern: the first
    occurrence only. *)
Fixpoint replace (c : Ascii.ascii) (rep : string) (s : string) : string :=
  match s with
  | EmptyString => EmptyString
  | String a s' =>
      if Ascii.eqb a c then (rep ++ s')%string else String a (replace c rep s')
  end.

End Str.

(** ** The cache check on mobile ([isModelCached] of [src/main.js]) *)

Module MobileCache.

(** The cache storage as the function sees it: the cache names in the
    order of [caches.keys()], each with the URLs of its keys; [None] when
    one of the awaited calls throws. *)
Definition storage := option (list (string * list string)).

Definition isModelCached (caches : storage) (modelId : string) : bool :=
  match caches with
  | None => false
  | Some caches =>
      let transformersCache :=
        List.find (λ cache, Str.includes (fst cache) "transformers"
                            || Str.includes (fst cache) "xenova") caches in
      match transformersCache with
      | None => false
      | Some cache =>
          existsb (λ url, Str.includes url (Str.replace "/" "%2F" modelId)
                          || Str.includes url modelId) (snd cache)
      end
  end.

End MobileCache.

(** ** The model setting and the loaded model *)

Module ModelSwitch.

(** [loadModel] together with the [onChange] handler of the model
    setting.  [transcriber] names the model the loaded transcriber runs,
    [loading] the model whose load is in flight (the value of
    [settings.modelId] when the load was started), [started] lists the
    models whose load was started and [returned] the values [loadModel]
    returned, each oldest first. *)
Record plugin := mkPlugin {
  modelId : string;
  transcriber : option string;
  isModelLoading : bool;
  loading : option string;
  started : list string;
  returned : list bool
}.

Definition initial (modelId : string) : plugin :=
  mkPlugin modelId None false None [] [].

(** [loadModel] up to its first [await]. *)
Definition loadModel_begin (p : plugin) : plugin :=
  match transcriber p with
  | Some _ =>
      mkPlugin (modelId p) (transcriber p) (isModelLoading p) (loading p)
        (started p) (returned p ++ [true])
  | None =>
      if isModelLoading p then
        mkPlugin (modelId p) (transcriber p) (isModelLoading p) (loading p)
          (started p) (returned p ++ [false])
      else
        mkPlugin (modelId p) (transcriber p) true (Some (modelId p))
          (started p ++ [modelId p]) (returned p)
  end.

(** The awaited load resolved: [this.transcriber = ...;
    this.isModelLoading = false; return true]. *)
Definition loadModel_loaded (p : plugin) : plugin :=
  match loading p with
  | Some model =>
      mkPlugin (modelId p) (Some model) false None (started p)
        (returned p ++ [true])
  | None => p
  end.

(** The awaited load threw: [this.isModelLoading = false; return false]. *)
Definition loadModel_failed (p : plugin) : plugin :=
  match loading p with
  | Some _ =>
      mkPlugin (modelId p) (transcriber p) false None (started p)
        (returned p ++ [false])
  | None => p
  end.

(** [onChange] of the model dropdown:
    [settings.modelId = value; this.plugin.transcriber = null]. *)
Definition onChange (value : string) (p : plugin) : plugin :=
  mkPlugin value None (isModelLoading p) (loading p) (started p) (returned p).

Inductive event :=
| Call
| Loaded
| Failed
| Change (value : string).

Definition step (p : plugin) (e : event) : plugin :=
  match e with
  | Call => loadModel_begin p
  | Loaded => loadModel_loaded p
  | Failed => loadModel_failed p
  | Change value => onChange value p
  end.

Definition run (p : plugin) (evs : list event) : plugin := foldl step p evs.

End ModelSwitch.

(** ** Status notices ([showStatus]) *)

Module Status.

(** The second argument of [showStatus]: a number of milliseconds, or
    [true], which marks a message that may be dropped. *)
Inductive timeout :=
| Ms (n : Z)
| Droppable.

(** A [Notice]: its text, the duration it was created with (0: it stays
    until hidden) and whether [hide()] was called on it. *)
Record notice := mkNotice {
  message : string;
  duration : Z;
  hidden : bool
}.

(** [notices] holds the [Notice] objects created so far, oldest first;
    [statusNotice] is the position of the one [this.statusNotice] refers
    to. *)
Record plugin := mkPlugin {
  lastStatus : Z;
  statusNotice : option nat;
  notices : list notice
}.

Definition initial : plugin := mkPlugin 0 None [].

Definition hide (n : notice) : notice :=
  mkNotice (message n) (duration n) true.

(** [showStatus(message, timeout)]; [now] and [now'] are the values of
    the two [Date.now()] calls. *)
Definition showStatus (message : string) (t : timeout) (now now' : Z)
    (p : plugin) : plugin :=
  let is_true := match t with Droppable => true | Ms _ => false end in
  if (now - lastStatus p <? 1000)%Z && is_true then p
  else
    let timeout := match t with Droppable => 0%Z | Ms n => n end in
    let notices :=
      match statusNotice p with
      | Some i => alter hide i (notices p)
      | None => notices p
      end in
    mkPlugin now' (Some (length notices))
      (notices ++ [mkNotice message timeout false]).

(** A call of [showStatus] with its arguments and clock readings. *)
Record call := mkCall {
  call_message : string;
  call_timeout : timeout;
  call_now : Z;
  call_now' : Z
}.

Definition run (p : plugin) (calls : list call) : plugin :=
  foldl (λ p c, showStatus (call_message c) (call_timeout c)
                  (call_now c) (call_now' c) p) p calls.

End Status.

(** ** Audio preparation ([transcribeAudio]) *)

Module Audio.



End Audio.

(** ** The copy of [resampleAudio] in the mobile test *)

Module TestMobile.

(** [resampleAudio] of [tests/test_mobile.js]: the input itself when the
    rates are equal, else an ordinary array filled by [push] (a negative
    length gives the empty array; [None] is [undefined]). *)
Definition resampleAudio (audioData : list Q) (fromSampleRate toSampleRate : Q)
    : list Resample.sample :=
  if Qeq_bool fromSampleRate toSampleRate then Some <$> audioData
  else
    let ratio := (fromSampleRate / toSampleRate)%Q in
    let newLength := Num.round (Num.of_nat (length audioData) / ratio)%Q in
    (λ i, Resample.at_index audioData (Num.floor (Num.of_nat i * ratio)%Q))
      <$> seq 0 (Z.to_nat newLength).

End TestMobile.

(** ** The cache methods of the desktop transcriber and the settings tab *)

Module DesktopCache.
Import Desktop.

(** [new DesktopTranscriber(plugin)]: the fields of a fresh object; the
    files on disk are what they are. *)
Definition construct (st : state) : state :=
  set_initialized false (set_modelPath None (set_whisperPath None st)).

(** [isModelCached(modelId)]:
    [fs.existsSync(path.join(modelsDir, MODEL_MAP[modelId] || 'ggml-base.en.bin'))] *)
Definition isModelCached (modelId : string) (st : state) : bool :=
  model_exists (modelFileName modelId) st.

(** [clearCache()]: [fs.rmSync(dir, { recursive: true, force: true })] on
    the models directory and on the bin directory, where they exist
    ([rmSync] is taken to succeed). *)
Definition clearCache (st : state) : state :=
  let st :=
    match modelsDir st with
    | Some _ => set_modelsDir None st
    | None => st
    end in
  match binDir st with
  | Some _ => set_binDir None st
  | None => st
  end.

(** The desktop branch of the [Clear Cache] button of the settings tab.
    Its guard reads [this.plugin.destopTransriber], a property the plugin
    never defines, so [this.plugin.desktopTranscriber] is always replaced
    by a fresh object before [clearCache()] is called on it.  The
    function [this.plugin.transcriber] set by [loadModel] calls
    [this.desktopTranscriber.transcribe], that is, the current object. *)
Definition clearCacheClicked (st : state) : state :=
  clearCache (construct st).

End DesktopCache.

(** ** The WAV readers of the test programs

    [readWavAsFloat32] of the desktop test and [parseWavFile] of the
    mobile test read the files the tests feed to the transcriber. *)

Module WavReader.
Import Desktop.

#[global] Instance result_ret : MRet result := λ A a, Ok a.

#[global] Instance result_bind : MBind result := λ A B f r,
  match r with
  | Ok a => f a
  | Threw message => Threw message
  end.

(** A read outside the buffer throws a [RangeError]. *)
Definition in_range {A} (read : option A) : result A :=
  match read with
  | Some a => Ok a
  | None => Threw "RangeError"
  end.

(** [buffer.toString('ascii', start, end)]: decoding as ['ascii'] clears
    the high bit of every byte. *)
Definition toString (start stop : nat) (buf : Buffer.t) : string :=
  String.string_of_list_ascii
    ((λ b, ascii_of_nat (Z.to_nat (Z.land b 127)))
       <$> Buffer.bytes_at start (stop - start) buf).

(** An element of a [Float32Array] (the sign of zero is not kept). *)
Inductive number :=
| Finite (q : Q)
| NaN
| Infinite (negative : bool).

(** [buffer.readFloatLE(offset)]: the IEEE 754 single whose bits are the
    four bytes at [offset]. *)
Definition readFloatLE (offset : nat) (buf : Buffer.t) : option number :=
  bits ← Buffer.readUInt32LE offset buf;
  let negative := (2147483648 <=? bits)%Z in
  let exponent := ((bits / 8388608) mod 256)%Z in
  let fraction := (bits mod 8388608)%Z in
  Some (if (exponent =? 255)%Z then
          if (fraction =? 0)%Z then Infinite negative else NaN
        else
          let magnitude :=
            if (exponent =? 0)%Z then (inject_Z fraction * 2 ^ (-149))%Q
            else (inject_Z (8388608 + fraction) * 2 ^ (exponent - 150))%Q in
          Finite (if negative then - magnitude else magnitude)%Q).

(** The fields the readers keep from the [fmt ] chunk. *)
Record format := mkFormat {
  numChannels : Z;
  sampleRate : Z;
  bitsPerSample : Z
}.

(** *** [readWavAsFloat32] (desktop test) *)

(** The [while (offset < buffer.length - 8)] loop: the format fields, and
    [dataOffset] and [dataSize] if the loop left at [break].  Every
    iteration moves [offset] forward by at least 8, so the length of the
    buffer bounds the number of iterations. *)
Fixpoint find_data (fuel : nat) (buffer : Buffer.t) (offset : nat)
    (fmt : format) : option (result (format * option (nat * Z))) :=
  if (Z.of_nat offset <? Z.of_nat (length buffer) - 8)%Z then
    match fuel with
    | 0 => None
    | S fuel =>
        let chunkId := toString offset (offset + 4) buffer in
        match Buffer.readUInt32LE (offset + 4) buffer with
        | None => Some (Threw "RangeError")
        | Some chunkSize =>
            if String.eqb chunkId "fmt " then
              match Buffer.readUInt16LE (offset + 10) buffer,
                    Buffer.readUInt32LE (offset + 12) buffer,
                    Buffer.readUInt16LE (offset + 22) buffer with
              | Some numChannels, Some sampleRate, Some bitsPerSample =>
                  find_data fuel buffer (offset + 8 + Z.to_nat chunkSize)
                    (mkFormat numChannels sampleRate bitsPerSample)
              | _, _, _ => Some (Threw "RangeError")
              end
            else if String.eqb chunkId "data" then
              Some (Ok (fmt, Some (offset + 8, chunkSize)))
            else find_data fuel buffer (offset + 8 + Z.to_nat chunkSize) fmt
        end
    end
  else Some (Ok (fmt, None)).

(** The allocation of the [Float32Array] and the [for] loop that fills
    it.  With 0 bits per sample [dataSize / bytesPerSample] is [NaN] (an
    empty array) or [Infinity] (a [RangeError]). *)
Definition read_samples (buffer : Buffer.t) (fmt : format)
    (dataOffset : nat) (dataSize : Z) : result (list number) :=
  let bits := bitsPerSample fmt in
  if (bits =? 0)%Z then
    if (dataSize =? 0)%Z then Ok [] else Threw "RangeError"
  else
    let bytesPerSample := (inject_Z bits / 8)%Q in
    let totalSamples := Num.floor (inject_Z dataSize / bytesPerSample)%Q in
    mapM (λ i,
            if (bits =? 16)%Z then
              sample ← in_range (Buffer.readInt16LE (dataOffset + i * 2) buffer);
              mret (Finite (inject_Z sample / 32768)%Q)
            else if (bits =? 32)%Z then
              in_range (readFloatLE (dataOffset + i * 4) buffer)
            else mret (Finite 0))
         (seq 0 (Z.to_nat totalSamples)).

(** [None]: out of fuel, which does not happen ([readWavAsFloat32_returns]). *)
Definition readWavAsFloat32 (buffer : Buffer.t)
    : option (result (list number)) :=
  let riffHeader := toString 0 4 buffer in
  if negb (String.eqb riffHeader "RIFF") then
    Some (Threw "Not a valid WAV file")
  else
    found ← find_data (length buffer) buffer 12 (mkFormat 1 16000 16);
    Some (match found with
          | Threw message => Threw message
          | Ok (_, None) => Threw "Could not find data chunk in WAV file"
          | Ok (fmt, Some (dataOffset, dataSize)) =>
              read_samples buffer fmt dataOffset dataSize
          end).

(** *** [parseWavFile] (mobile test) *)

(** The body of [if (chunkId === 'data')]: the samples and the sample
    rate.  The loop [for (i = 0; i < sampleCount; i++)] pushes a sample
    only when there are 16 bits per sample; with 0 bits per sample
    [sampleCount] is [NaN] (no iteration) or [Infinity], and then the
    loop does not end ([None]). *)
Definition parse_data (buffer : Buffer.t) (dataOffset : nat) (chunkSize : Z)
    (sampleRate bitsPerSample : Z) : option (result (list Q * Z)) :=
  if (bitsPerSample =? 0)%Z then
    if (chunkSize =? 0)%Z then Some (Ok ([], sampleRate)) else None
  else if (bitsPerSample =? 16)%Z then
    let bytesPerSample := (inject_Z bitsPerSample / 8)%Q in
    let sampleCount := (inject_Z chunkSize / bytesPerSample)%Q in
    Some (samples ← mapM (λ i,
                      sample ← in_range
                        (Buffer.readInt16LE (dataOffset + i * 2) buffer);
                      mret (inject_Z sample / 32768)%Q)
                    (seq 0 (Z.to_nat (Qceiling sampleCount)));
          mret (samples, sampleRate))
  else Some (Ok ([], sampleRate)).

(** The [while] loop. *)
Fixpoint parse_chunks (fuel : nat) (buffer : Buffer.t) (offset : nat)
    (sampleRate bitsPerSample : Z) : option (result (list Q * Z)) :=
  if (Z.of_nat offset <? Z.of_nat (length buffer) - 8)%Z then
    match fuel with
    | 0 => None
    | S fuel =>
        let chunkId := toString offset (offset + 4) buffer in
        match Buffer.readUInt32LE (offset + 4) buffer with
        | None => Some (Threw "RangeError")
        | Some chunkSize =>
            let fmt :=
              if String.eqb chunkId "fmt " then
                sampleRate ← Buffer.readUInt32LE (offset + 12) buffer;
                bitsPerSample ← Buffer.readUInt16LE (offset + 22) buffer;
                Some (sampleRate, bitsPerSample)
              else Some (sampleRate, bitsPerSample) in
            match fmt with
            | None => Some (Threw "RangeError")
            | Some (sampleRate, bitsPerSample) =>
                if String.eqb chunkId "data" then
                  parse_data buffer (offset + 8) chunkSize
                    sampleRate bitsPerSample
                else
                  let offset := offset + 8 + Z.to_nat chunkSize in
                  let offset :=
                    if (chunkSize mod 2 =? 0)%Z then offset else offset + 1 in
                  parse_chunks fuel buffer offset sampleRate bitsPerSample
            end
        end
    end
  else Some (Threw "Could not find data chunk in WAV file").

(** [None]: the call does not return. *)
Definition parseWavFile (buffer : Buffer.t) : option (result (list Q * Z)) :=
  let riff := toString 0 4 buffer in
  let wave := toString 8 12 buffer in
  if negb (String.eqb riff "RIFF") || negb (String.eqb wave "WAVE") then
    Some (Threw "Invalid WAV file format")
  else parse_chunks (length buffer) buffer 12 16000 16.

End WavReader.

(** ** The request wrapper of the tests ([tests/patch_header.js]) *)

Module PatchHeader.

(** The properties of a request options object that [wrapArguments]
    reads or writes. *)
Record options := mkOptions {
  hostname : option string;
  host : option string;
  headers : option (gmap string string)
}.

(** An argument of [https.get]: a string, a [URL] (by its [toString()]),
    another non-null object, or anything else (a callback, [undefined]). *)
Inductive value :=
| Str (s : string)
| Url (href : string)
| Object (o : options)
| Other (tag : nat).

(** A string is truthy when it is not empty; a missing one is not. *)
Definition truthy (s : option string) : bool :=
  match s with
  | Some s => negb (String.eqb s "")
  | None => false
  end.

(** [newArgs[i] = v] on a copy of an array of at least [i] elements. *)
Definition assign (i : nat) (v : value) (args : list value) : list value :=
  if decide (i < length args) then <[i := v]> args else args ++ [v].

(** [wrapArguments(args)], with [token] the value of
    [process.env.GITHUB_TOKEN]. *)
Definition wrapArguments (token : option string) (args : list value)
    : list value :=
  let first_is_url :=
    match args !! 0 with
    | Some (Str _) | Some (Url _) => true
    | _ => false
    end in
  let '(urlStr, options) :=
    match args !! 0 with
    | Some (Str s) | Some (Url s) =>
        match args !! 1 with
        | Some (Object o) => (s, o)
        | _ => (s, mkOptions None None None)
        end
    | Some (Object o) =>
        (if truthy (hostname o) then default "" (hostname o)
         else if truthy (host o) then default "" (host o)
         else ""%string, o)
    | _ => (""%string, mkOptions None None None)
    end in
  let options :=
    if Str.includes urlStr "github.com" then
      let headers := default ∅ (headers options) in
      let headers :=
        if truthy token
           && negb (truthy (headers !! "Authorization"%string))
           && negb (truthy (headers !! "authorization"%string))
        then <["Authorization"%string := ("token " ++ default "" token)%string]>
               headers
        else headers in
      mkOptions (hostname options) (host options) (Some headers)
    else options in
  if first_is_url then assign 1 (Object options) args
  else assign 0 (Object options) args.

End PatchHeader.

(** * Specification vocabulary

    The predicates and sample inputs in which the properties below are
    stated. *)

Section SequencerSpec.
Import Sequencer.

(** What a flush that pops [m] entries, with texts [ts], makes of [p]. *)
Definition popped (m : nat) (ts : list string) (p p' : plugin) : Prop :=
  p' = set_next (nextInsertChunk p + m)
         (set_pending (pendingResults p')
            (set_editor ((λ ed, foldl emit ed ts) <$> targetEditor p) p))
  ∧ Forall2 (λ k t, pendingResults p !! k = Some t)
      (seq (nextInsertChunk p) m) ts
  ∧ (∀ k, pendingResults p' !! k =
          if decide (nextInsertChunk p <= k < nextInsertChunk p + m)
          then None else pendingResults p !! k).

(** Submitting the results of the chunks [order], one after the other. *)
Definition submit_all (texts : nat → string) (p : plugin) (order : list nat)
    : plugin :=
  foldl (λ p k, submit k (texts k) p) p order.

(** The sequencer after the results of the chunks in [done] have been
    submitted: they are inserted up to [nextInsertChunk] and pending above. *)
Record sequenced (texts : nat → string) (ed0 : Editor.t)
    (done : gset nat) (p : plugin) : Prop := {
  sequenced_pos : 1 <= nextInsertChunk p;
  sequenced_done : ∀ k,
    k ∈ done ↔ (1 <= k < nextInsertChunk p ∨ is_Some (pendingResults p !! k));
  sequenced_pending : ∀ k t,
    pendingResults p !! k = Some t → nextInsertChunk p < k ∧ t = texts k;
  sequenced_editor :
    targetEditor p =
    Some (foldl emit ed0 (texts <$> seq 1 (nextInsertChunk p - 1)))
}.

(** [text] is entirely wrapped in the brackets [l] ... [r]. *)
Definition wrapped (l r : Ascii.ascii) (text : string) : Prop :=
  ∃ s, text = String l (s ++ String r "")%string.

(** The texts the filter is meant to drop. *)
Definition non_speech (text : string) : Prop :=
  text = ""%string ∨ text = "you"%string
  ∨ wrapped "["%char "]"%char text ∨ wrapped "("%char ")"%char text.

(** Chunk numbers are handed out once: a number is recorded, or in
    flight, or pending, or already passed by [nextInsertChunk]. *)
Record session_inv (p : plugin) : Prop := {
  inv_pending : ∀ k, is_Some (pendingResults p !! k) →
    (nextInsertChunk p <= k <= chunkNumber p)
    ∧ (k ∉ inflight p) ∧ liveRecorder p ≠ Some k;
  inv_inflight : ∀ k, k ∈ inflight p →
    (nextInsertChunk p <= k <= chunkNumber p) ∧ liveRecorder p ≠ Some k;
  inv_live : ∀ c, liveRecorder p = Some c →
    c = chunkNumber p ∧ nextInsertChunk p <= c;
  inv_next : nextInsertChunk p <= S (chunkNumber p)
}.

(** Chunk [n] is the one the sequencer waits for, and nothing is left
    that could submit a result for it. *)
Record blocked (n : nat) (p : plugin) : Prop := {
  blocked_next : nextInsertChunk p = n;
  blocked_absent : pendingResults p !! n = None;
  blocked_not_inflight : n ∉ inflight p;
  blocked_live : ∀ c, liveRecorder p = Some c → n < c;
  blocked_recorded : n <= chunkNumber p
}.

(** Three chunks are recorded and dispatched; the transcriptions of
    chunks 1 and 3 succeed and that of chunk 2 throws. *)
Definition chunk2_fails : list event :=
  [RecorderStopped true; RecorderStopped true; RecorderStopped true;
   Resolved 1 "one"; Rejected 2; Resolved 3 "three"].

End SequencerSpec.

Section LoaderSpec.
Import Loader.

(** While a load is in flight the flag is up and no transcriber is set;
    otherwise nothing is loading. *)
Definition single_flight (p : plugin) : Prop :=
  (loading p = [] ∧ isModelLoading p = false)
  ∨ (∃ c, loading p = [c] ∧ isModelLoading p = true ∧ transcriber p = false).

(** The reading of the claim under which the second caller shares the
    result of the attempt in flight. *)
Definition second_caller_observes_first : Prop :=
  ∀ evs c1 c2 later b,
    loading (run initial evs) = [c1] → c2 ≠ c1 →
    outcome (run initial (evs ++ Call c2 :: later)) c1 = Some b →
    outcome (run initial (evs ++ Call c2 :: later)) c2 = Some b.

End LoaderSpec.

Section ResampleSpec.
Import Resample.
Local Open Scope Q_scope.

(** The blend the specification describes: between the samples at
    [floor p] and [ceil p], weighted by the fractional part of [p]. *)
Definition linear_blend (audioData : list Q) (p : Q) : option Q :=
  a ← at_index audioData (Qfloor p);
  b ← at_index audioData (Qceiling p);
  Some (a * (1 - (p - inject_Z (Qfloor p))) + b * (p - inject_Z (Qfloor p))).


End ResampleSpec.

Section WavSpec.
Import Buffer Wav.
Local Open Scope Q_scope.

(** The input clamped to [-1, 1]. *)
Definition clamp (x : Q) : Q :=
  if Qlt_le_dec x (-1) then -1 else if Qlt_le_dec 1 x then 1 else x.

(** The sample bytes, in order. *)
Definition data_bytes (audioData : list Q) : list Z :=
  audioData ≫= (λ x, le_bytes 2 (intSample x)).

(** The buffer after all the writes of [writeWavFile] at 16000 Hz. *)
Definition wav_bytes (audioData : list Q) : Buffer.t :=
  let dataSize := (length audioData * 2)%nat in
  store (data_bytes audioData) 44
    (store (le_bytes 4 (Z.of_nat dataSize)) 40
    (write "data" 36
    (store (le_bytes 2 16) 34
    (store (le_bytes 2 2) 32
    (store (le_bytes 4 32000) 28
    (store (le_bytes 4 16000) 24
    (store (le_bytes 2 1) 22
    (store (le_bytes 2 1) 20
    (store (le_bytes 4 16) 16
    (write "fmt " 12
    (write "WAVE" 8
    (store (le_bytes 4 (Z.of_nat (44 + dataSize) - 8)) 4
    (write "RIFF" 0
    (alloc (44 + dataSize))))))))))))))).

End WavSpec.

Section DesktopSpec.
Import Desktop.

(** Some regular file named in [names] lies in the tree [entries]. *)
Inductive has_executable (names : list string) : list node → Prop :=
| has_here name rest :
    name ∈ names → has_executable names (File name :: rest)
| has_below name entries rest :
    has_executable names entries →
    has_executable names (Dir name entries :: rest)
| has_later e rest :
    has_executable names rest → has_executable names (e :: rest).


(** [transcribe] up to the spawn, when the WAV file can be written. *)
Definition spawned (files : gmap string Buffer.t) (st : state) : state :=
  add_console "Spawning whisper"
    (add_console "Wrote temp WAV" (set_tmpFiles files st)).


Definition linux_host : host :=
  mkHost "linux" "x64" "/vault/.obsidian/plugins/whisper" "/tmp"
    NetworkError (λ _, false) (λ _, None) (λ _, true).



Definition ready_state : state :=
  mkState None None ∅ [] [] [] [] []
    (Some "/bin/whisper-cli"%string) (Some "/models/ggml-base.en.bin"%string)
    true.

End DesktopSpec.

Section SessionSpec.
Import Sequencer.

(** The phases of the recorder: chunks are being recorded; a stop was
    requested and the last recorder has not reported yet; nothing is
    recorded and the microphone is released. *)
Inductive phase := Recording | Stopping | Idle.

Definition in_phase (p : plugin) (ph : phase) : Prop :=
  match ph with
  | Recording =>
      isRecording p = true ∧ isStopping p = false ∧ mediaStream p = true
      ∧ liveRecorder p = Some (chunkNumber p)
  | Stopping =>
      isRecording p = false ∧ isStopping p = true ∧ mediaStream p = true
      ∧ liveRecorder p = Some (chunkNumber p)
  | Idle =>
      isRecording p = false ∧ isStopping p = false ∧ mediaStream p = false
      ∧ liveRecorder p = None
  end.

(** Chunk [k] was handed out, and nothing is left that could submit a
    result for it. *)
Record lost (k : nat) (p : plugin) : Prop := {
  lost_range : nextInsertChunk p <= k <= chunkNumber p;
  lost_absent : pendingResults p !! k = None;
  lost_not_inflight : k ∉ inflight p;
  lost_not_live : liveRecorder p ≠ Some k
}.

(** Texts laid out one after the other on line [line] from column [ch]. *)
Fixpoint laid_out (line ch : nat) (ts : list string)
    : list (string * Editor.Pos) :=
  match ts with
  | [] => []
  | t :: ts => (t, Editor.mkPos line ch) :: laid_out line (ch + String.length t) ts
  end.

(** Nothing new is transcribed: relative to [p0], no transcription has
    begun and every pending result is one of [p0] or of a transcription
    that was in flight in [p0]. *)
Definition nothing_new (p0 p : plugin) : Prop :=
  transcriber p = false
  ∧ inflight p ⊆ inflight p0
  ∧ ∀ k, is_Some (pendingResults p !! k) →
         k ∈ inflight p0 ∨ is_Some (pendingResults p0 !! k).

End SessionSpec.

Section WavReaderSpec.
Local Open Scope Q_scope.

(** What the readers make of the 16-bit sample written for [x]. *)
Definition decoded (x : Q) : Q := inject_Z (Wav.intSample x) / 32768.

End WavReaderSpec.

Section DesktopCacheSpec.
Import Desktop.

(** How the first event of the process settles the promise of
    [transcribe]. *)
Definition settlement (e : proc_event) : result string :=
  match e with
  | Close code stdout stderr =>
      if (code =? 0)%Z then Ok (trim stdout)
      else Threw ("whisper.cpp exited with code " ++ pretty code ++ ": "
                  ++ stderr)%string
  | Error message => Threw message
  end.

(** Every directory of the tree has a name. *)
Inductive dirs_named : list node → Prop :=
| named_nil : dirs_named []
| named_file name rest : dirs_named rest → dirs_named (File name :: rest)
| named_other name rest : dirs_named rest → dirs_named (Other name :: rest)
| named_dir name entries rest :
    name ≠ ""%string → dirs_named entries → dirs_named rest →
    dirs_named (Dir name entries :: rest).

Definition release_index : string :=
  "https://api.github.com/repos/ggerganov/whisper.cpp/releases/latest".



End DesktopCacheSpec.

Section ModelSwitchSpec.
Import ModelSwitch.


End ModelSwitchSpec.

Section StatusSpec.
Import Status.

(** [this.statusNotice] is the notice created last, and every other
    notice has been hidden. *)
Definition one_notice_up (p : plugin) : Prop :=
  match statusNotice p with
  | Some i => S i = length (notices p)
  | None => notices p = []
  end
  ∧ ∀ j n, notices p !! j = Some n → hidden n = false →
           statusNotice p = Some j.

End StatusSpec.

(** * Properties *)

(** ** The flush loop *)

Section FlushLoop.
Import Sequencer.

Lemma flush_body_editor text p :
  targetEditor (flush_body text p) = (λ ed, emit ed text) <$> targetEditor p.
Proof.
  unfold flush_body, emit. destruct p as [? ? ? ? ? [ed|] ? ? ? ? ?]; simpl;
    destruct (survives text); reflexivity.
Qed.

Lemma flush_body_eq text p :
  flush_body text p =
  set_next (S (nextInsertChunk p))
    (set_pending (delete (nextInsertChunk p) (pendingResults p))
       (set_editor ((λ ed, emit ed text) <$> targetEditor p) p)).
Proof.
  unfold flush_body, emit. destruct p as [? ? ? ? ? [ed|] ? ? ? ? ?]; simpl;
    destruct (survives text); reflexivity.
Qed.

Lemma flush_loop_popped fuel : ∀ p,
  size (pendingResults p) <= fuel →
  ∃ m ts, popped m ts p (flush_loop fuel p)
          ∧ pendingResults (flush_loop fuel p)
              !! nextInsertChunk (flush_loop fuel p) = None.
Proof.
  induction fuel as [|fuel IH]; intros p Hsz.
  - assert (pendingResults p = ∅) as Hemp
      by (apply map_size_empty_iff; lia).
    exists 0, []. simpl. split; [|by rewrite Hemp, lookup_empty].
    repeat split.
    + destruct p; simpl. unfold set_next, set_pending, set_editor; simpl.
      rewrite Nat.add_0_r. by rewrite option_fmap_id.
    + constructor.
    + intros k. case_decide; [lia|done].
  - simpl. destruct (pendingResults p !! nextInsertChunk p) as [text|] eqn:Hlk.
    + pose proof (flush_body_eq text p) as Hq.
      set (q := flush_body text p) in *.
      destruct (IH q) as (m & ts & (Heq & Hall & Hpend) & Hnone).
      { rewrite Hq; simpl.
        pose proof (map_size_delete_Some (nextInsertChunk p) (pendingResults p)
                      (mk_is_Some _ _ Hlk)). lia. }
      set (r := flush_loop fuel q) in *.
      exists (S m), (text :: ts). split; [|exact Hnone].
      rewrite Hq in Heq, Hall, Hpend. simpl in Heq, Hall, Hpend.
      repeat split.
      * etrans; [exact Heq|].
        destruct p as [? ? ? ? ? [ed|] ? ? ? ? ?]; simpl;
          unfold set_next, set_pending, set_editor; simpl;
          f_equal; lia.
      * simpl. constructor; [exact Hlk|].
        eapply Forall2_impl; [exact Hall|]. simpl. intros k t Hk.
        apply lookup_delete_Some in Hk. tauto.
      * intros k. rewrite Hpend.
        destruct (decide (k = nextInsertChunk p)) as [->|Hne].
        -- rewrite lookup_delete_eq. repeat case_decide; try done; lia.
        -- rewrite lookup_delete_ne by done.
           repeat case_decide; try done; lia.
    + exists 0, []. split; [|exact Hlk]. repeat split.
      * destruct p; simpl. unfold set_next, set_pending, set_editor; simpl.
        rewrite Nat.add_0_r. by rewrite option_fmap_id.
      * constructor.
      * intros k. case_decide; [lia|done].
Qed.

(** The loop leaves by its condition, never for lack of fuel. *)
Lemma flushPendingResults_popped p :
  ∃ m ts, popped m ts p (flushPendingResults p)
          ∧ pendingResults (flushPendingResults p)
              !! nextInsertChunk (flushPendingResults p) = None.
Proof. apply flush_loop_popped. reflexivity. Qed.

End FlushLoop.

(** ** Insertion order equals capture order *)

Section OrderInvariant.
Import Sequencer.
Variable texts : nat → string.
Variable ed0 : Editor.t.

Lemma Forall2_seq_fmap (P : nat → string → Prop) n m ts :
  Forall2 P (seq n m) ts → (∀ k t, n <= k < n + m → P k t → t = texts k) →
  ts = texts <$> seq n m.
Proof.
  revert n ts. induction m as [|m IH]; intros n ts H HP; simpl in *.
  - by inversion H.
  - apply Forall2_cons_inv_l in H as (t0 & ts' & Hk & Hrest & ->).
    simpl. f_equal.
    + apply HP; [lia|done].
    + apply IH; [done|]. intros k t ? ?. apply HP; [lia|done].
Qed.

Lemma sequenced_submit done p k :
  sequenced texts ed0 done p → k ∉ done → 1 <= k →
  sequenced texts ed0 ({[k]} ∪ done) (submit k (texts k) p).
Proof.
  intros [Hpos Hdone Hpend Hed] Hk Hk1.
  assert (nextInsertChunk p <= k) as Hge.
  { destruct (decide (nextInsertChunk p <= k)); [done|].
    exfalso. apply Hk, Hdone. left. lia. }
  assert (pendingResults p !! k = None) as Hfresh.
  { destruct (pendingResults p !! k) eqn:E; [|done].
    exfalso. apply Hk, Hdone. right. by rewrite E. }
  unfold submit.
  set (p1 := set_pending (<[k:=texts k]> (pendingResults p)) p).
  destruct (flushPendingResults_popped p1) as (m & ts & (Heq & Hall & Hlk) & Hnone).
  set (p' := flushPendingResults p1) in *.
  change (nextInsertChunk p1) with (nextInsertChunk p) in Heq, Hall, Hlk.
  change (targetEditor p1) with (targetEditor p) in Heq.
  assert (nextInsertChunk p' = nextInsertChunk p + m) as Hnext
    by (rewrite Heq; reflexivity).
  assert (∀ j t, pendingResults p1 !! j = Some t →
                 nextInsertChunk p <= j ∧ t = texts j
                 ∧ (j = k ∨ is_Some (pendingResults p !! j))) as Hp1.
  { intros j t. subst p1; simpl. rewrite lookup_insert.
    case_decide as Hjk.
    - intros [= <-]. subst. auto.
    - intros Hj. destruct (Hpend _ _ Hj). split; [lia|]. split; [done|].
      right. by rewrite Hj. }
  assert (∀ j, nextInsertChunk p <= j < nextInsertChunk p + m →
               is_Some (pendingResults p1 !! j)) as Hrange.
  { intros j Hj.
    destruct (Forall2_lookup_l _ _ _ (j - nextInsertChunk p) j Hall)
      as (t & _ & Ht); [|by exists t].
    apply lookup_seq. lia. }
  assert (ts = texts <$> seq (nextInsertChunk p) m) as Hts.
  { eapply Forall2_seq_fmap; [exact Hall|]. simpl.
    intros j t _ Hj. by destruct (Hp1 _ _ Hj) as (_ & -> & _). }
  split.
  - lia.
  - intros j. rewrite Hnext, Hlk, elem_of_union, elem_of_singleton, Hdone.
    case_decide as Hin.
    + split; [intros _; left; lia|]. intros _.
      destruct (Hrange j Hin) as [t Ht].
      destruct (Hp1 _ _ Ht) as (_ & _ & [?|?]); auto.
    + split.
      * intros [->|[?|Hs]].
        -- right. subst p1; simpl. rewrite lookup_insert_eq. eauto.
        -- left. lia.
        -- right. destruct Hs as [t Ht]. subst p1; simpl.
           rewrite lookup_insert. case_decide; eauto.
      * intros [?|[t Ht]].
        -- right. left. lia.
        -- destruct (Hp1 _ _ Ht) as (_ & _ & [?|?]); auto.
  - intros j t. rewrite Hlk. case_decide as Hin; [done|]. intros Hj.
    destruct (Hp1 _ _ Hj) as (Hle & -> & _). split; [|done].
    destruct (decide (j = nextInsertChunk p')) as [->|Hne].
    + rewrite Hlk in Hnone. rewrite decide_False in Hnone by lia.
      congruence.
    + lia.
  - rewrite Heq. simpl. rewrite Hed. simpl. f_equal.
    rewrite Hts, <- foldl_app, <- fmap_app. do 2 f_equal.
    replace (nextInsertChunk p + m - 1) with ((nextInsertChunk p - 1) + m) by lia.
    rewrite seq_app. do 2 f_equal. lia.
Qed.

Lemma sequenced_submit_all order : ∀ done p,
  sequenced texts ed0 done p → NoDup order →
  (∀ k, k ∈ order → 1 <= k ∧ k ∉ done) →
  sequenced texts ed0 (list_to_set order ∪ done) (submit_all texts p order).
Proof.
  induction order as [|k order IH]; intros done p Hinv Hnd Hnew; simpl.
  - by rewrite union_empty_l_L.
  - apply NoDup_cons in Hnd as [Hk Hnd].
    replace ({[k]} ∪ list_to_set order ∪ done)
      with (list_to_set order ∪ ({[k]} ∪ done) : gset nat)
      by (apply set_eq; intros x; rewrite !elem_of_union; tauto).
    apply IH; [|done|].
    + apply sequenced_submit; [done| |]; apply Hnew; left.
    + intros j Hj. destruct (Hnew j) as [? ?]; [by right|].
      split; [done|]. rewrite elem_of_union, elem_of_singleton.
      intros [->|?]; done.
Qed.

Lemma texts_foldl_emit ts : ∀ ed,
  Editor.texts (foldl emit ed ts) =
  Editor.texts ed ++ ((λ t, t ++ " ")%string <$> List.filter survives ts).
Proof.
  induction ts as [|t ts IH]; intros ed; simpl.
  - by rewrite app_nil_r.
  - rewrite IH. unfold emit. destruct (survives t); [|done].
    unfold insertAtCursor, Editor.texts; simpl.
    rewrite fmap_app. simpl. by rewrite <- app_assoc.
Qed.

End OrderInvariant.

(** C1. For chunks numbered 1..N whose results are submitted in any order
    (each [pendingResults.set] followed by [flushPendingResults]), the texts
    handed to the editor are the surviving texts, each with its trailing
    space, in increasing chunk order. *)
Theorem insertion_order_is_capture_order
    (N : nat) (texts : nat → string) (order : list nat) (ed : Editor.t) :
  order ≡ₚ seq 1 N →
  Sequencer.inserted (submit_all texts (Sequencer.startRecording ed) order) =
  Editor.texts ed ++
  ((λ t, t ++ " ")%string <$> List.filter Sequencer.survives (texts <$> seq 1 N)).
Proof.
  intros Hperm.
  assert (∀ k, k ∈ order ↔ 1 <= k < 1 + N) as Hmem.
  { intros k. rewrite Hperm. apply elem_of_seq. }
  pose proof (sequenced_submit_all texts ed order ∅ (Sequencer.startRecording ed))
    as Hinv.
  rewrite union_empty_r_L in Hinv.
  assert (∀ k, k ∈ (list_to_set order : gset nat) ↔ 1 <= k < 1 + N) as Hset.
  { intros k. by rewrite elem_of_list_to_set. }
  destruct Hinv as [Hpos Hdone Hpend Hed].
  - split; simpl.
    + lia.
    + intros k. rewrite lookup_empty. split.
      * intros Hk. by apply not_elem_of_empty in Hk.
      * intros [?|[? ?]]; [lia|done].
    + intros k t. by rewrite lookup_empty.
    + reflexivity.
  - rewrite Hperm. apply NoDup_seq.
  - intros k Hk. apply Hmem in Hk. split; [lia|apply not_elem_of_empty].
  - set (p := submit_all texts (Sequencer.startRecording ed) order) in *.
    assert (Sequencer.nextInsertChunk p = S N) as Hnext.
    { assert (¬ 1 <= Sequencer.nextInsertChunk p < 1 + N) as Hout.
      { rewrite <- Hset. intros Hin.
        apply Hdone in Hin as [?|[t Ht]]; [lia|].
        apply Hpend in Ht. lia. }
      destruct (decide (Sequencer.nextInsertChunk p <= S N)); [lia|].
      assert (S N ∈ (list_to_set order : gset nat)) as Hin
        by (apply Hdone; left; lia).
      apply Hset in Hin. lia. }
    unfold Sequencer.inserted. rewrite Hed, Hnext. simpl.
    rewrite Nat.sub_0_r. apply texts_foldl_emit.
Qed.

Lemma insertion_order_is_capture_order_witness :
  Sequencer.inserted
    (submit_all (λ k, match k with 1 => "one" | 2 => "[MUSIC]" | _ => "three" end)
       (Sequencer.startRecording Editor.empty) [3; 1; 2])
  = ["one "; "three "].
Proof.
  apply (insertion_order_is_capture_order 3
           (λ k, match k with 1 => "one" | 2 => "[MUSIC]" | _ => "three" end)
           [3; 1; 2] Editor.empty).
  simpl. rewrite (Permutation_swap 1 3 [2]). apply perm_skip, perm_swap.
Defined.

(** ** The content filter *)

Section ContentFilter.
Import Sequencer.

Lemma startsWith_char c text :
  startsWith text (String c "") = true ↔ ∃ s, text = String c s.
Proof.
  unfold startsWith. destruct text as [|a text]; simpl.
  - split; [done|]. by intros [s ?].
  - destruct (Ascii.ascii_dec c a) as [->|Hne].
    + split; [eauto|]. intros _. by destruct text.
    + split; [done|]. intros [s [= -> _]]. done.
Qed.

Lemma substring_last c : ∀ text,
  String.substring (String.length text) 1 (text ++ String c "")%string
  = String c "".
Proof. induction text as [|a text IH]; simpl; [done|exact IH]. Qed.

Lemma length_append_char c : ∀ text,
  String.length (text ++ String c "")%string = S (String.length text).
Proof. induction text as [|a text IH]; simpl; [done|by rewrite IH]. Qed.

Lemma substring_last_inv c : ∀ text,
  1 <= String.length text →
  String.substring (String.length text - 1) 1 text = String c "" →
  ∃ s, text = (s ++ String c "")%string.
Proof.
  induction text as [|a text IH]; simpl; [lia|]. intros _.
  destruct text as [|b text].
  - simpl. intros [= ->]. by exists ""%string.
  - replace (String.length (String b text) - 0)
      with (S (String.length (String b text) - 1)) by (simpl; lia).
    intros Hsub. destruct IH as [s Hs]; [simpl; lia|exact Hsub|].
    exists (String a s). by rewrite Hs.
Qed.

Lemma endsWith_char c text :
  endsWith text (String c "") = true ↔ ∃ s, text = (s ++ String c "")%string.
Proof.
  unfold endsWith.
  change (String.length (String c "")) with 1. split.
  - case_decide as Hlen; [|done]. intros Heq.
    apply String.eqb_eq in Heq. by apply substring_last_inv.
  - intros [s ->]. rewrite length_append_char.
    rewrite decide_True by lia.
    replace (S (String.length s) - 1) with (String.length s) by lia.
    rewrite substring_last. apply String.eqb_refl.
Qed.

Lemma wrapped_iff l r text :
  l ≠ r →
  startsWith text (String l "") && endsWith text (String r "") = true
  ↔ wrapped l r text.
Proof.
  intros Hne. rewrite andb_true_iff, startsWith_char, endsWith_char.
  unfold wrapped. split.
  - intros [[s1 H1] [s2 H2]]. destruct s2 as [|a s2]; simpl in H2.
    + rewrite H1 in H2. by injection H2 as -> _.
    + rewrite H1 in H2. injection H2 as -> ->. eauto.
  - intros [s ->]. split; [eauto|]. by exists (String l s).
Qed.

Lemma survives_false_iff text : survives text = false ↔ non_speech text.
Proof.
  unfold survives, non_speech.
  rewrite !andb_false_iff, !negb_false_iff, !String.eqb_eq.
  rewrite !wrapped_iff by done. rewrite Nat.ltb_ge.
  split.
  - intros [[[[?|?]|?]|?]|?]; auto.
    left. destruct text; simpl in *; [done|lia].
  - intros [?|[?|[?|?]]]; auto.
Qed.

Lemma flush_loop_absent fuel p :
  pendingResults p !! nextInsertChunk p = None → flush_loop fuel p = p.
Proof. intros H. destruct fuel; simpl; [done|by rewrite H]. Qed.

(** Submitting the result the sequencer is waiting for, when the one
    after it has not arrived, pops exactly that text. *)
Lemma submit_expected p ed text :
  targetEditor p = Some ed →
  pendingResults p !! S (nextInsertChunk p) = None →
  submit (nextInsertChunk p) text p =
  set_next (S (nextInsertChunk p))
    (set_pending (delete (nextInsertChunk p) (pendingResults p))
       (set_editor (Some (emit ed text)) p)).
Proof.
  intros Hed Hnone. unfold submit, flushPendingResults.
  set (p1 := set_pending (<[nextInsertChunk p:=text]> (pendingResults p)) p).
  destruct (size (pendingResults p1)) as [|fuel] eqn:Hsz.
  - apply map_size_empty_iff in Hsz. subst p1; simpl in Hsz.
    by apply insert_non_empty in Hsz.
  - simpl. change (nextInsertChunk p1) with (nextInsertChunk p).
    change (pendingResults p1) with (<[nextInsertChunk p:=text]> (pendingResults p)).
    rewrite lookup_insert_eq. rewrite flush_loop_absent.
    + rewrite flush_body_eq. subst p1; simpl.
      rewrite Hed. simpl. by rewrite delete_insert_eq.
    + rewrite flush_body_eq. subst p1; simpl.
      rewrite delete_insert_eq. rewrite lookup_delete_ne by lia. done.
Qed.

End ContentFilter.

(** C5. A popped text is dropped exactly when it is empty, is the filler
    token ["you"], or is wrapped in [[...]] or [(...)]; a surviving text
    is inserted at the cursor with one trailing space and the cursor moves
    right by the inserted length.  In particular [""], ["you"],
    ["[BLANK_AUDIO]"] and ["(silence)"] leave the editor untouched and
    ["hello world"] is inserted as ["hello world "]. *)
Theorem content_filter (p : Sequencer.plugin) (ed : Editor.t) (text : string) :
  Sequencer.targetEditor p = Some ed →
  Sequencer.pendingResults p !! S (Sequencer.nextInsertChunk p) = None →
  let popped_with t := Sequencer.submit (Sequencer.nextInsertChunk p) t p in
  Sequencer.nextInsertChunk (popped_with text) = S (Sequencer.nextInsertChunk p)
  ∧ (Sequencer.survives text = false ↔ non_speech text)
  ∧ (non_speech text → Sequencer.targetEditor (popped_with text) = Some ed)
  ∧ (¬ non_speech text →
     Sequencer.targetEditor (popped_with text) =
     Some {| Editor.cursor :=
               Editor.mkPos (Editor.line (Editor.cursor ed))
                 (Editor.ch (Editor.cursor ed) + (String.length text + 1));
             Editor.replaced :=
               Editor.replaced ed ++ [((text ++ " ")%string, Editor.cursor ed)] |})
  ∧ Forall (λ t, Sequencer.targetEditor (popped_with t) = Some ed)
      [""; "you"; "[BLANK_AUDIO]"; "(silence)"]%string
  ∧ Sequencer.inserted (popped_with "hello world"%string)
    = Editor.texts ed ++ ["hello world "%string].
Proof.
  intros Hed Hnone popped_with.
  assert (∀ t, Sequencer.targetEditor (popped_with t)
               = Some (Sequencer.emit ed t)) as Hemit.
  { intros t. unfold popped_with. by rewrite (submit_expected p ed t). }
  split; [|split; [|split; [|split; [|split]]]].
  - unfold popped_with. by rewrite (submit_expected p ed text).
  - apply survives_false_iff.
  - intros Hdrop. apply survives_false_iff in Hdrop.
    rewrite Hemit. unfold Sequencer.emit. by rewrite Hdrop.
  - intros Hkeep. rewrite <- survives_false_iff in Hkeep.
    rewrite Hemit. unfold Sequencer.emit.
    destruct (Sequencer.survives text); [|done].
    unfold Sequencer.insertAtCursor, Editor.setCursor, Editor.replaceRange,
      Editor.getCursor; simpl.
    rewrite length_append_char. by rewrite Nat.add_1_r.
  - repeat constructor; by rewrite Hemit.
  - unfold Sequencer.inserted. rewrite Hemit.
    unfold Editor.texts, Sequencer.emit; simpl. by rewrite fmap_app.
Qed.

Lemma content_filter_witness :
  Sequencer.inserted
    (Sequencer.submit 1 "hello world" (Sequencer.startRecording Editor.empty))
  = ["hello world "%string].
Proof.
  refine (proj2 (proj2 (proj2 (proj2 (proj2
    (content_filter (Sequencer.startRecording Editor.empty) Editor.empty
       "hello world" _ _)))))); reflexivity.
Defined.

(** ** Invariants of a recording session *)

Section Session.
Import Sequencer.

Lemma session_inv_start ed : session_inv (startRecording ed).
Proof.
  split; simpl.
  - intros k [? Hk]. by rewrite lookup_empty in Hk.
  - intros k Hk. by apply not_elem_of_empty in Hk.
  - intros c [= <-]. lia.
  - lia.
Qed.

Lemma session_inv_recordChunk p :
  session_inv p → liveRecorder p = None → session_inv (recordChunk p).
Proof.
  intros [Hpend Hfl Hlive Hnext] Hnone. unfold recordChunk.
  destruct (negb (isRecording p) || negb (mediaStream p)); [by split|].
  split; simpl.
  - intros k Hk. destruct (Hpend k Hk) as (? & ? & ?).
    repeat split; try done; try lia. intros [= ?]. lia.
  - intros k Hk. destruct (Hfl k Hk) as (? & ?).
    repeat split; try done; try lia. intros [= ?]. lia.
  - intros c [= <-]. lia.
  - lia.
Qed.

Lemma session_inv_onstop p c hasAudio :
  session_inv p → liveRecorder p = Some c →
  session_inv (onstop c hasAudio p).
Proof.
  intros [Hpend Hfl Hlive Hnext] Hc. destruct (Hlive c Hc) as [-> Hle].
  unfold onstop.
  set (p0 := set_recorder (isRecording p) (isStopping p) (mediaStream p) None p).
  set (p1 := if hasAudio then transcribeAudio_begin (chunkNumber p) p0 else p0).
  assert (session_inv p1 ∧ liveRecorder p1 = None) as [Hinv1 Hnone1].
  { assert (session_inv p0) as Hinv0.
    { split; simpl; [| |done|done].
      - intros k Hk. destruct (Hpend k Hk) as (? & ? & ?). done.
      - intros k Hk. destruct (Hfl k Hk) as (? & ?). done. }
    subst p1. destruct hasAudio; [|done].
    unfold transcribeAudio_begin.
    destruct (negb (transcriber p0)); [done|].
    destruct (targetEditor p0); [|done].
    split; [|done]. subst p0. split; simpl; [| |done|done].
    - intros k Hk. destruct (Hpend k Hk) as (? & ? & Hlk).
      split; [done|]. split; [|done].
      rewrite elem_of_union, elem_of_singleton.
      intros [->|?]; [|done]. by rewrite Hc in Hlk.
    - intros k. rewrite elem_of_union, elem_of_singleton.
      intros [->|Hk]; [done|]. by destruct (Hfl k Hk). }
  destruct (isStopping p1).
  - destruct Hinv1 as [Hpend1 Hfl1 Hlive1 Hnext1].
    split; simpl; [| |done|done].
    + intros k Hk. destruct (Hpend1 k Hk) as (? & ? & ?). done.
    + intros k Hk. destruct (Hfl1 k Hk) as (? & ?). done.
  - destruct (isRecording p1 && mediaStream p1); [|done].
    by apply session_inv_recordChunk.
Qed.

Lemma session_inv_resolved p k text :
  session_inv p → k ∈ inflight p →
  session_inv (transcribeAudio_resolved k text p).
Proof.
  intros [Hpend Hfl Hlive Hnext] Hk. destruct (Hfl k Hk) as [Hkr Hklive].
  unfold transcribeAudio_resolved, submit.
  set (p1 := set_pending (<[k:=text]> (pendingResults p)) p).
  destruct (flushPendingResults_popped p1)
    as (m & ts & (Heq & Hall & Hlk) & Hnone).
  set (p' := flushPendingResults p1) in *.
  change (nextInsertChunk p1) with (nextInsertChunk p) in Heq, Hall, Hlk.
  assert (nextInsertChunk p' = nextInsertChunk p + m) as Hn'
    by (rewrite Heq; reflexivity).
  assert (chunkNumber p' = chunkNumber p) as Hc' by (rewrite Heq; reflexivity).
  assert (liveRecorder p' = liveRecorder p) as Hl' by (rewrite Heq; reflexivity).
  assert (inflight p' = inflight p) as Hf' by (rewrite Heq; reflexivity).
  assert (∀ j, is_Some (pendingResults p1 !! j) →
               j = k ∨ is_Some (pendingResults p !! j)) as Hp1.
  { intros j. subst p1; simpl. rewrite lookup_insert.
    case_decide; auto. }
  assert (∀ j, nextInsertChunk p <= j < nextInsertChunk p + m →
               is_Some (pendingResults p1 !! j)) as Hrange.
  { intros j Hj.
    destruct (Forall2_lookup_l _ _ _ (j - nextInsertChunk p) j Hall)
      as (t & _ & Ht); [|by exists t].
    apply lookup_seq. lia. }
  assert (∀ j, nextInsertChunk p <= j → ¬ is_Some (pendingResults p1 !! j) →
               nextInsertChunk p + m <= j) as Hskip.
  { intros j Hj Hno. destruct (decide (nextInsertChunk p + m <= j)); [done|].
    exfalso. apply Hno, Hrange. lia. }
  assert (∀ j, is_Some (pendingResults p' !! j) →
               is_Some (pendingResults p1 !! j) ∧ nextInsertChunk p + m <= j)
    as Hleft.
  { intros j. rewrite Hlk. case_decide as Hin; [by intros [? ?]|].
    intros Hj. split; [done|].
    destruct (Hp1 j Hj) as [->|Hold]; [lia|].
    destruct (Hpend j Hold) as (? & _). lia. }
  split; simpl; rewrite ?Hn', ?Hc', ?Hl', ?Hf'.
  - intros j Hj. destruct (Hleft j Hj) as [Hj1 Hge].
    rewrite elem_of_difference, elem_of_singleton.
    destruct (Hp1 j Hj1) as [->|Hold].
    + repeat split; try done; try lia; tauto.
    + destruct (Hpend j Hold) as (? & ? & ?).
      repeat split; try done; try lia; tauto.
  - intros j. rewrite elem_of_difference, elem_of_singleton.
    intros [Hj Hjk]. destruct (Hfl j Hj) as [? ?].
    repeat split; try done; try lia.
    apply Hskip; [lia|]. intros Hs.
    destruct (Hp1 j Hs) as [?|Hold]; [done|].
    by destruct (Hpend j Hold) as (_ & ? & _).
  - intros c Hc. destruct (Hlive c Hc) as [-> ?]. split; [done|].
    apply Hskip; [done|]. intros Hs.
    destruct (Hp1 _ Hs) as [Heqk|Hold]; [by rewrite <- Heqk in Hklive|].
    by destruct (Hpend _ Hold) as (_ & _ & ?).
  - destruct m as [|m]; [lia|].
    destruct (Hp1 (nextInsertChunk p + m)) as [Heqk|Hold];
      [apply Hrange; lia|lia|].
    destruct (Hpend _ Hold). lia.
Qed.

Lemma session_inv_step p e : session_inv p → session_inv (step p e).
Proof.
  intros Hinv. destruct e as [hasAudio| | |k text|k]; simpl.
  - destruct (liveRecorder p) eqn:Hl; [|done]. by apply session_inv_onstop.
  - unfold stopRecording. destruct (negb (isRecording p)); [done|].
    destruct Hinv as [Hpend Hfl Hlive Hnext]. by split.
  - destruct Hinv as [Hpend Hfl Hlive Hnext]. by split.
  - case_decide; [|done]. by apply session_inv_resolved.
  - case_decide; [|done]. destruct Hinv as [Hpend Hfl Hlive Hnext].
    unfold transcribeAudio_rejected. split; simpl; [| |done|done].
    + intros j Hj. destruct (Hpend j Hj) as (? & ? & ?).
      split; [done|]. split; [|done]. rewrite elem_of_difference. tauto.
    + intros j. rewrite elem_of_difference. intros [Hj _]. by apply Hfl.
Qed.

Lemma session_inv_run evs : ∀ p, session_inv p → session_inv (run p evs).
Proof.
  induction evs as [|e evs IH]; intros p Hinv; simpl; [done|].
  by apply IH, session_inv_step.
Qed.



End Session.


(** ** A failed transcription *)

Section HeadOfLine.
Import Sequencer.

Lemma blocked_recordChunk n p :
  blocked n p → liveRecorder p = None → blocked n (recordChunk p).
Proof.
  intros [Hn Habs Hfl Hlive Hrec] Hnone. unfold recordChunk.
  destruct (negb (isRecording p) || negb (mediaStream p)); [by split|].
  split; simpl; try done; [|lia]. intros c [= <-]. lia.
Qed.

Lemma blocked_step n p e :
  blocked n p →
  blocked n (step p e) ∧ targetEditor (step p e) = targetEditor p.
Proof.
  intros Hb. destruct e as [hasAudio| | |k text|k]; simpl.
  - destruct (liveRecorder p) as [c|] eqn:Hl; [|done]. unfold onstop.
    set (p0 := set_recorder (isRecording p) (isStopping p) (mediaStream p) None p).
    set (p1 := if hasAudio then transcribeAudio_begin c p0 else p0).
    assert (blocked n p1 ∧ liveRecorder p1 = None
            ∧ targetEditor p1 = targetEditor p) as (Hb1 & Hnone1 & Hed1).
    { destruct Hb as [Hn Habs Hfl Hlive Hrec].
      assert (blocked n p0) as Hb0 by (by split).
      subst p1. destruct hasAudio; [|done]. unfold transcribeAudio_begin.
      destruct (negb (transcriber p0)); [done|].
      destruct (targetEditor p0) eqn:Hed0; [|done].
      subst p0. split; [|done]. split; simpl; try done.
      rewrite elem_of_union, elem_of_singleton. intros [->|?]; [|done].
      specialize (Hlive _ Hl). lia. }
    destruct (isStopping p1).
    + split; [|done]. destruct Hb1 as [Hn Habs Hfl Hlive Hrec]. by split.
    + destruct (isRecording p1 && mediaStream p1); [|done]. split.
      * by apply blocked_recordChunk.
      * rewrite <- Hed1. unfold recordChunk.
        by destruct (negb (isRecording p1) || negb (mediaStream p1)).
  - unfold stopRecording. destruct (negb (isRecording p)); [done|].
    split; [|done]. destruct Hb as [Hn Habs Hfl Hlive Hrec]. by split.
  - split; [|done]. destruct Hb as [Hn Habs Hfl Hlive Hrec]. by split.
  - case_decide as Hk; [|done]. destruct Hb as [Hn Habs Hfl Hlive Hrec].
    assert (k ≠ n) as Hne by (intros ->; done).
    unfold transcribeAudio_resolved, submit, flushPendingResults.
    rewrite flush_loop_absent
      by (simpl; rewrite Hn, lookup_insert_ne by done; done).
    simpl. split; [|done]. split; simpl; try done.
    + by rewrite lookup_insert_ne.
    + rewrite elem_of_difference. tauto.
  - case_decide as Hk; [|done]. destruct Hb as [Hn Habs Hfl Hlive Hrec].
    unfold transcribeAudio_rejected. split; [|done]. split; simpl; try done.
    rewrite elem_of_difference. tauto.
Qed.

Lemma blocked_run n evs : ∀ p,
  blocked n p →
  blocked n (run p evs) ∧ targetEditor (run p evs) = targetEditor p.
Proof.
  induction evs as [|e evs IH]; intros p Hb; simpl; [done|].
  destruct (blocked_step n p e Hb) as [Hb' Hed'].
  destruct (IH _ Hb') as [Hb'' Hed'']. split; [done|congruence].
Qed.

End HeadOfLine.

(** C2 (the code departs from it). When the transcription of chunk 2
    throws, the [catch] block of [transcribeAudio] submits nothing for it:
    chunk 1 is inserted, chunk 3 stays in [pendingResults], and whatever
    happens later in the session, [nextInsertChunk] stays at 2 and nothing
    more is inserted. *)
Theorem failed_chunk_blocks_later_chunks (later : list Sequencer.event) :
  let p := Sequencer.run (Sequencer.startRecording Editor.empty) chunk2_fails in
  let p' := Sequencer.run p later in
  Sequencer.pendingResults p !! 3 = Some "three"%string
  ∧ Sequencer.nextInsertChunk p' = 2
  ∧ Sequencer.inserted p' = ["one "%string].
Proof.
  intros p p'.
  assert (blocked 2 p) as Hb.
  { split.
    - by vm_compute.
    - by vm_compute.
    - intros Hin. apply elem_of_elements in Hin. vm_compute in Hin.
      by apply elem_of_nil in Hin.
    - intros c. vm_compute. intros [= <-]. lia.
    - vm_compute. lia. }
  destruct (blocked_run 2 later p Hb) as [[Hn _ _ _ _] Hed].
  split; [by vm_compute|]. split; [exact Hn|].
  unfold Sequencer.inserted. subst p'. rewrite Hed. by vm_compute.
Qed.

(** ** Single-flight model loading *)

Section SingleFlight.
Import Loader.

Local Ltac settle :=
  first [ left; split; reflexivity
        | right; eexists; repeat split; reflexivity ].

Lemma single_flight_step p e : single_flight p → single_flight (step p e).
Proof.
  destruct p as [t f l n r]. unfold single_flight; simpl.
  intros [[-> ->]|(c & -> & -> & ->)]; destruct e as [c'|c'|c'| |]; simpl;
    unfold loadModel_begin, loadModel_loaded, loadModel_failed; simpl;
    try settle; try (destruct t; simpl; settle);
    try (case_bool_decide as Hin; simpl; try settle;
         apply list_elem_of_singleton in Hin as ->;
         rewrite Nat.eqb_refl; simpl; settle).
Qed.

Lemma single_flight_run evs : ∀ p, single_flight p → single_flight (run p evs).
Proof.
  induction evs as [|e evs IH]; intros p Hp; simpl; [done|].
  by apply IH, single_flight_step.
Qed.

End SingleFlight.

(** C3, as stated, fails: a caller that arrives during a load is answered
    [false] at once, although the load in flight then succeeds. *)
Lemma second_caller_does_not_observe_first : ¬ second_caller_observes_first.
Proof.
  intros H.
  specialize (H [Loader.Call 1] 1 2 [Loader.Loaded 1] true).
  simpl in H. discriminate H; [reflexivity|lia|reflexivity].
Qed.

(** C3, amended. At most one download/load sequence is in flight in every
    reachable state; a [loadModel] call that arrives while one is in
    flight starts no second one and returns [false] at once, without
    waiting for the attempt in flight. *)
Theorem model_load_single_flight (evs : list Loader.event) (caller : nat) :
  let p := Loader.run Loader.initial evs in
  let p' := Loader.step p (Loader.Call caller) in
  length (Loader.loading p) <= 1
  ∧ (Loader.loading p ≠ [] →
     Loader.loading p' = Loader.loading p
     ∧ Loader.started p' = Loader.started p
     ∧ Loader.returned p' = Loader.returned p ++ [(caller, false)]).
Proof.
  intros p p'.
  assert (single_flight p) as [[Hl Hf]|(c & Hl & Hf & Ht)]
    by (apply single_flight_run; by left).
  - rewrite Hl. split; [simpl; lia|done].
  - rewrite Hl. split; [simpl; lia|]. intros _. subst p'. simpl.
    unfold Loader.loadModel_begin. by rewrite Ht, Hf.
Qed.

Lemma model_load_single_flight_witness :
  let p := Loader.run Loader.initial [Loader.Call 1] in
  let p' := Loader.step p (Loader.Call 2) in
  Loader.loading p' = [1] ∧ Loader.started p' = 1
  ∧ Loader.returned p' = [(2, false)].
Proof.
  refine (proj2 (model_load_single_flight [Loader.Call 1] 2) _). discriminate.
Defined.

(** ** Resampling *)

Section Resampling.
Import Resample.
Local Open Scope Q_scope.

Lemma ratio_pos (a b : Q) : 0 < a → 0 < b → 0 < a / b.
Proof.
  intros Ha Hb. apply Qmult_lt_0_compat; [done|by apply Qinv_lt_0_compat].
Qed.

Lemma of_nat_nonneg n : 0 <= Num.of_nat n.
Proof.
  unfold Num.of_nat. change 0 with (inject_Z 0). rewrite <- Zle_Qle. lia.
Qed.

Lemma round_nonneg x : 0 <= x → (0 <= Num.round x)%Z.
Proof.
  intros Hx. unfold Num.round.
  change 0%Z with (Qfloor 0). apply Qfloor_resp_le. lra.
Qed.

Lemma floor_nonneg x : 0 <= x → (0 <= Num.floor x)%Z.
Proof.
  intros Hx. unfold Num.floor. change 0%Z with (Qfloor 0).
  by apply Qfloor_resp_le.
Qed.

Lemma lookup_fmap_seq {A} (f : nat → A) (n i : nat) :
  (i < n)%nat → (f <$> seq 0 n) !! i = Some (f i).
Proof. intros Hi. by rewrite list_lookup_fmap, lookup_seq_lt. Qed.

Lemma at_index_nonneg (audioData : list Q) (index : Z) :
  (0 <= index)%Z → at_index audioData index = audioData !! Z.to_nat index.
Proof.
  intros Hi. unfold at_index. destruct (index <? 0)%Z eqn:E; [lia|done].
Qed.

(** Every index the loop reads lies inside the source array. *)
Lemma index_in_bounds (L i : nat) (ratio : Q) :
  0 < ratio →
  (Z.of_nat i < Num.round (Num.of_nat L / ratio))%Z →
  (0 <= Num.floor (Num.of_nat i * ratio) < Z.of_nat L)%Z.
Proof.
  intros Hr Hi. split.
  - apply floor_nonneg. apply Qmult_le_0_compat; [apply of_nat_nonneg|lra].
  - unfold Num.round in Hi.
    set (x := Num.of_nat L / ratio) in *.
    assert (x * ratio == Num.of_nat L) as Hx.
    { unfold x. field. lra. }
    assert (Num.of_nat i + 1 <= x + (1 # 2)) as Hle.
    { eapply Qle_trans; [|apply Qfloor_le].
      unfold Num.of_nat.
      change 1 with (inject_Z 1). rewrite <- inject_Z_plus, <- Zle_Qle. lia. }
    assert (Num.of_nat i * ratio < Num.of_nat L) as Hlt by nra.
    rewrite Zlt_Qlt. eapply Qle_lt_trans; [apply Qfloor_le|exact Hlt].
Qed.

Lemma resampleAudio_spec (audioData : list Q) (fromSampleRate toSampleRate : Q) :
  0 < fromSampleRate → 0 < toSampleRate →
  let ratio := fromSampleRate / toSampleRate in
  let newLength := Num.round (Num.of_nat (length audioData) / ratio) in
  (0 <= newLength)%Z
  ∧ newLength =
    Num.round (Num.of_nat (length audioData) * toSampleRate / fromSampleRate)
  ∧ resampleAudio audioData fromSampleRate toSampleRate =
    Some ((λ i, at_index audioData (Num.floor (Num.of_nat i * ratio)))
            <$> seq 0 (Z.to_nat newLength)).
Proof.
  intros Hf Ht ratio newLength.
  assert (0 < ratio) as Hr by (by apply ratio_pos).
  assert (0 <= newLength)%Z as Hn.
  { apply round_nonneg. apply Qmult_le_0_compat; [apply of_nat_nonneg|].
    apply Qlt_le_weak. by apply Qinv_lt_0_compat. }
  split; [done|]. split.
  - unfold newLength, Num.round. apply Qfloor_comp.
    unfold ratio. field. split; lra.
  - unfold resampleAudio. fold ratio. fold newLength.
    destruct (newLength <? 0)%Z eqn:E; [lia|done].
Qed.

Lemma ceiling_floor (p : Q) :
  Qceiling p = Qfloor p ∨ (Qceiling p = (Qfloor p + 1)%Z ∧ inject_Z (Qfloor p) < p).
Proof.
  pose proof (Qfloor_le p) as Hf. pose proof (Qlt_floor p) as Hf'.
  pose proof (Qle_ceiling p) as Hc. pose proof (Qceiling_lt p) as Hc'.
  destruct (Qlt_le_dec (inject_Z (Qfloor p)) p) as [Hlt|Hle].
  - right. split; [|done].
    assert (Qfloor p < Qceiling p)%Z by (rewrite Zlt_Qlt; lra).
    assert (Qceiling p - 1 < Qfloor p + 1)%Z by (rewrite Zlt_Qlt; lra).
    lia.
  - left.
    assert (Qceiling p - 1 < Qfloor p)%Z by (rewrite Zlt_Qlt; lra).
    assert (Qfloor p <= Qceiling p)%Z by (rewrite Zle_Qle; lra).
    lia.
Qed.

Lemma linear_blend_defined (audioData : list Q) (p : Q) :
  (0 <= Qfloor p)%Z → (Qceiling p < Z.of_nat (length audioData))%Z →
  ∃ a c,
    audioData !! Z.to_nat (Qfloor p) = Some a
    ∧ audioData !! Z.to_nat (Qceiling p) = Some c
    ∧ linear_blend audioData p
      = Some (a * (1 - (p - inject_Z (Qfloor p)))
              + c * (p - inject_Z (Qfloor p))).
Proof.
  intros Hfl Hceil.
  assert (Qfloor p <= Qceiling p)%Z as Hfc.
  { rewrite Zle_Qle. apply Qle_floor_ceiling. }
  destruct (lookup_lt_is_Some_2 audioData (Z.to_nat (Qfloor p))) as [a Ha];
    [lia|].
  destruct (lookup_lt_is_Some_2 audioData (Z.to_nat (Qceiling p))) as [c Hc];
    [lia|].
  exists a, c. split; [done|]. split; [done|].
  unfold linear_blend. rewrite !at_index_nonneg by lia.
  by rewrite Ha, Hc.
Qed.

(** The earlier revision does blend: where the sample at [ceil p] exists,
    its output is the blend the specification describes. *)
Lemma resampleAudio_linear_blend (audioData : list Q) (srcRate : Q) :
  0 < srcRate →
  ∃ result,
    ResampleLinear.resampleAudio audioData srcRate 16000 = Some result
    ∧ length result =
      Z.to_nat (Num.round (Num.of_nat (length audioData) * 16000 / srcRate))
    ∧ ∀ i, (i < length result)%nat →
        let p := Num.of_nat i * (srcRate / 16000) in
        (Qceiling p < Z.of_nat (length audioData))%Z →
        ∃ x y, result !! i = Some (Some x)
               ∧ linear_blend audioData p = Some y ∧ x == y.
Proof.
  intros Hf.
  destruct (resampleAudio_spec audioData srcRate 16000 Hf eq_refl)
    as (Hn & Hlen & _).
  unfold ResampleLinear.resampleAudio.
  set (ratio := srcRate / 16000) in *.
  set (newLength := Num.round (Num.of_nat (length audioData) / ratio)) in *.
  destruct (newLength <? 0)%Z eqn:E; [lia|].
  eexists. split; [reflexivity|]. split.
  - by rewrite length_fmap, length_seq, Hlen.
  - rewrite length_fmap, length_seq. intros i Hi. cbv zeta. intros Hceil.
    rewrite lookup_fmap_seq by lia. cbv zeta.
    set (p := Num.of_nat i * ratio) in *.
    assert (0 <= Num.floor p < Z.of_nat (length audioData))%Z as Hb.
    { apply index_in_bounds; [by apply ratio_pos|]. fold newLength. lia. }
    unfold Num.floor in *.
    destruct (linear_blend_defined audioData p) as (a & c & Ha & Hc & ->);
      [lia|done|].
    rewrite !at_index_nonneg by lia. rewrite Ha. cbn [mbind option_bind].
    destruct (ceiling_floor p) as [Hcf|[Hcf Hlt]].
    + (* [p] is an integer: the second sample has weight 0 *)
      assert (p - inject_Z (Qfloor p) == 0) as Hp.
      { pose proof (Qfloor_le p). pose proof (Qle_ceiling p).
        rewrite Hcf in *. lra. }
      destruct (lookup_lt_is_Some_2 audioData
                  (Z.to_nat (Z.min (Qfloor p + 1)
                               (Z.of_nat (length audioData) - 1))))
        as [b Hb']; [lia|].
      rewrite Hb'. cbn [mbind option_bind].
      eexists _, _. split; [reflexivity|]. split; [reflexivity|].
      rewrite Hp. ring.
    + rewrite Z.min_l by lia. rewrite <- Hcf, Hc. cbn [mbind option_bind].
      eexists _, _. split; [reflexivity|]. split; reflexivity.
Qed.

End Resampling.






(** ** WAV layout *)

Section BufferLemmas.
Import Buffer.

Lemma length_store bytes : ∀ offset buf,
  length (store bytes offset buf) = length buf.
Proof.
  induction bytes as [|b bytes IH]; intros offset buf; simpl; [done|].
  by rewrite IH, length_insert.
Qed.

Lemma lookup_store bytes : ∀ offset buf i,
  store bytes offset buf !! i =
  if decide ((offset <= i < offset + length bytes) ∧ i < length buf)
  then bytes !! (i - offset) else buf !! i.
Proof.
  induction bytes as [|b bytes IH]; intros offset buf i; simpl.
  - case_decide; [lia|done].
  - rewrite IH, length_insert.
    destruct (decide (i = offset)) as [->|Hne].
    + rewrite decide_False by lia. case_decide as Hin.
      * rewrite Nat.sub_diag. simpl. apply list_lookup_insert_eq. lia.
      * rewrite list_insert_ge by lia. done.
    + rewrite list_lookup_insert_ne by done.
      repeat case_decide; try lia; try done.
      replace (i - offset) with (S (i - S offset)) by lia. done.
Qed.

Lemma lookup_bytes_at offset n buf j :
  bytes_at offset n buf !! j =
  if decide (j < n) then buf !! (offset + j) else None.
Proof.
  unfold bytes_at. case_decide.
  - by rewrite lookup_take_lt, lookup_drop.
  - apply lookup_take_ge. lia.
Qed.

Lemma bytes_at_store_disjoint bytes offset' offset n buf :
  offset + n <= offset' ∨ offset' + length bytes <= offset →
  bytes_at offset n (store bytes offset' buf) = bytes_at offset n buf.
Proof.
  intros Hd. apply list_eq. intros j. rewrite !lookup_bytes_at.
  case_decide; [|done]. rewrite lookup_store. case_decide; [lia|done].
Qed.

Lemma bytes_at_store_inside bytes offset' offset n buf :
  offset' <= offset → offset + n <= offset' + length bytes →
  offset' + length bytes <= length buf →
  bytes_at offset n (store bytes offset' buf)
  = bytes_at (offset - offset') n bytes.
Proof.
  intros H1 H2 H3. apply list_eq. intros j. rewrite !lookup_bytes_at.
  case_decide; [|done]. rewrite lookup_store. rewrite decide_True by lia.
  f_equal. lia.
Qed.

Lemma bytes_at_all n buf : n = length buf → bytes_at 0 n buf = buf.
Proof. intros ->. unfold bytes_at. by rewrite drop_0, firstn_all. Qed.

Lemma store_app bytes1 : ∀ bytes2 offset buf,
  store (bytes1 ++ bytes2) offset buf
  = store bytes2 (offset + length bytes1) (store bytes1 offset buf).
Proof.
  induction bytes1 as [|b bytes1 IH]; intros bytes2 offset buf; simpl.
  - by rewrite Nat.add_0_r.
  - rewrite IH. f_equal. lia.
Qed.

Lemma length_le_bytes width value : length (le_bytes width value) = width.
Proof. unfold le_bytes. by rewrite length_fmap, length_seq. Qed.

Lemma byte_of (v k : Z) :
  (0 <= k)%Z → Z.land (Z.shiftr v k) 255 = ((v / 2 ^ k) mod 256)%Z.
Proof.
  intros Hk. rewrite Z.shiftr_div_pow2 by done.
  change 255%Z with (Z.ones 8). by rewrite Z.land_ones.
Qed.

Lemma le_value_4 v :
  (0 <= v <= 4294967295)%Z → le_value (le_bytes 4 v) = v.
Proof.
  intros Hv. unfold le_bytes, le_value. cbn [fmap list_fmap seq foldr].
  rewrite !byte_of by lia.
  change (2 ^ (8 * Z.of_nat 0))%Z with 1%Z.
  change (2 ^ (8 * Z.of_nat 1))%Z with 256%Z.
  change (2 ^ (8 * Z.of_nat 2))%Z with 65536%Z.
  change (2 ^ (8 * Z.of_nat 3))%Z with 16777216%Z.
  Z.div_mod_to_equations. lia.
Qed.

Lemma le_value_2 v :
  (-32768 <= v <= 65535)%Z → le_value (le_bytes 2 v) = (v mod 65536)%Z.
Proof.
  intros Hv. unfold le_bytes, le_value. cbn [fmap list_fmap seq foldr].
  rewrite !byte_of by lia.
  change (2 ^ (8 * Z.of_nat 0))%Z with 1%Z.
  change (2 ^ (8 * Z.of_nat 1))%Z with 256%Z.
  Z.div_mod_to_equations. lia.
Qed.

Lemma write_int_Some width lo hi value offset buf :
  (lo <= value <= hi)%Z → offset + width <= length buf →
  write_int width lo hi value offset buf
  = Some (store (le_bytes width value) offset buf).
Proof. intros Hv Ho. unfold write_int. by rewrite decide_True. Qed.

(** Reading back an unsigned field that was the last one written there. *)
Lemma read_uint_store width value offset buf :
  offset + width <= length buf →
  read_uint width offset (store (le_bytes width value) offset buf)
  = Some (le_value (le_bytes width value)).
Proof.
  intros Ho. unfold read_uint. rewrite length_store, decide_True by done.
  rewrite bytes_at_store_inside
    by (rewrite ?length_le_bytes; lia).
  rewrite Nat.sub_diag, bytes_at_all; [done|by rewrite length_le_bytes].
Qed.

Lemma read_uint_store_disjoint width bytes offset' offset buf :
  offset + width <= offset' ∨ offset' + length bytes <= offset →
  read_uint width offset (store bytes offset' buf)
  = read_uint width offset buf.
Proof.
  intros Hd. unfold read_uint. rewrite length_store.
  case_decide; [|done]. by rewrite bytes_at_store_disjoint.
Qed.

Lemma toString_store_disjoint bytes offset' start stop buf :
  start <= stop →
  stop <= offset' ∨ offset' + length bytes <= start →
  toString start stop (store bytes offset' buf) = toString start stop buf.
Proof.
  intros Hle Hd. unfold toString.
  rewrite bytes_at_store_disjoint; [done|lia].
Qed.

End BufferLemmas.

Section WavEncoding.
Import Buffer Wav.
Local Open Scope Q_scope.

Lemma max_min_clamp x : Num.max (-1) (Num.min 1 x) == clamp x.
Proof.
  unfold Num.max, Num.min, clamp.
  destruct (Qle_bool 1 x) eqn:E1.
  - apply Qle_bool_iff in E1. simpl.
    destruct (Qlt_le_dec x (-1)); [lra|].
    destruct (Qlt_le_dec 1 x); lra.
  - assert (¬ 1 <= x) as H1 by (rewrite <- Qle_bool_iff; congruence).
    destruct (Qle_bool (-1) x) eqn:E2.
    + apply Qle_bool_iff in E2.
      destruct (Qlt_le_dec x (-1)); [lra|].
      destruct (Qlt_le_dec 1 x); lra.
    + assert (¬ -1 <= x) as H2 by (rewrite <- Qle_bool_iff; congruence).
      destruct (Qlt_le_dec x (-1)); [reflexivity|lra].
Qed.

Lemma clamp_range x : -1 <= clamp x <= 1.
Proof.
  unfold clamp. destruct (Qlt_le_dec x (-1)); [lra|].
  destruct (Qlt_le_dec 1 x); lra.
Qed.

Lemma intSample_clamp x : intSample x = Num.round (clamp x * 32767).
Proof.
  unfold intSample, Num.round. apply Qfloor_comp.
  by rewrite max_min_clamp.
Qed.

Lemma intSample_range x : (-32767 <= intSample x <= 32767)%Z.
Proof.
  rewrite intSample_clamp. unfold Num.round.
  pose proof (clamp_range x) as [Hlo Hhi]. split.
  - apply Z.le_trans with (Qfloor (-32767 + (1 # 2))); [done|].
    apply Qfloor_resp_le. lra.
  - apply Z.le_trans with (Qfloor (32767 + (1 # 2))); [|done].
    apply Qfloor_resp_le. lra.
Qed.

Lemma length_data_bytes audioData :
  length (data_bytes audioData) = (length audioData * 2)%nat.
Proof.
  unfold data_bytes. induction audioData as [|x audioData IH]; [done|].
  rewrite bind_cons, length_app, length_le_bytes, IH. simpl. lia.
Qed.

Lemma bytes_at_data_bytes audioData : ∀ i x,
  audioData !! i = Some x →
  bytes_at (i * 2) 2 (data_bytes audioData) = le_bytes 2 (intSample x).
Proof.
  unfold data_bytes, bytes_at.
  induction audioData as [|y audioData IH]; intros i x Hx; [done|].
  rewrite bind_cons. destruct i as [|i]; simpl in Hx.
  - injection Hx as ->. rewrite drop_0.
    by rewrite take_app_length' by (by rewrite length_le_bytes).
  - rewrite drop_app_ge by (rewrite length_le_bytes; lia).
    rewrite length_le_bytes.
    replace (S i * 2 - 2)%nat with (i * 2)%nat by lia. by apply IH.
Qed.

Lemma write_samples_store audioData : ∀ i buffer,
  (44 + (i + length audioData) * 2 <= length buffer)%nat →
  write_samples audioData i buffer
  = Some (store (data_bytes audioData) (44 + i * 2) buffer).
Proof.
  induction audioData as [|x audioData IH]; intros i buffer Hlen; [done|].
  rewrite length_cons in Hlen. cbn [write_samples]. unfold writeInt16LE.
  rewrite write_int_Some by (pose proof (intSample_range x); lia).
  cbn [mbind option_bind]. rewrite IH by (rewrite length_store; lia).
  unfold data_bytes. rewrite bind_cons, store_app, length_le_bytes.
  do 2 f_equal. lia.
Qed.

Local Ltac buf_len :=
  unfold write, alloc; rewrite ?length_store, ?length_replicate; lia.

Lemma length_wav_bytes audioData :
  length (wav_bytes audioData) = (44 + length audioData * 2)%nat.
Proof. unfold wav_bytes. cbv zeta. buf_len. Qed.

(** No write throws as long as the RIFF size fits its 32-bit field. *)
Lemma wav_buffer_16000 audioData :
  (Z.of_nat (44 + length audioData * 2) - 8 <= 4294967295)%Z →
  wav_buffer audioData 16000 = Some (wav_bytes audioData).
Proof.
  intros Hsize. unfold wav_buffer, wav_bytes. cbv zeta.
  change (16000 * 1 * 16 / 8)%Z with 32000%Z.
  change (1 * 16 / 8)%Z with 2%Z.
  unfold writeUInt32LE, writeUInt16LE.
  repeat (rewrite write_int_Some by first [lia | buf_len];
          cbn [mbind option_bind]).
  rewrite write_samples_store by buf_len. reflexivity.
Qed.

Local Ltac skip_later_writes :=
  unfold wav_bytes, write; cbv zeta;
  repeat (rewrite read_uint_store_disjoint
            by (rewrite ?length_le_bytes, ?length_data_bytes; simpl; lia)).

Local Ltac read_field :=
  unfold readUInt32LE, readUInt16LE; skip_later_writes;
  rewrite read_uint_store by buf_len.

Local Ltac read_tag :=
  unfold wav_bytes, write; cbv zeta;
  repeat (rewrite toString_store_disjoint
            by (rewrite ?length_le_bytes, ?length_data_bytes; simpl; lia));
  unfold toString;
  rewrite bytes_at_store_inside by (simpl; buf_len);
  reflexivity.

Lemma wav_header audioData :
  (Z.of_nat (44 + length audioData * 2) - 8 <= 4294967295)%Z →
  let buffer := wav_bytes audioData in
  let N := Z.of_nat (length audioData) in
  toString 0 4 buffer = "RIFF"%string
  ∧ readUInt32LE 4 buffer = Some (44 + 2 * N - 8)%Z
  ∧ toString 8 12 buffer = "WAVE"%string
  ∧ toString 12 16 buffer = "fmt "%string
  ∧ readUInt32LE 16 buffer = Some 16%Z
  ∧ readUInt16LE 20 buffer = Some 1%Z
  ∧ readUInt16LE 22 buffer = Some 1%Z
  ∧ readUInt32LE 24 buffer = Some 16000%Z
  ∧ readUInt32LE 28 buffer = Some (16000 * 2)%Z
  ∧ readUInt16LE 32 buffer = Some 2%Z
  ∧ readUInt16LE 34 buffer = Some 16%Z
  ∧ toString 36 40 buffer = "data"%string
  ∧ readUInt32LE 40 buffer = Some (2 * N)%Z.
Proof.
  intros Hsize buffer N. subst buffer N.
  repeat split; try read_tag; read_field;
    try reflexivity; rewrite le_value_4 by lia; f_equal; lia.
Qed.

Lemma wav_sample audioData i x :
  audioData !! i = Some x →
  readInt16LE (44 + i * 2) (wav_bytes audioData)
  = Some (Num.round (clamp x * 32767)).
Proof.
  intros Hx. pose proof (lookup_lt_Some _ _ _ Hx) as Hi.
  pose proof (intSample_range x) as Hr.
  unfold readInt16LE, read_uint.
  rewrite length_wav_bytes, decide_True by lia.
  unfold wav_bytes. cbv zeta.
  rewrite bytes_at_store_inside
    by first [lia | rewrite length_data_bytes; first [lia | buf_len]].
  replace (44 + i * 2 - 44)%nat with (i * 2)%nat by lia.
  rewrite (bytes_at_data_bytes _ _ _ Hx), le_value_2 by lia.
  rewrite <- intSample_clamp. cbn [fmap option_fmap option_map]. f_equal.
  destruct (_ <? 32768)%Z eqn:E.
  - apply Z.ltb_lt in E. revert E. Z.div_mod_to_equations. lia.
  - apply Z.ltb_ge in E. revert E. Z.div_mod_to_equations. lia.
Qed.

End WavEncoding.

(** C6. For an array of [N] samples, [writeWavFile] at 16000 Hz writes a
    buffer of [44 + 2 * N] bytes: RIFF size [44 + 2 * N - 8], fmt chunk
    size 16, format tag 1 (PCM), 1 channel, sample rate 16000, byte rate
    [16000 * 2], block align 2, 16 bits per sample, data size [2 * N], and
    sample [i] at offset [44 + 2 * i] holds the input clamped to [-1, 1],
    times 32767, rounded to the nearest integer, as a little-endian signed
    16-bit value.  ([N] is such that the RIFF size fits its unsigned
    32-bit field; beyond that [writeUInt32LE] throws.) *)
Theorem writeWavFile_layout
    (filePath : string) (audioData : list Q) (files : gmap string Buffer.t) :
  let N := Z.of_nat (length audioData) in
  (44 + 2 * N - 8 <= 4294967295)%Z →
  ∃ buffer,
    Wav.writeWavFile filePath audioData 16000 files
    = Some (<[filePath := buffer]> files)
    ∧ Z.of_nat (length buffer) = (44 + 2 * N)%Z
    ∧ Buffer.toString 0 4 buffer = "RIFF"%string
    ∧ Buffer.readUInt32LE 4 buffer = Some (44 + 2 * N - 8)%Z
    ∧ Buffer.toString 8 12 buffer = "WAVE"%string
    ∧ Buffer.toString 12 16 buffer = "fmt "%string
    ∧ Buffer.readUInt32LE 16 buffer = Some 16%Z
    ∧ Buffer.readUInt16LE 20 buffer = Some 1%Z
    ∧ Buffer.readUInt16LE 22 buffer = Some 1%Z
    ∧ Buffer.readUInt32LE 24 buffer = Some 16000%Z
    ∧ Buffer.readUInt32LE 28 buffer = Some (16000 * 2)%Z
    ∧ Buffer.readUInt16LE 32 buffer = Some 2%Z
    ∧ Buffer.readUInt16LE 34 buffer = Some 16%Z
    ∧ Buffer.toString 36 40 buffer = "data"%string
    ∧ Buffer.readUInt32LE 40 buffer = Some (2 * N)%Z
    ∧ ∀ i x, audioData !! i = Some x →
        Buffer.readInt16LE (44 + i * 2) buffer
        = Some (Num.round (clamp x * 32767)%Q).
Proof.
  intros N Hsize. subst N.
  assert (Z.of_nat (44 + length audioData * 2) - 8 <= 4294967295)%Z as Hsize'
    by lia.
  exists (wav_bytes audioData). split; [|split].
  - unfold Wav.writeWavFile. by rewrite wav_buffer_16000.
  - rewrite length_wav_bytes. lia.
  - pose proof (wav_header audioData Hsize') as Hh. cbv zeta in Hh.
    destruct Hh as (? & ? & ? & ? & ? & ? & ? & ? & ? & ? & ? & ? & ?).
    repeat (split; [assumption|]). apply wav_sample.
Qed.

Lemma writeWavFile_layout_witness :
  ∃ buffer,
    Wav.writeWavFile "t.wav" [1 # 2; -1 # 2; 0]%Q 16000 ∅
    = Some (<["t.wav"%string := buffer]> ∅)
    ∧ Buffer.readUInt32LE 4 buffer = Some 42%Z
    ∧ Buffer.readInt16LE 46 buffer = Some (-16383)%Z.
Proof.
  destruct (writeWavFile_layout "t.wav" [1 # 2; -1 # 2; 0]%Q ∅)
    as (buffer & Heq & _ & _ & Hriff & Hrest); [simpl; lia|].
  exists buffer. split; [exact Heq|]. split; [exact Hriff|].
  do 11 destruct Hrest as [_ Hrest].
  exact (Hrest 1 (-1 # 2)%Q eq_refl).
Defined.

(** ** Provisioning *)

Section Provisioning.
Import Desktop.

Lemma visit_Dir names dir name entries :
  visit names dir (Dir name entries) = scan names (join dir name) entries.
Proof.
  simpl. induction entries as [|e entries IH]; simpl; [done|].
  by destruct (visit names (join dir name) e).
Qed.

Lemma scan_complete names entries :
  has_executable names entries → ∀ dir, is_Some (scan names dir entries).
Proof.
  induction 1 as [name rest Hin|name entries rest _ IH|e rest _ IH];
    intros dir.
  - simpl. rewrite bool_decide_eq_true_2 by done. eauto.
  - cbn [scan]. rewrite visit_Dir. destruct (IH (join dir name)) as [p ->].
    eauto.
  - cbn [scan]. destruct (visit names dir e); [eauto|apply IH].
Qed.

Lemma has_executable_head names e rest :
  has_executable names [e] → has_executable names (e :: rest).
Proof.
  inversion 1 as [name ? Hin|name entries ? Hsub|? ? Hnil]; subst.
  - by apply has_here.
  - by apply has_below.
  - inversion Hnil.
Qed.

Lemma visit_sound names : ∀ e dir,
  is_Some (visit names dir e) → has_executable names [e].
Proof.
  fix IH 1. intros [name|name sub|name] dir.
  - simpl. case_bool_decide as Hin; [|by intros [? ?]].
    intros _. by apply has_here.
  - rewrite visit_Dir. intros Hs. apply has_below.
    revert Hs. generalize (join dir name) as d.
    induction sub as [|e sub IHsub]; intros d; [by intros [? ?]|].
    cbn [scan]. destruct (visit names d e) eqn:He.
    + intros _. apply has_executable_head. apply (IH e d). by rewrite He.
    + intros Hs. apply has_later. by apply (IHsub d).
  - simpl. by intros [? ?].
Qed.

Lemma scan_sound names : ∀ entries dir,
  is_Some (scan names dir entries) → has_executable names entries.
Proof.
  induction entries as [|e entries IH]; intros dir; [by intros [? ?]|].
  cbn [scan]. destruct (visit names dir e) eqn:He.
  - intros _. apply has_executable_head. apply (visit_sound names e dir).
    by rewrite He.
  - intros Hs. apply has_later. by apply (IH dir).
Qed.




End Provisioning.



(** ** The temporary WAV file *)

Section TempFile.
Import Desktop.




End TempFile.





(** * Further properties *)

Section SessionFacts.
Import Sequencer.

Lemma submit_fields k text p :
  let p' := submit k text p in
  isRecording p' = isRecording p ∧ isStopping p' = isStopping p
  ∧ mediaStream p' = mediaStream p ∧ liveRecorder p' = liveRecorder p
  ∧ chunkNumber p' = chunkNumber p ∧ transcriber p' = transcriber p
  ∧ inflight p' = inflight p ∧ processingCount p' = processingCount p.
Proof.
  unfold submit. set (p1 := set_pending _ p).
  destruct (flushPendingResults_popped p1) as (m & ts & (Heq & _) & _).
  cbv zeta. rewrite Heq. by repeat split.
Qed.

Lemma begin_fields c p :
  let p' := transcribeAudio_begin c p in
  isRecording p' = isRecording p ∧ isStopping p' = isStopping p
  ∧ mediaStream p' = mediaStream p ∧ liveRecorder p' = liveRecorder p
  ∧ chunkNumber p' = chunkNumber p ∧ transcriber p' = transcriber p
  ∧ nextInsertChunk p' = nextInsertChunk p
  ∧ pendingResults p' = pendingResults p
  ∧ targetEditor p' = targetEditor p.
Proof.
  cbv zeta. unfold transcribeAudio_begin.
  destruct (negb (transcriber p)); [repeat split|].
  destruct (targetEditor p) eqn:E; repeat split; exact E.
Qed.

Lemma phase_step p e ph :
  in_phase p ph →
  match ph with
  | Recording =>
      in_phase (step p e) Recording
      ∨ (e = StopRequested ∧ in_phase (step p e) Stopping
         ∧ chunkNumber (step p e) = chunkNumber p)
  | Stopping =>
      chunkNumber (step p e) = chunkNumber p
      ∧ match e with
        | RecorderStopped _ => in_phase (step p e) Idle
        | _ => in_phase (step p e) Stopping
        end
  | Idle => chunkNumber (step p e) = chunkNumber p ∧ in_phase (step p e) Idle
  end.
Proof.
  intros Hph.
  destruct e as [hasAudio| | |k text|k]; cbn [step].
  - (* the recorder stopped *)
    destruct ph; destruct Hph as (Hrec & Hstop & Hstream & Hlive);
      rewrite Hlive; [| |done].
    + left. unfold onstop.
      set (p0 := set_recorder _ _ _ None p).
      set (p1 := if hasAudio then _ else p0).
      assert (isRecording p1 = true ∧ isStopping p1 = false
              ∧ mediaStream p1 = true ∧ liveRecorder p1 = None
              ∧ chunkNumber p1 = chunkNumber p) as (H1 & H2 & H3 & H4 & H5).
      { subst p1. destruct hasAudio; [|by subst p0].
        destruct (begin_fields (chunkNumber p) p0) as (-> & -> & -> & -> & -> & _).
        by subst p0. }
      rewrite H2, H1, H3. cbn [andb]. unfold recordChunk.
      rewrite H1, H3. cbn [negb orb]. by repeat split.
    + unfold onstop.
      set (p0 := set_recorder _ _ _ None p).
      set (p1 := if hasAudio then _ else p0).
      assert (isRecording p1 = false ∧ isStopping p1 = true
              ∧ chunkNumber p1 = chunkNumber p) as (H1 & H2 & H5).
      { subst p1. destruct hasAudio; [|by subst p0].
        destruct (begin_fields (chunkNumber p) p0) as (-> & -> & _ & _ & -> & _).
        by subst p0. }
      rewrite H2. by repeat split.
  - (* a stop is requested *)
    unfold stopRecording.
    destruct ph; destruct Hph as (Hrec & Hstop & Hstream & Hlive);
      rewrite Hrec; cbn [negb]; [|done|done].
    right. by repeat split.
  - (* the model setting changes *)
    destruct ph; destruct Hph as (Hrec & Hstop & Hstream & Hlive);
      [left|split; [done|]|split; [done|]]; by repeat split.
  - (* a transcription resolves *)
    case_decide.
    + unfold transcribeAudio_resolved.
      destruct (submit_fields k text p) as (H1 & H2 & H3 & H4 & H5 & _).
      destruct ph; destruct Hph as (Hrec & Hstop & Hstream & Hlive);
        [left|split; [done|]|split; [done|]]; cbn;
        rewrite ?H1, ?H2, ?H3, ?H4, ?H5; by repeat split.
    + destruct ph; [by left|done|done].
  - (* a transcription rejects *)
    case_decide.
    + destruct ph; destruct Hph as (Hrec & Hstop & Hstream & Hlive);
        [left|split; [done|]|split; [done|]]; by repeat split.
    + destruct ph; [by left|done|done].
Qed.

Lemma phase_start ed : in_phase (startRecording ed) Recording.
Proof. by repeat split. Qed.

Lemma phase_run evs : ∀ p, (∃ ph, in_phase p ph) → ∃ ph, in_phase (run p evs) ph.
Proof.
  induction evs as [|e evs IH]; intros p [ph Hph]; [by exists ph|].
  change (run p (e :: evs)) with (run (step p e) evs).
  apply IH. pose proof (phase_step p e ph Hph) as Hs.
  destruct ph.
  - destruct Hs as [?|(_ & ? & _)]; [by exists Recording|by exists Stopping].
  - destruct Hs as [_ Hs]. destruct e; first [by exists Idle|by exists Stopping].
  - destruct Hs as [_ Hs]. by exists Idle.
Qed.

Lemma idle_run evs : ∀ p,
  in_phase p Idle →
  chunkNumber (run p evs) = chunkNumber p ∧ in_phase (run p evs) Idle.
Proof.
  induction evs as [|e evs IH]; intros p Hph; [done|].
  change (run p (e :: evs)) with (run (step p e) evs).
  destruct (phase_step p e Idle Hph) as [Hc Hph'].
  destruct (IH _ Hph') as [Hc' Hph'']. split; [congruence|done].
Qed.

Lemma stopping_run evs : ∀ p,
  in_phase p Stopping →
  chunkNumber (run p evs) = chunkNumber p
  ∧ isRecording (run p evs) = false
  ∧ ((∃ a, RecorderStopped a ∈ evs) → in_phase (run p evs) Idle).
Proof.
  induction evs as [|e evs IH]; intros p Hph.
  - split; [done|]. split; [apply Hph|]. intros [a Ha]. by apply elem_of_nil in Ha.
  - change (run p (e :: evs)) with (run (step p e) evs).
    destruct (phase_step p e Stopping Hph) as [Hc Hph'].
    destruct e as [hasAudio| | |k text|k].
    + destruct (idle_run evs _ Hph') as [Hc' Hi]. split; [congruence|].
      split; [apply Hi|done].
    + destruct (IH _ Hph') as (Hc' & Hr & Hi). split; [congruence|].
      split; [done|]. intros [a Ha]. apply Hi. exists a.
      apply elem_of_cons in Ha as [?|?]; [done|done].
    + destruct (IH _ Hph') as (Hc' & Hr & Hi). split; [congruence|].
      split; [done|]. intros [a Ha]. apply Hi. exists a.
      apply elem_of_cons in Ha as [?|?]; [done|done].
    + destruct (IH _ Hph') as (Hc' & Hr & Hi). split; [congruence|].
      split; [done|]. intros [a Ha]. apply Hi. exists a.
      apply elem_of_cons in Ha as [?|?]; [done|done].
    + destruct (IH _ Hph') as (Hc' & Hr & Hi). split; [congruence|].
      split; [done|]. intros [a Ha]. apply Hi. exists a.
      apply elem_of_cons in Ha as [?|?]; [done|done].
Qed.

End SessionFacts.

Section SessionCounts.
Import Sequencer.

Lemma recordChunk_fields p :
  let p' := recordChunk p in
  inflight p' = inflight p ∧ processingCount p' = processingCount p
  ∧ transcriber p' = transcriber p ∧ pendingResults p' = pendingResults p
  ∧ nextInsertChunk p' = nextInsertChunk p ∧ targetEditor p' = targetEditor p.
Proof.
  cbv zeta. unfold recordChunk.
  destruct (negb (isRecording p) || negb (mediaStream p)); repeat split.
Qed.

(** What [recorder.onstop] does to the bookkeeping of transcriptions: it
    is the state after the [transcribeAudio] call, if there is one. *)
Lemma onstop_fields c (hasAudio : bool) p :
  let p1 := if hasAudio then transcribeAudio_begin c p else p in
  let p' := onstop c hasAudio p in
  inflight p' = inflight p1 ∧ processingCount p' = processingCount p1
  ∧ transcriber p' = transcriber p ∧ pendingResults p' = pendingResults p
  ∧ nextInsertChunk p' = nextInsertChunk p ∧ targetEditor p' = targetEditor p.
Proof.
  cbv zeta. unfold onstop.
  set (p0 := set_recorder _ _ _ None p).
  set (q := if hasAudio then transcribeAudio_begin c p0 else p0).
  assert (inflight q = inflight (if hasAudio then transcribeAudio_begin c p else p)
          ∧ processingCount q
            = processingCount (if hasAudio then transcribeAudio_begin c p else p)
          ∧ transcriber q = transcriber p ∧ pendingResults q = pendingResults p
          ∧ nextInsertChunk q = nextInsertChunk p
          ∧ targetEditor q = targetEditor p) as (H1 & H2 & H3 & H4 & H5 & H6).
  { subst q. destruct hasAudio; [|by subst p0].
    unfold transcribeAudio_begin. subst p0. cbn.
    destruct (negb (transcriber p)); [done|].
    destruct (targetEditor p) eqn:E; repeat split; exact E. }
  destruct (isStopping q); [by repeat split|].
  destruct (isRecording q && mediaStream q); [|by repeat split].
  destruct (recordChunk_fields q) as (-> & -> & -> & -> & -> & ->).
  by repeat split.
Qed.

Lemma count_step p e :
  session_inv p →
  processingCount p = Z.of_nat (size (inflight p)) →
  processingCount (step p e) = Z.of_nat (size (inflight (step p e))).
Proof.
  intros Hinv Hcount. destruct e as [hasAudio| | |k text|k]; cbn [step].
  - destruct (liveRecorder p) as [c|] eqn:Hl; [|done].
    destruct (onstop_fields c hasAudio p) as (-> & -> & _).
    destruct hasAudio; [|done]. unfold transcribeAudio_begin.
    destruct (negb (transcriber p)); [done|].
    destruct (targetEditor p); [|done]. cbn.
    assert (c ∉ inflight p) as Hc.
    { intros Hin. by destruct (inv_inflight p Hinv c Hin) as [_ ?]. }
    rewrite size_union by (by apply disjoint_singleton_l).
    rewrite size_singleton. lia.
  - unfold stopRecording. by destruct (negb (isRecording p)).
  - done.
  - case_decide as Hk; [|done]. unfold transcribeAudio_resolved. cbn.
    destruct (submit_fields k text p) as (_ & _ & _ & _ & _ & _ & -> & ->).
    rewrite size_difference by (by apply singleton_subseteq_l).
    rewrite size_singleton.
    assert (size (inflight p) ≠ 0) as Hne.
    { intros H0. apply size_empty_inv in H0. by rewrite (H0 k) in Hk; apply not_elem_of_empty in Hk. }
    lia.
  - case_decide as Hk; [|done]. unfold transcribeAudio_rejected. cbn.
    rewrite size_difference by (by apply singleton_subseteq_l).
    rewrite size_singleton.
    assert (size (inflight p) ≠ 0) as Hne.
    { intros H0. apply size_empty_inv in H0. by rewrite (H0 k) in Hk; apply not_elem_of_empty in Hk. }
    lia.
Qed.

Lemma count_run evs : ∀ p,
  session_inv p →
  processingCount p = Z.of_nat (size (inflight p)) →
  processingCount (run p evs) = Z.of_nat (size (inflight (run p evs))).
Proof.
  induction evs as [|e evs IH]; intros p Hinv Hcount; [done|].
  change (run p (e :: evs)) with (run (step p e) evs).
  apply IH; [by apply session_inv_step|by apply count_step].
Qed.

End SessionCounts.

(** X1. While a session runs, [processingCount] is the number of
    [transcribeAudio] calls that have passed their guards and not yet
    reached their [finally] block; it is never negative, and it is zero
    exactly when no transcription is suspended. *)
Theorem processingCount_counts_inflight
    (ed : Editor.t) (evs : list Sequencer.event) :
  let p := Sequencer.run (Sequencer.startRecording ed) evs in
  Sequencer.processingCount p = Z.of_nat (size (Sequencer.inflight p))
  ∧ (0 <= Sequencer.processingCount p)%Z
  ∧ (Sequencer.processingCount p = 0%Z ↔ Sequencer.inflight p = ∅).
Proof.
  intros p.
  assert (Sequencer.processingCount p = Z.of_nat (size (Sequencer.inflight p)))
    as Hcount.
  { apply count_run; [apply session_inv_start|done]. }
  split; [done|]. split; [lia|]. rewrite Hcount. split.
  - intros H0. apply leibniz_equiv, size_empty_inv. lia.
  - intros ->. by rewrite size_empty.
Qed.

(** X2. In every state of a session the recorder is in one of three
    phases: recording (flag up, stream held, the live recorder is the one
    of the latest chunk number), stopping (stop requested, the last
    recorder has not reported yet), or idle (stream released, no recorder).
    So the microphone stream is held exactly while a recorder is live. *)
Theorem recorder_phases (ed : Editor.t) (evs : list Sequencer.event) :
  let p := Sequencer.run (Sequencer.startRecording ed) evs in
  (∃ ph, in_phase p ph)
  ∧ (Sequencer.mediaStream p = true ↔ is_Some (Sequencer.liveRecorder p))
  ∧ (Sequencer.isRecording p = true →
     Sequencer.liveRecorder p = Some (Sequencer.chunkNumber p)).
Proof.
  intros p.
  destruct (phase_run evs (Sequencer.startRecording ed)) as [ph Hph].
  { exists Recording. apply phase_start. }
  fold p in Hph. split; [by exists ph|].
  destruct ph; destruct Hph as (Hrec & Hstop & Hstream & Hlive);
    rewrite Hstream, Hlive, Hrec; split; try done; split; try done.
Qed.

(** X3. Once [stopRecording] has run, no further chunk is started whatever
    happens later in the session, and as soon as the last recorder reports
    ([onstop]) the stream is released and the plugin is idle. *)
Theorem stop_ends_recording
    (ed : Editor.t) (evs later : list Sequencer.event) :
  let p := Sequencer.run (Sequencer.startRecording ed) evs in
  let p' := Sequencer.run (Sequencer.stopRecording p) later in
  Sequencer.chunkNumber p' = Sequencer.chunkNumber p
  ∧ Sequencer.isRecording p' = false
  ∧ ((∃ a, Sequencer.RecorderStopped a ∈ later) → in_phase p' Idle).
Proof.
  intros p p'.
  destruct (phase_run evs (Sequencer.startRecording ed)) as [ph Hph].
  { exists Recording. apply phase_start. }
  fold p in Hph. subst p'. destruct ph.
  - pose proof (phase_step p Sequencer.StopRequested Recording Hph) as Hs.
    cbn [Sequencer.step] in Hs. destruct Hs as [Hr|(_ & Hst & Hc)].
    + destruct Hph as (Hrec & _). destruct Hr as (Hr & _).
      unfold Sequencer.stopRecording in Hr. rewrite Hrec in Hr. done.
    + destruct (stopping_run later _ Hst) as (Hc' & Hr' & Hi).
      split; [congruence|done].
  - assert (Sequencer.stopRecording p = p) as ->.
    { unfold Sequencer.stopRecording. by destruct Hph as (-> & _). }
    apply stopping_run, Hph.
  - assert (Sequencer.stopRecording p = p) as ->.
    { unfold Sequencer.stopRecording. by destruct Hph as (-> & _). }
    destruct (idle_run later _ Hph) as [Hc Hi]. split; [done|].
    split; [apply Hi|done].
Qed.

Section ModelChange.
Import Sequencer.

Lemma nothing_new_step p0 p e : nothing_new p0 p → nothing_new p0 (step p e).
Proof.
  intros (Ht & Hfl & Hpend). destruct e as [hasAudio| | |k text|k]; cbn [step].
  - destruct (liveRecorder p) as [c|]; [|done].
    destruct (onstop_fields c hasAudio p) as (H1 & _ & H3 & H4 & _).
    assert ((if hasAudio then transcribeAudio_begin c p else p) = p) as Hp.
    { destruct hasAudio; [|done]. unfold transcribeAudio_begin. by rewrite Ht. }
    rewrite Hp in H1. unfold nothing_new. by rewrite H1, H3, H4.
  - unfold stopRecording. by destruct (negb (isRecording p)).
  - done.
  - case_decide as Hk; [|done]. unfold transcribeAudio_resolved.
    destruct (submit_fields k text p) as (_ & _ & _ & _ & _ & Htr & Hin & _).
    split; [by cbn; rewrite Htr|]. split.
    + cbn. rewrite Hin. intros x Hx. apply Hfl.
      by apply elem_of_difference in Hx as [? _].
    + cbn. unfold submit.
      set (p1 := set_pending (<[k:=text]> (pendingResults p)) p).
      destruct (flushPendingResults_popped p1) as (m & ts & (_ & _ & Hlk) & _).
      intros j. rewrite Hlk. case_decide; [by intros [? ?]|].
      subst p1; cbn. rewrite lookup_insert. case_decide.
      * intros _. left. subst. by apply Hfl.
      * apply Hpend.
  - case_decide as Hk; [|done]. split; [done|]. split; [|done].
    cbn. intros x Hx. apply Hfl. by apply elem_of_difference in Hx as [? _].
Qed.

End ModelChange.

(** X4. After the model setting changes ([this.plugin.transcriber = null])
    no [transcribeAudio] call of the session gets past its first guard:
    whatever happens later, no new transcription is in flight and the only
    results that can still arrive are those of transcriptions that were
    already in flight. *)
Theorem model_change_drops_later_chunks
    (p : Sequencer.plugin) (evs : list Sequencer.event) :
  let p' := Sequencer.run (Sequencer.step p Sequencer.ModelChanged) evs in
  Sequencer.transcriber p' = false
  ∧ Sequencer.inflight p' ⊆ Sequencer.inflight p
  ∧ ∀ k, is_Some (Sequencer.pendingResults p' !! k) →
         k ∈ Sequencer.inflight p ∨ is_Some (Sequencer.pendingResults p !! k).
Proof.
  cbv zeta.
  assert (∀ evs q, nothing_new p q → nothing_new p (Sequencer.run q evs)) as Hrun.
  { clear evs. induction evs as [|e evs IH]; intros q Hq; [done|].
    change (Sequencer.run q (e :: evs))
      with (Sequencer.run (Sequencer.step q e) evs).
    by apply IH, nothing_new_step. }
  apply Hrun. split; [done|]. split; [done|]. auto.
Qed.

Section Lost.
Import Sequencer.

Lemma lost_recordChunk k p :
  lost k p → liveRecorder p = None → lost k (recordChunk p).
Proof.
  intros [Hr Habs Hfl Hlive] Hnone. unfold recordChunk.
  destruct (negb (isRecording p) || negb (mediaStream p)); [by split|].
  split; cbn; try done; [lia|]. intros [= ?]. lia.
Qed.

Lemma lost_step k p e :
  session_inv p → lost k p → lost k (step p e).
Proof.
  intros Hinv Hl. destruct e as [hasAudio| | |j text|j]; cbn [step].
  - destruct (liveRecorder p) as [c|] eqn:Hc; [|done].
    destruct (inv_live p Hinv c Hc) as [-> _].
    destruct Hl as [Hr Habs Hfl Hlive]. rewrite Hc in Hlive.
    unfold onstop.
    set (p0 := set_recorder (isRecording p) (isStopping p) (mediaStream p) None p).
    set (p1 := if hasAudio then transcribeAudio_begin (chunkNumber p) p0 else p0).
    assert (lost k p1 ∧ liveRecorder p1 = None) as [Hl1 Hnone1].
    { assert (lost k p0) as Hl0 by (by split).
      subst p1. destruct hasAudio; [|done]. unfold transcribeAudio_begin.
      destruct (negb (transcriber p0)); [done|].
      destruct (targetEditor p0); [|done].
      split; [|done]. subst p0. split; cbn; try done.
      rewrite elem_of_union, elem_of_singleton. intros [->|?]; done. }
    destruct (isStopping p1).
    + destruct Hl1 as [? ? ? ?]. by split.
    + destruct (isRecording p1 && mediaStream p1); [|done].
      by apply lost_recordChunk.
  - unfold stopRecording. destruct (negb (isRecording p)); [done|].
    destruct Hl as [? ? ? ?]. by split.
  - destruct Hl as [? ? ? ?]. by split.
  - case_decide as Hj; [|done]. destruct Hl as [Hr Habs Hfl Hlive].
    assert (j ≠ k) as Hne by (by intros ->).
    unfold transcribeAudio_resolved, submit.
    set (p1 := set_pending (<[j:=text]> (pendingResults p)) p).
    destruct (flushPendingResults_popped p1)
      as (m & ts & (Heq & Hall & Hlk) & _).
    set (p' := flushPendingResults p1) in *.
    change (nextInsertChunk p1) with (nextInsertChunk p) in Heq, Hall, Hlk.
    assert (pendingResults p1 !! k = None) as Hk1.
    { subst p1; cbn. by rewrite lookup_insert_ne. }
    assert (nextInsertChunk p + m <= k) as Hm.
    { destruct (decide (nextInsertChunk p + m <= k)); [done|]. exfalso.
      destruct (Forall2_lookup_l _ _ _ (k - nextInsertChunk p) k Hall)
        as (t & _ & Ht); [apply lookup_seq; lia|]. congruence. }
    split; cbn.
    + rewrite Heq. cbn. lia.
    + rewrite Hlk. by case_decide.
    + rewrite Heq. cbn. rewrite elem_of_difference. tauto.
    + rewrite Heq. done.
  - case_decide as Hj; [|done]. destruct Hl as [? ? ? ?].
    split; cbn; try done. rewrite elem_of_difference. tauto.
Qed.

Lemma lost_run k evs : ∀ p,
  session_inv p → lost k p → lost k (run p evs).
Proof.
  induction evs as [|e evs IH]; intros p Hinv Hl; [done|].
  change (run p (e :: evs)) with (run (step p e) evs).
  apply IH; [by apply session_inv_step|by apply lost_step].
Qed.

End Lost.

(** X5. A chunk number that was handed out and for which nothing is left
    that could submit a result stops the sequencer for the rest of the
    session: whatever happens later, [nextInsertChunk] never passes it, so
    no later chunk is inserted. *)
Theorem lost_chunk_blocks_insertion
    (ed : Editor.t) (evs later : list Sequencer.event) (k : nat) :
  let p := Sequencer.run (Sequencer.startRecording ed) evs in
  lost k p →
  Sequencer.nextInsertChunk (Sequencer.run p later) <= k
  ∧ lost k (Sequencer.run p later).
Proof.
  intros p Hl.
  assert (lost k (Sequencer.run p later)) as Hl'.
  { apply lost_run; [|done]. apply session_inv_run, session_inv_start. }
  split; [|done]. by destruct Hl' as [[? _] _ _ _].
Qed.

Lemma lost_chunk_blocks_insertion_witness :
  Sequencer.nextInsertChunk
    (Sequencer.run
       (Sequencer.run (Sequencer.startRecording Editor.empty)
          [Sequencer.RecorderStopped false])
       [Sequencer.RecorderStopped true; Sequencer.Resolved 2 "two"]) <= 1.
Proof.
  apply (lost_chunk_blocks_insertion Editor.empty
           [Sequencer.RecorderStopped false]
           [Sequencer.RecorderStopped true; Sequencer.Resolved 2 "two"] 1).
  split.
  - vm_compute. lia.
  - by vm_compute.
  - intros Hin. apply elem_of_elements in Hin. vm_compute in Hin.
    by apply elem_of_nil in Hin.
  - by vm_compute.
Defined.

(** X6. The three ways in which the code loses a chunk: its recorder
    delivered no audio (nothing is submitted for its number), it finished
    recording after the model setting had changed ([transcribeAudio]
    returns at its first guard), or its transcription threw (the [catch]
    block submits nothing). *)
Theorem chunks_lost_without_result
    (ed : Editor.t) (evs : list Sequencer.event) (c : nat) :
  let p := Sequencer.run (Sequencer.startRecording ed) evs in
  (Sequencer.liveRecorder p = Some c →
   lost c (Sequencer.step p (Sequencer.RecorderStopped false)))
  ∧ (Sequencer.liveRecorder p = Some c → Sequencer.transcriber p = false →
     lost c (Sequencer.step p (Sequencer.RecorderStopped true)))
  ∧ (c ∈ Sequencer.inflight p →
     lost c (Sequencer.step p (Sequencer.Rejected c))).
Proof.
  intros p.
  assert (session_inv p) as Hinv by apply session_inv_run, session_inv_start.
  assert (∀ k, k ∈ Sequencer.inflight p ∨ Sequencer.liveRecorder p = Some k →
               Sequencer.pendingResults p !! k = None) as Habs.
  { intros k Hk. destruct (Sequencer.pendingResults p !! k) eqn:E; [|done].
    destruct (inv_pending p Hinv k) as (_ & ? & ?); [by rewrite E|].
    by destruct Hk. }
  assert (∀ a : bool, Sequencer.liveRecorder p = Some c →
               (if a then Sequencer.transcribeAudio_begin c
                           (Sequencer.set_recorder (Sequencer.isRecording p)
                              (Sequencer.isStopping p) (Sequencer.mediaStream p)
                              None p)
                else Sequencer.set_recorder (Sequencer.isRecording p)
                       (Sequencer.isStopping p) (Sequencer.mediaStream p) None p)
               = Sequencer.set_recorder (Sequencer.isRecording p)
                   (Sequencer.isStopping p) (Sequencer.mediaStream p) None p →
               lost c (Sequencer.step p (Sequencer.RecorderStopped a))) as Hstop.
  { intros a Hc Ha. cbn [Sequencer.step]. rewrite Hc.
    unfold Sequencer.onstop. rewrite Ha.
    set (p0 := Sequencer.set_recorder _ _ _ None p).
    destruct (inv_live p Hinv c Hc) as [Hcn Hle].
    assert (lost c p0) as Hl0.
    { split; cbn; [lia|by apply Habs; right| |done].
      intros Hin. by destruct (inv_inflight p Hinv c Hin). }
    destruct (Sequencer.isStopping p0).
    - destruct Hl0 as [? ? ? ?]. by split.
    - destruct (Sequencer.isRecording p0 && Sequencer.mediaStream p0); [|done].
      by apply lost_recordChunk. }
  split; [|split].
  - intros Hc. by apply Hstop.
  - intros Hc Ht. apply Hstop; [done|].
    unfold Sequencer.transcribeAudio_begin. cbn. by rewrite Ht.
  - intros Hin. cbn [Sequencer.step]. rewrite decide_True by done.
    destruct (inv_inflight p Hinv c Hin) as [? ?].
    split; cbn; [lia|by apply Habs; left| |done].
    rewrite elem_of_difference, elem_of_singleton. tauto.
Qed.

Section Layout.
Import Sequencer.

Lemma submit_all_editor N texts order ed :
  order ≡ₚ seq 1 N →
  targetEditor (submit_all texts (startRecording ed) order)
  = Some (foldl emit ed (texts <$> seq 1 N)).
Proof.
  intros Hperm.
  assert (∀ k, k ∈ order ↔ 1 <= k < 1 + N) as Hmem.
  { intros k. rewrite Hperm. apply elem_of_seq. }
  pose proof (sequenced_submit_all texts ed order ∅ (startRecording ed)) as Hinv.
  rewrite union_empty_r_L in Hinv.
  assert (∀ k, k ∈ (list_to_set order : gset nat) ↔ 1 <= k < 1 + N) as Hset.
  { intros k. by rewrite elem_of_list_to_set. }
  destruct Hinv as [Hpos Hdone Hpend Hed].
  - split; cbn.
    + lia.
    + intros k. rewrite lookup_empty. split.
      * intros Hk. by apply not_elem_of_empty in Hk.
      * intros [?|[? ?]]; [lia|done].
    + intros k t. by rewrite lookup_empty.
    + reflexivity.
  - rewrite Hperm. apply NoDup_seq.
  - intros k Hk. apply Hmem in Hk. split; [lia|apply not_elem_of_empty].
  - set (p := submit_all texts (startRecording ed) order) in *.
    assert (nextInsertChunk p = S N) as Hnext.
    { assert (¬ 1 <= nextInsertChunk p < 1 + N) as Hout.
      { rewrite <- Hset. intros Hin.
        apply Hdone in Hin as [?|[t Ht]]; [lia|].
        apply Hpend in Ht. lia. }
      destruct (decide (nextInsertChunk p <= S N)); [lia|].
      assert (S N ∈ (list_to_set order : gset nat)) as Hin
        by (apply Hdone; left; lia).
      apply Hset in Hin. lia. }
    rewrite Hed, Hnext. cbn. by rewrite Nat.sub_0_r.
Qed.

Lemma foldl_emit_layout ts : ∀ ed,
  let inserted := (λ t, t ++ " ")%string <$> List.filter survives ts in
  Editor.replaced (foldl emit ed ts)
  = Editor.replaced ed
    ++ laid_out (Editor.line (Editor.cursor ed)) (Editor.ch (Editor.cursor ed))
         inserted
  ∧ Editor.cursor (foldl emit ed ts)
    = Editor.mkPos (Editor.line (Editor.cursor ed))
        (Editor.ch (Editor.cursor ed) + sum_list (String.length <$> inserted)).
Proof.
  induction ts as [|t ts IH]; intros ed; cbv zeta; cbn [foldl List.filter].
  - cbn. rewrite app_nil_r, Nat.add_0_r. split; [done|].
    destruct ed as [[l c] r]. reflexivity.
  - destruct (IH (emit ed t)) as [IH1 IH2]. rewrite IH1, IH2. clear IH IH1 IH2.
    unfold emit. destruct (survives t); [|by split].
    cbn. rewrite <- app_assoc. cbn. unfold Editor.getCursor.
    destruct ed as [[l c] r]. cbn. split; [done|]. f_equal. lia.
Qed.

End Layout.

(** X7. When the results of chunks 1..N have all been submitted, in any
    order, the insertions lie one after the other on the line of the
    cursor: each text is put where the previous one ended, and the cursor
    ends behind the last one. *)
Theorem insertions_are_contiguous
    (N : nat) (texts : nat → string) (order : list nat) (ed : Editor.t) :
  order ≡ₚ seq 1 N →
  let inserted :=
    (λ t, t ++ " ")%string
      <$> List.filter Sequencer.survives (texts <$> seq 1 N) in
  let line := Editor.line (Editor.cursor ed) in
  let ch := Editor.ch (Editor.cursor ed) in
  ∃ ed',
    Sequencer.targetEditor
      (submit_all texts (Sequencer.startRecording ed) order) = Some ed'
    ∧ Editor.replaced ed' = Editor.replaced ed ++ laid_out line ch inserted
    ∧ Editor.cursor ed'
      = Editor.mkPos line (ch + sum_list (String.length <$> inserted)).
Proof.
  intros Hperm inserted line ch.
  exists (foldl Sequencer.emit ed (texts <$> seq 1 N)).
  split; [by apply submit_all_editor|]. apply foldl_emit_layout.
Qed.

Lemma insertions_are_contiguous_witness :
  ∃ ed',
    Sequencer.targetEditor
      (submit_all (λ k, match k with 1 => "one" | 2 => "[MUSIC]" | _ => "three" end)
         (Sequencer.startRecording Editor.empty) [3; 1; 2]) = Some ed'
    ∧ Editor.replaced ed'
      = [("one "%string, Editor.mkPos 0 0); ("three "%string, Editor.mkPos 0 4)]
    ∧ Editor.cursor ed' = Editor.mkPos 0 10.
Proof.
  apply (insertions_are_contiguous 3
           (λ k, match k with 1 => "one" | 2 => "[MUSIC]" | _ => "three" end)
           [3; 1; 2] Editor.empty).
  simpl. rewrite (Permutation_swap 1 3 [2]). apply perm_skip, perm_swap.
Defined.

Section WavReading.
Import Desktop Buffer Wav WavReader.

Lemma find_data_returns fuel : ∀ buffer offset fmt,
  length buffer <= offset + 8 * fuel + 8 →
  is_Some (find_data fuel buffer offset fmt).
Proof.
  induction fuel as [|fuel IH]; intros buffer offset fmt Hlen; cbn [find_data].
  - destruct (_ <? _)%Z eqn:E; [|done]. apply Z.ltb_lt in E. lia.
  - destruct (_ <? _)%Z eqn:E; [|done].
    destruct (readUInt32LE (offset + 4) buffer) as [chunkSize|]; [|done].
    destruct (String.eqb _ "fmt ").
    + destruct (readUInt16LE (offset + 10) buffer); [|done].
      destruct (readUInt32LE (offset + 12) buffer); [|done].
      destruct (readUInt16LE (offset + 22) buffer); [|done].
      apply IH. lia.
    + destruct (String.eqb _ "data"); [done|]. apply IH. lia.
Qed.

Lemma readWavAsFloat32_returns buffer : is_Some (readWavAsFloat32 buffer).
Proof.
  unfold readWavAsFloat32. destruct (negb _); [done|].
  destruct (find_data_returns (length buffer) buffer 12 (mkFormat 1 16000 16))
    as [found ->]; [lia|]. done.
Qed.

Lemma mapM_Ok {A B} (f : A → result B) (g : A → B) (l : list A) :
  (∀ x, x ∈ l → f x = Ok (g x)) → mapM f l = Ok (g <$> l).
Proof.
  induction l as [|x l IH]; intros Hf; [done|]. cbn [mapM fmap list_fmap].
  rewrite Hf by apply list_elem_of_here. cbn.
  rewrite IH by (intros y Hy; apply Hf; by right). done.
Qed.

Lemma fmap_seq_lookup {A B} (g : A → B) (l : list A) (h : nat → B) :
  (∀ i x, l !! i = Some x → h i = g x) →
  h <$> seq 0 (length l) = g <$> l.
Proof.
  intros Hh. apply list_eq. intros i. rewrite !list_lookup_fmap.
  destruct (l !! i) as [x|] eqn:E.
  - rewrite lookup_seq_lt by (by eapply lookup_lt_Some). cbn.
    by rewrite (Hh i x E).
  - rewrite lookup_seq_ge by (by apply lookup_ge_None). done.
Qed.

Local Ltac buf_len :=
  unfold write, alloc; rewrite ?length_store, ?length_replicate; lia.

Local Ltac read_tag :=
  unfold WavReader.toString, wav_bytes, write; cbv zeta;
  repeat (rewrite bytes_at_store_disjoint
            by (rewrite ?length_le_bytes, ?length_data_bytes; simpl; lia));
  rewrite bytes_at_store_inside by (simpl; buf_len);
  reflexivity.

Lemma wav_tags audioData :
  WavReader.toString 0 4 (wav_bytes audioData) = "RIFF"%string
  ∧ WavReader.toString 8 12 (wav_bytes audioData) = "WAVE"%string
  ∧ WavReader.toString 12 (12 + 4) (wav_bytes audioData) = "fmt "%string
  ∧ WavReader.toString 36 (36 + 4) (wav_bytes audioData) = "data"%string.
Proof. repeat split; read_tag. Qed.

Lemma samples_count (n : nat) :
  Z.to_nat (Num.floor (inject_Z (2 * Z.of_nat n) / (inject_Z 16 / 8))%Q) = n
  ∧ Z.to_nat (Qceiling (inject_Z (2 * Z.of_nat n) / (inject_Z 16 / 8))%Q) = n.
Proof.
  assert (inject_Z (2 * Z.of_nat n) / (inject_Z 16 / 8) == inject_Z (Z.of_nat n))%Q
    as Heq.
  { rewrite inject_Z_mult. field. }
  unfold Num.floor. rewrite (Qfloor_comp _ _ Heq), (Qceiling_comp _ _ Heq).
  rewrite Qfloor_Z, Qceiling_Z. lia.
Qed.

End WavReading.

Section RoundTrip.
Import Desktop Buffer Wav WavReader.

Lemma find_data_S fuel buffer offset fmt :
  find_data (S fuel) buffer offset fmt =
  if (Z.of_nat offset <? Z.of_nat (length buffer) - 8)%Z then
    let chunkId := WavReader.toString offset (offset + 4) buffer in
    match Buffer.readUInt32LE (offset + 4) buffer with
    | None => Some (Threw "RangeError")
    | Some chunkSize =>
        if String.eqb chunkId "fmt " then
          match Buffer.readUInt16LE (offset + 10) buffer,
                Buffer.readUInt32LE (offset + 12) buffer,
                Buffer.readUInt16LE (offset + 22) buffer with
          | Some numChannels, Some sampleRate, Some bitsPerSample =>
              find_data fuel buffer (offset + 8 + Z.to_nat chunkSize)
                (mkFormat numChannels sampleRate bitsPerSample)
          | _, _, _ => Some (Threw "RangeError")
          end
        else if String.eqb chunkId "data" then
          Some (Ok (fmt, Some (offset + 8, chunkSize)))
        else find_data fuel buffer (offset + 8 + Z.to_nat chunkSize) fmt
    end
  else Some (Ok (fmt, None)).
Proof. reflexivity. Qed.

Lemma parse_chunks_S fuel buffer offset sampleRate bitsPerSample :
  parse_chunks (S fuel) buffer offset sampleRate bitsPerSample =
  if (Z.of_nat offset <? Z.of_nat (length buffer) - 8)%Z then
    let chunkId := WavReader.toString offset (offset + 4) buffer in
    match Buffer.readUInt32LE (offset + 4) buffer with
    | None => Some (Threw "RangeError")
    | Some chunkSize =>
        let fmt :=
          if String.eqb chunkId "fmt " then
            sampleRate ← Buffer.readUInt32LE (offset + 12) buffer;
            bitsPerSample ← Buffer.readUInt16LE (offset + 22) buffer;
            Some (sampleRate, bitsPerSample)
          else Some (sampleRate, bitsPerSample) in
        match fmt with
        | None => Some (Threw "RangeError")
        | Some (sampleRate, bitsPerSample) =>
            if String.eqb chunkId "data" then
              parse_data buffer (offset + 8) chunkSize sampleRate bitsPerSample
            else
              let offset := offset + 8 + Z.to_nat chunkSize in
              let offset :=
                if (chunkSize mod 2 =? 0)%Z then offset else offset + 1 in
              parse_chunks fuel buffer offset sampleRate bitsPerSample
        end
    end
  else Some (Threw "Could not find data chunk in WAV file").
Proof. reflexivity. Qed.

(** The header fields at the offsets at which the readers look them up. *)
Lemma wav_fields audioData :
  (Z.of_nat (44 + length audioData * 2) - 8 <= 4294967295)%Z →
  let buffer := wav_bytes audioData in
  readUInt32LE (12 + 4) buffer = Some 16%Z
  ∧ readUInt16LE (12 + 10) buffer = Some 1%Z
  ∧ readUInt32LE (12 + 12) buffer = Some 16000%Z
  ∧ readUInt16LE (12 + 22) buffer = Some 16%Z
  ∧ readUInt32LE (36 + 4) buffer = Some (2 * Z.of_nat (length audioData))%Z.
Proof.
  intros Hsize. pose proof (wav_header audioData Hsize) as Hh.
  cbv zeta in *.
  destruct Hh as (_ & _ & _ & _ & ? & _ & ? & ? & _ & _ & ? & _ & ?).
  done.
Qed.

Lemma wav_samples_read audioData i :
  i < length audioData →
  (sample ← in_range (readInt16LE (44 + i * 2) (wav_bytes audioData));
   mret (inject_Z sample / 32768)%Q)
  = Ok (default 0%Q (decoded <$> audioData !! i)).
Proof.
  intros Hi. destruct (lookup_lt_is_Some_2 _ _ Hi) as [x Hx].
  rewrite (wav_sample _ _ _ Hx), Hx, <- intSample_clamp. reflexivity.
Qed.

End RoundTrip.

Lemma readWavAsFloat32_wav_bytes (audioData : list Q) :
  audioData ≠ [] →
  (Z.of_nat (44 + length audioData * 2) - 8 <= 4294967295)%Z →
  ∃ buffer,
    Wav.wav_buffer audioData 16000 = Some buffer
    ∧ WavReader.readWavAsFloat32 buffer
      = Some (Desktop.Ok ((λ x, WavReader.Finite (decoded x)) <$> audioData)).
Proof.
  intros Hne Hsize. exists (wav_bytes audioData).
  split; [by apply wav_buffer_16000|].
  assert (1 <= length audioData) as Hlen.
  { destruct audioData; [done|cbn; lia]. }
  destruct (wav_tags audioData) as (Triff & _ & Tfmt & Tdata).
  destruct (wav_fields audioData Hsize) as (F1 & F2 & F3 & F4 & F5).
  cbv zeta in *.
  unfold WavReader.readWavAsFloat32. rewrite Triff. cbn [String.eqb Ascii.eqb Bool.eqb negb].
  rewrite length_wav_bytes.
  change (44 + length audioData * 2) with (S (S (42 + length audioData * 2))).
  rewrite find_data_S, length_wav_bytes.
  rewrite (proj2 (Z.ltb_lt _ _)) by lia. cbv zeta.
  rewrite Tfmt, F1, F2, F3, F4. rewrite String.eqb_refl.
  change (12 + 8 + Z.to_nat 16) with 36.
  rewrite find_data_S, length_wav_bytes.
  rewrite (proj2 (Z.ltb_lt _ _)) by lia. cbv zeta.
  rewrite Tdata, F5. cbn [String.eqb Ascii.eqb Bool.eqb mbind option_bind].
  f_equal. unfold WavReader.read_samples. cbn [WavReader.bitsPerSample].
  change (16 =? 0)%Z with false. change (16 =? 16)%Z with true. cbv iota zeta.
  rewrite (proj1 (samples_count (length audioData))).
  rewrite (mapM_Ok _ (λ i, WavReader.Finite
                            (default 0%Q (decoded <$> audioData !! i)))).
  - f_equal. apply fmap_seq_lookup. intros i x Hx. by rewrite Hx.
  - intros i Hi. apply elem_of_seq in Hi.
    change (36 + 8) with 44.
    pose proof (wav_samples_read audioData i ltac:(lia)) as Hr.
    destruct (WavReader.in_range _) as [sample|] eqn:E; [|done].
    cbn in Hr |- *. by injection Hr as ->.
Qed.

Lemma parseWavFile_wav_bytes (audioData : list Q) :
  audioData ≠ [] →
  (Z.of_nat (44 + length audioData * 2) - 8 <= 4294967295)%Z →
  ∃ buffer,
    Wav.wav_buffer audioData 16000 = Some buffer
    ∧ WavReader.parseWavFile buffer
      = Some (Desktop.Ok (decoded <$> audioData, 16000%Z)).
Proof.
  intros Hne Hsize. exists (wav_bytes audioData).
  split; [by apply wav_buffer_16000|].
  assert (1 <= length audioData) as Hlen.
  { destruct audioData; [done|cbn; lia]. }
  destruct (wav_tags audioData) as (Triff & Twave & Tfmt & Tdata).
  destruct (wav_fields audioData Hsize) as (F1 & F2 & F3 & F4 & F5).
  cbv zeta in *.
  unfold WavReader.parseWavFile. rewrite Triff, Twave.
  cbn [String.eqb Ascii.eqb Bool.eqb negb orb].
  rewrite length_wav_bytes.
  change (44 + length audioData * 2) with (S (S (42 + length audioData * 2))).
  rewrite parse_chunks_S, length_wav_bytes.
  rewrite (proj2 (Z.ltb_lt _ _)) by lia. cbv zeta.
  rewrite Tfmt, F1, F3, F4. rewrite String.eqb_refl.
  cbn [mbind option_bind String.eqb Ascii.eqb Bool.eqb].
  change (16 mod 2 =? 0)%Z with true. cbv iota.
  change (12 + 8 + Z.to_nat 16) with 36.
  rewrite parse_chunks_S, length_wav_bytes.
  rewrite (proj2 (Z.ltb_lt _ _)) by lia. cbv zeta.
  rewrite Tdata, F5. cbn [String.eqb Ascii.eqb Bool.eqb].
  unfold WavReader.parse_data.
  change (16 =? 0)%Z with false. change (16 =? 16)%Z with true. cbv iota zeta.
  rewrite (proj2 (samples_count (length audioData))).
  rewrite (mapM_Ok _ (λ i, default 0%Q (decoded <$> audioData !! i))).
  - cbn. do 3 f_equal. apply fmap_seq_lookup. intros i x Hx. by rewrite Hx.
  - intros i Hi. apply elem_of_seq in Hi.
    change (36 + 8) with 44.
    apply wav_samples_read. lia.
Qed.

(** X8. What [writeWavFile] writes at 16000 Hz is read back by
    [readWavAsFloat32] of the desktop test as one value per sample: the
    16-bit integer written for it, divided by 32768.  The file written
    for an empty array is the exception: it is the 44-byte header alone,
    the loop condition [offset < buffer.length - 8] is false at offset 36
    and the reader does not find the data chunk. *)
Theorem wav_roundtrip_desktop_reader (audioData : list Q) :
  (Z.of_nat (44 + length audioData * 2) - 8 <= 4294967295)%Z →
  ∃ buffer,
    Wav.wav_buffer audioData 16000 = Some buffer
    ∧ WavReader.readWavAsFloat32 buffer
      = Some (match audioData with
              | [] => Desktop.Threw "Could not find data chunk in WAV file"
              | _ => Desktop.Ok
                       ((λ x, WavReader.Finite (decoded x)) <$> audioData)
              end).
Proof.
  intros Hsize. destruct audioData as [|x audioData].
  - exists (wav_bytes []). split; [by apply wav_buffer_16000|]. by vm_compute.
  - by apply readWavAsFloat32_wav_bytes.
Qed.

Lemma wav_roundtrip_desktop_reader_witness :
  ∃ buffer,
    Wav.wav_buffer [1 # 2; -3; 0]%Q 16000 = Some buffer
    ∧ WavReader.readWavAsFloat32 buffer
      = Some (Desktop.Ok
                [WavReader.Finite (decoded (1 # 2));
                 WavReader.Finite (decoded (-3));
                 WavReader.Finite (decoded 0)]).
Proof.
  apply (wav_roundtrip_desktop_reader [1 # 2; -3; 0]%Q). simpl. lia.
Defined.

(** X9. [parseWavFile] of the mobile test reads the same file back as the
    same values, with sample rate 16000; it too fails to find the data
    chunk of the file written for an empty array. *)
Theorem wav_roundtrip_mobile_reader (audioData : list Q) :
  (Z.of_nat (44 + length audioData * 2) - 8 <= 4294967295)%Z →
  ∃ buffer,
    Wav.wav_buffer audioData 16000 = Some buffer
    ∧ WavReader.parseWavFile buffer
      = Some (match audioData with
              | [] => Desktop.Threw "Could not find data chunk in WAV file"
              | _ => Desktop.Ok (decoded <$> audioData, 16000%Z)
              end).
Proof.
  intros Hsize. destruct audioData as [|x audioData].
  - exists (wav_bytes []). split; [by apply wav_buffer_16000|]. by vm_compute.
  - by apply parseWavFile_wav_bytes.
Qed.

Lemma wav_roundtrip_mobile_reader_witness :
  ∃ buffer,
    Wav.wav_buffer [1 # 2; -3; 0]%Q 16000 = Some buffer
    ∧ WavReader.parseWavFile buffer
      = Some (Desktop.Ok ([decoded (1 # 2); decoded (-3); decoded 0], 16000%Z)).
Proof.
  apply (wav_roundtrip_mobile_reader [1 # 2; -3; 0]%Q). simpl. lia.
Defined.

Section Quantisation.
Import Wav.
Local Open Scope Q_scope.

Lemma clamp_mono x y : x <= y → clamp x <= clamp y.
Proof.
  intros Hxy. unfold clamp.
  destruct (Qlt_le_dec x (-1)), (Qlt_le_dec y (-1)),
    (Qlt_le_dec 1 x), (Qlt_le_dec 1 y); lra.
Qed.

Lemma round_bounds x :
  inject_Z (Num.round x) - (1 # 2) <= x < inject_Z (Num.round x) + (1 # 2).
Proof.
  unfold Num.round.
  pose proof (Qfloor_le (x + (1 # 2))) as Hlo.
  pose proof (Qlt_floor (x + (1 # 2))) as Hhi.
  rewrite inject_Z_plus in Hhi. change (inject_Z 1) with 1 in Hhi. lra.
Qed.

End Quantisation.

(** X10. The 16-bit sample [writeWavFile] stores is monotone in the
    input and saturates at -32767 and 32767 (never -32768); read back and
    divided by 32768, as the readers do, it differs from the input
    clamped to [-1, 1] by at most 3/65536. *)
Theorem sample_quantisation (x y : Q) :
  ((x <= y)%Q → (Wav.intSample x <= Wav.intSample y)%Z)
  ∧ ((1 <= x)%Q → Wav.intSample x = 32767%Z)
  ∧ ((x <= -1)%Q → Wav.intSample x = (-32767)%Z)
  ∧ (Qabs (decoded x - clamp x) <= 3 # 65536)%Q.
Proof.
  split; [|split; [|split]].
  - intros Hxy. rewrite !intSample_clamp. unfold Num.round.
    apply Qfloor_resp_le. pose proof (clamp_mono x y Hxy). lra.
  - intros Hx. rewrite intSample_clamp.
    assert (clamp x == 1)%Q as Hc.
    { unfold clamp. destruct (Qlt_le_dec x (-1)); [lra|].
      destruct (Qlt_le_dec 1 x); lra. }
    unfold Num.round. rewrite (Qfloor_comp _ (inject_Z 32767 + (1 # 2))%Q).
    + reflexivity.
    + rewrite Hc. reflexivity.
  - intros Hx. rewrite intSample_clamp.
    assert (clamp x == -1)%Q as Hc.
    { unfold clamp. destruct (Qlt_le_dec x (-1)); [lra|].
      destruct (Qlt_le_dec 1 x); lra. }
    unfold Num.round. rewrite (Qfloor_comp _ (inject_Z (-32767) + (1 # 2))%Q).
    + reflexivity.
    + rewrite Hc. reflexivity.
  - unfold decoded. rewrite intSample_clamp.
    pose proof (round_bounds (clamp x * 32767)) as [Hlo Hhi].
    pose proof (clamp_range x) as [Hc1 Hc2].
    apply Qabs_Qle_condition. set (v := inject_Z _) in *.
    clearbody v. unfold Qdiv. change (/ 32768)%Q with (1 # 32768)%Q.
    split; lra.
Qed.

Section Executable.
Import Desktop.

Lemma list_entry_Dir prefix name entries :
  list_entry prefix (Dir name entries) =
  let relativePath :=
    if String.eqb prefix "" then name else (prefix ++ "/" ++ name)%string in
  (relativePath ++ "/")%string :: (entries ≫= list_entry relativePath).
Proof. reflexivity. Qed.

Lemma append_assoc (s1 s2 s3 : string) :
  ((s1 ++ s2) ++ s3 = s1 ++ s2 ++ s3)%string.
Proof.
  induction s1 as [|c s1 IH]; [done|].
  change (String c ((s1 ++ s2) ++ s3) = String c (s1 ++ s2 ++ s3))%string.
  by rewrite IH.
Qed.

Lemma join_assoc dir d rel :
  join (join dir d) rel = join dir (d ++ "/" ++ rel)%string.
Proof. unfold join. by rewrite !append_assoc. Qed.

Lemma join_relative dir prefix name :
  join (if String.eqb prefix "" then dir else join dir prefix) name
  = join dir (if String.eqb prefix "" then name
              else (prefix ++ "/" ++ name)%string).
Proof. destruct (String.eqb prefix ""); [done|apply join_assoc]. Qed.

Lemma relative_named prefix name :
  name ≠ ""%string →
  String.eqb (if String.eqb prefix "" then name
              else (prefix ++ "/" ++ name)%string) "" = false.
Proof.
  intros Hname. destruct (String.eqb prefix "") eqn:E.
  - by apply String.eqb_neq.
  - apply String.eqb_neq. destruct prefix; [done|]. done.
Qed.

Lemma dirs_named_cons_inv e rest :
  dirs_named (e :: rest) → dirs_named [e] ∧ dirs_named rest.
Proof.
  inversion 1; subst; (split; [|done]).
  - apply named_file, named_nil.
  - apply named_other, named_nil.
  - apply named_dir; [done|done|apply named_nil].
Qed.

(** What [visit] finds is listed by [list_entry], relative to [dir];
    [prefix] is the way from [dir] to the directory being read. *)
Lemma visit_listed names dir : ∀ e prefix path,
  dirs_named [e] →
  visit names (if String.eqb prefix "" then dir else join dir prefix) e
  = Some path →
  ∃ rel, rel ∈ list_entry prefix e ∧ path = join dir rel.
Proof.
  fix IH 1. intros [name|name sub|name] prefix path Hnamed.
  - cbn [visit]. case_bool_decide; [|done]. intros [= <-].
    eexists. split; [apply list_elem_of_here|]. cbn [node_name].
    apply join_relative.
  - rewrite visit_Dir, list_entry_Dir, join_relative. cbv zeta.
    inversion Hnamed as [| | |? ? ? Hname Hsub _]; subst.
    set (rp := if String.eqb prefix "" then name else _).
    assert (String.eqb rp "" = false) as Hrp by (by apply relative_named).
    intros Hscan.
    assert (∃ rel, rel ∈ sub ≫= list_entry rp ∧ path = join dir rel)
      as (rel & Hin & ->); [|exists rel; split; [by right|done]].
    revert Hsub Hscan. clear Hnamed.
    induction sub as [|e sub IHsub]; intros Hsub; [done|].
    apply dirs_named_cons_inv in Hsub as [He Hsub].
    cbn [scan]. destruct (visit names (join dir rp) e) as [found|] eqn:Hv.
    + intros [= ->]. destruct (IH e rp path He) as (rel & Hin & ->).
      { by rewrite Hrp. }
      exists rel. split; [|done]. rewrite bind_cons, elem_of_app. by left.
    + intros Hscan. destruct (IHsub Hsub Hscan) as (rel & Hin & ->).
      exists rel. split; [|done]. rewrite bind_cons, elem_of_app. by right.
  - done.
Qed.

Lemma scan_listed names dir : ∀ entries path,
  dirs_named entries → scan names dir entries = Some path →
  ∃ rel, rel ∈ entries ≫= list_entry "" ∧ path = join dir rel.
Proof.
  induction entries as [|e entries IH]; intros path Hnamed; [done|].
  apply dirs_named_cons_inv in Hnamed as [He Hnamed].
  cbn [scan]. destruct (visit names dir e) as [found|] eqn:Hv.
  - intros [= ->]. destruct (visit_listed names dir e "" path He Hv)
      as (rel & Hin & ->).
    exists rel. split; [|done]. rewrite bind_cons, elem_of_app. by left.
  - intros Hscan. destruct (IH path Hnamed Hscan) as (rel & Hin & ->).
    exists rel. split; [|done]. rewrite bind_cons, elem_of_app. by right.
Qed.

End Executable.

(** X11. [findExecutable] succeeds exactly when a regular file with one of
    the wanted names lies somewhere under the directory; the path it
    returns is the directory joined with one of the relative paths that
    [listDirRecursive] lists for the same tree. *)
Theorem findExecutable_finds_listed_file
    (dir : string) (entries : list Desktop.node) (names : list string) :
  dirs_named entries →
  (is_Some (Desktop.findExecutable dir (Some entries) names)
   ↔ has_executable names entries)
  ∧ (∀ path,
       Desktop.findExecutable dir (Some entries) names = Some path →
       ∃ rel, rel ∈ Desktop.listDirRecursive (Some entries)
              ∧ path = Desktop.join dir rel)
  ∧ Desktop.findExecutable dir None names = None
  ∧ Desktop.listDirRecursive None = [].
Proof.
  intros Hnamed. split; [|split; [|done]].
  - split.
    + apply scan_sound.
    + intros Hexe. by apply scan_complete.
  - intros path Hfind. by apply (scan_listed names dir).
Qed.

Lemma findExecutable_finds_listed_file_witness :
  ∃ rel,
    rel ∈ Desktop.listDirRecursive
            (Some [Desktop.Dir "Release"
                     [Desktop.Other "libwhisper.so"; Desktop.File "whisper-cli"]])
    ∧ "/p/bin/Release/whisper-cli"%string = Desktop.join "/p/bin" rel.
Proof.
  destruct (findExecutable_finds_listed_file "/p/bin"
              [Desktop.Dir "Release"
                 [Desktop.Other "libwhisper.so"; Desktop.File "whisper-cli"]]
              ["whisper-cli"%string]) as (_ & Hlisted & _).
  - apply named_dir; [done| |apply named_nil].
    apply named_other, named_file, named_nil.
  - exact (Hlisted _ eq_refl).
Defined.

Section Initialize.
Import Desktop DesktopCache.

Local Ltac run_initialize :=
  unfold initialize, downloadExecutable, downloadModel, getLatestReleaseUrl,
    downloadFile, extractZip, unlink_in_bin, try_catch, progressCallback;
  unfold mbind, M_bind, mret, M_ret, modify, get, log, throw, model_exists;
  simpl.

Lemma initialize_result h modelId st :
  match initialize h modelId st with
  | (Ok _, st') =>
      initialized st' = true
      ∧ (∃ path,
           whisperPath st' = Some path
           ∧ findExecutable (join (pluginDir h) "bin") (binDir st') (execNames h)
             = Some path
           ∧ chmods st'
             = chmods st
               ++ (if String.eqb (platform h) "win32" then [] else [path]))
      ∧ modelPath st'
        = Some (join (join (pluginDir h) "models") (modelFileName modelId))
      ∧ isModelCached modelId st' = true
      ∧ last (progress st') = Some "ready"%string
  | (Threw _, st') =>
      initialized st' = initialized st
      ∧ chmods st' = chmods st
        ++ (if String.eqb (platform h) "win32" then []
            else option_list (whisperPath st'))
  end.
Proof.
  destruct st as [bin models tmp req unl chm con prog wp mp ini].
  run_initialize.
  repeat (case_match; simpl in *; simplify_eq; try discriminate).
  all: unfold modify in *; simplify_eq; unfold isModelCached, model_exists;
    simpl in *.
  all: try (split; [reflexivity|]).
  all: try (rewrite ?app_nil_r; done).
  all: (split; [eexists; split; [reflexivity|]; split;
                  [eassumption|by rewrite ?app_nil_r]|]).
  all: (split; [reflexivity|]).
  all: (split; [first [assumption
                      | apply bool_decide_eq_true_2, list_elem_of_here]|]).
  all: apply last_snoc.
Qed.

Lemma findExecutable_ensureDir dir bin names :
  findExecutable dir (ensureDir bin) names = findExecutable dir bin names.
Proof. by destruct bin. Qed.



Lemma initialize_requests_index h modelId st :
  findExecutable (join (pluginDir h) "bin") (binDir st) (execNames h) = None →
  ∃ rest,
    requests (initialize h modelId st).2 = requests st ++ release_index :: rest.
Proof.
  destruct st as [bin models tmp req unl chm con prog wp mp ini].
  cbn [binDir requests]. intros Hfind. run_initialize.
  rewrite findExecutable_ensureDir, Hfind. simpl.
  repeat (case_match; simpl in *; simplify_eq; try discriminate).
  all: unfold modify in *; simplify_eq; simpl in *.
  all: rewrite <- ?app_assoc; eexists; reflexivity.
Qed.

End Initialize.

(** X12. [initialize] sets [initialized] only when it completes: then the
    path of the executable is the one [findExecutable] finds in the bin
    directory as it now is, that path was made executable unless the
    platform is win32, the model file is on disk ([isModelCached] holds)
    and the last status reported is 'ready'.  When [initialize] throws,
    [initialized] is what it was. *)
Theorem initialize_outcome
    (h : Desktop.host) (modelId : string) (st : Desktop.state) :
  match Desktop.initialize h modelId st with
  | (Desktop.Ok _, st') =>
      Desktop.initialized st' = true
      ∧ (∃ path,
           Desktop.whisperPath st' = Some path
           ∧ Desktop.findExecutable (Desktop.join (Desktop.pluginDir h) "bin")
               (Desktop.binDir st') (Desktop.execNames h) = Some path
           ∧ Desktop.chmods st'
             = Desktop.chmods st
               ++ (if String.eqb (Desktop.platform h) "win32" then []
                   else [path]))
      ∧ Desktop.modelPath st'
        = Some (Desktop.join (Desktop.join (Desktop.pluginDir h) "models")
                  (Desktop.modelFileName modelId))
      ∧ DesktopCache.isModelCached modelId st' = true
      ∧ last (Desktop.progress st') = Some "ready"%string
  | (Desktop.Threw _, st') =>
      Desktop.initialized st' = Desktop.initialized st
  end.
Proof.
  pose proof (initialize_result h modelId st) as H.
  destruct (Desktop.initialize h modelId st) as [[[]|message] st'];
    [exact H|by destruct H].
Qed.





Section ClearCache.
Import Desktop DesktopCache.

Lemma clearCache_dirs st :
  binDir (clearCache st) = None ∧ modelsDir (clearCache st) = None
  ∧ initialized (clearCache st) = initialized st
  ∧ whisperPath (clearCache st) = whisperPath st
  ∧ modelPath (clearCache st) = modelPath st
  ∧ requests (clearCache st) = requests st
  ∧ tmpFiles (clearCache st) = tmpFiles st.
Proof.
  destruct st as [[bin|] [models|] tmp req unl chm con prog wp mp ini];
    by repeat split.
Qed.

End ClearCache.

(** X15. After [clearCache] no model counts as cached and no executable is
    found, so the next [initialize] starts with the request to the release
    index, whatever comes of it; the fields of the transcriber object
    ([initialized], [whisperPath], [modelPath]) are left as they were. *)
Theorem clearCache_undoes_provisioning
    (h : Desktop.host) (modelId : string) (st : Desktop.state) :
  let st0 := DesktopCache.clearCache st in
  (∀ id, DesktopCache.isModelCached id st0 = false)
  ∧ Desktop.findExecutable (Desktop.join (Desktop.pluginDir h) "bin")
      (Desktop.binDir st0) (Desktop.execNames h) = None
  ∧ Desktop.initialized st0 = Desktop.initialized st
  ∧ Desktop.whisperPath st0 = Desktop.whisperPath st
  ∧ Desktop.modelPath st0 = Desktop.modelPath st
  ∧ ∃ rest,
      Desktop.requests (Desktop.initialize h modelId st0).2
      = Desktop.requests st ++ release_index :: rest.
Proof.
  intros st0.
  destruct (clearCache_dirs st) as (Hbin & Hmodels & Hini & Hwp & Hmp & Hreq & _).
  fold st0 in Hbin, Hmodels, Hini, Hwp, Hmp, Hreq.
  split; [|split; [|split; [|split; [|split]]]]; try done.
  - intros id. unfold DesktopCache.isModelCached, Desktop.model_exists.
    rewrite Hmodels. apply bool_decide_eq_false_2, not_elem_of_nil.
  - by rewrite Hbin.
  - rewrite <- Hreq. apply initialize_requests_index. by rewrite Hbin.
Qed.

(** X16. After the [Clear Cache] button of the settings tab (desktop) the
    transcriber object the plugin calls is a fresh, uninitialised one:
    every [transcribe] throws 'Transcriber not initialized' before it
    writes, logs or spawns anything, however the process would have
    behaved, and this although [initialize] had completed before. *)
Theorem clear_cache_button_disables_transcriber
    (h : Desktop.host) (now : Z) (audioData : list Q)
    (events : list Desktop.proc_event) (st : Desktop.state) :
  let st' := DesktopCache.clearCacheClicked st in
  Desktop.initialized st' = false
  ∧ Desktop.transcribe h now audioData events st'
    = (Desktop.Threw "Transcriber not initialized", st').
Proof.
  cbv zeta. unfold DesktopCache.clearCacheClicked.
  destruct (clearCache_dirs (DesktopCache.construct st))
    as (_ & _ & Hini & _).
  cbn in Hini. split; [exact Hini|].
  unfold Desktop.transcribe, mbind, Desktop.M_bind, Desktop.get.
  by rewrite Hini.
Qed.

Section Settle.
Import Desktop.

Lemma handle_settles h path settled e st :
  ∃ st',
    handle h path settled e st
    = (Ok (Some (default (settlement e) settled)), st')
    ∧ unlinks st' = unlinks st ++ [path]
    ∧ initialized st' = initialized st
    ∧ (∀ p, p ≠ path → tmpFiles st' !! p = tmpFiles st !! p)
    ∧ (can_unlink h path = true → tmpFiles st' !! path = None).
Proof.
  destruct st as [bin models tmp req unl chm con prog wp mp ini].
  unfold handle, on_close, on_error, try_catch, unlinkSync.
  unfold mbind, M_bind, mret, M_ret, modify, get, log, throw.
  destruct e as [code stdout stderr|message]; cbn.
  - destruct (tmp !! path) as [buffer|] eqn:Hp;
      destruct (can_unlink h path) eqn:Hu;
      destruct (code =? 0)%Z; destruct settled; cbn;
      eexists; (split; [reflexivity|]); cbn;
      repeat split; try done;
      try (intros p Hne; by rewrite lookup_delete_ne);
      try (intros _; by rewrite lookup_delete_eq).
  - destruct (tmp !! path) as [buffer|] eqn:Hp;
      destruct (can_unlink h path) eqn:Hu; destruct settled; cbn;
      eexists; (split; [reflexivity|]); cbn;
      repeat split; try done;
      try (intros p Hne; by rewrite lookup_delete_ne);
      try (intros _; by rewrite lookup_delete_eq).
Qed.

Lemma handlers_settle h path evs : ∀ (c : M (option (result string))) st r st1,
  c st = (Ok (Some r), st1) →
  ∃ st',
    foldl (λ acc e, settled ← acc; handle h path settled e) c evs st
    = (Ok (Some r), st')
    ∧ unlinks st' = unlinks st1 ++ replicate (length evs) path
    ∧ initialized st' = initialized st1
    ∧ (∀ p, p ≠ path → tmpFiles st' !! p = tmpFiles st1 !! p)
    ∧ (can_unlink h path = true → tmpFiles st1 !! path = None →
       tmpFiles st' !! path = None).
Proof.
  induction evs as [|e evs IH]; intros c st r st1 Hc; cbn [foldl].
  - exists st1. rewrite app_nil_r. by repeat split.
  - destruct (handle_settles h path (Some r) e st1)
      as (st2 & Hh & Hu2 & Hi2 & Ho2 & Hd2).
    destruct (IH (settled ← c; handle h path settled e) st r st2)
      as (st' & Hf & Hu & Hi & Ho & Hd).
    { unfold mbind, M_bind. by rewrite Hc. }
    exists st'. split; [exact Hf|]. split; [|split; [|split]].
    + rewrite Hu, Hu2. cbn. by rewrite <- app_assoc.
    + congruence.
    + intros p Hne. by rewrite Ho, Ho2.
    + intros Hcan _. apply Hd; [done|]. by apply Hd2.
Qed.

Lemma transcribe_events h now audioData st evs files :
  initialized st = true →
  Wav.writeWavFile (tempWavPath h now) audioData 16000 (tmpFiles st)
  = Some files →
  transcribe h now audioData evs st
  = foldl (λ acc e, settled ← acc; handle h (tempWavPath h now) settled e)
      (mret None) evs (spawned files st).
Proof.
  intros Hini Hwav. unfold transcribe, mbind, M_bind, get.
  rewrite Hini, Hwav. cbn [negb]. unfold mret, M_ret, log, modify.
  reflexivity.
Qed.

End Settle.

(** X17. The promise of [transcribe] settles once, by the first event of
    the process: later events (a [close] after an [error]) do not change
    the outcome, though each of them runs [unlinkSync] on the temporary
    file again; no other temporary file is touched, and the file is gone
    if unlinking is permitted. *)
Theorem transcribe_settles_once
    (h : Desktop.host) (now : Z) (audioData : list Q)
    (st : Desktop.state) (e : Desktop.proc_event)
    (later : list Desktop.proc_event) (files : gmap string Buffer.t) :
  let path := Desktop.tempWavPath h now in
  let r := (Desktop.transcribe h now audioData (e :: later) st).1 in
  let st' := (Desktop.transcribe h now audioData (e :: later) st).2 in
  Desktop.initialized st = true →
  Wav.writeWavFile path audioData 16000 (Desktop.tmpFiles st) = Some files →
  r = Desktop.Ok (Some (settlement e))
  ∧ Desktop.unlinks st'
    = Desktop.unlinks st ++ replicate (S (length later)) path
  ∧ (∀ p, p ≠ path → Desktop.tmpFiles st' !! p = Desktop.tmpFiles st !! p)
  ∧ (Desktop.can_unlink h path = true → Desktop.tmpFiles st' !! path = None).
Proof.
  intros path r st' Hini Hwav. subst r st'.
  rewrite (transcribe_events h now audioData st (e :: later) files Hini Hwav).
  cbn [foldl]. fold path. set (st0 := spawned files st).
  destruct (handle_settles h path None e st0)
    as (st1 & Hh & Hu1 & Hi1 & Ho1 & Hd1).
  destruct (handlers_settle h path later
              (settled ← mret None; Desktop.handle h path settled e)
              st0 (settlement e) st1) as (st' & Hf & Hu & Hi & Ho & Hd).
  { exact Hh. }
  rewrite Hf. cbn [fst snd]. split; [done|]. split; [|split].
  - rewrite Hu, Hu1. subst st0. cbn. by rewrite <- app_assoc.
  - intros p Hne. rewrite Ho, Ho1 by done. subst st0. cbn.
    unfold Wav.writeWavFile in Hwav.
    destruct (Wav.wav_buffer audioData 16000); [|done].
    injection Hwav as <-. by rewrite lookup_insert_ne.
  - intros Hcan. apply Hd; [done|]. by apply Hd1.
Qed.

Lemma transcribe_settles_once_witness :
  (Desktop.transcribe linux_host 17 [1 # 2]%Q
     [Desktop.Error "spawn ENOENT"; Desktop.Close (-2) "" ""] ready_state).1
  = Desktop.Ok (Some (Desktop.Threw "spawn ENOENT")).
Proof.
  destruct (transcribe_settles_once linux_host 17 [1 # 2]%Q ready_state
              (Desktop.Error "spawn ENOENT") [Desktop.Close (-2) "" ""]
              _ eq_refl eq_refl) as (Hr & _).
  exact Hr.
Defined.

Section ResamplingMore.
Import Resample.
Local Open Scope Q_scope.

Lemma Qfloor_unique (x : Q) (z : Z) :
  inject_Z z <= x → x < inject_Z (z + 1) → Qfloor x = z.
Proof.
  intros Hlo Hhi.
  pose proof (Qfloor_le x) as Hf. pose proof (Qlt_floor x) as Hf'.
  assert (Qfloor x < z + 1)%Z by (rewrite Zlt_Qlt; lra).
  assert (z < Qfloor x + 1)%Z by (rewrite Zlt_Qlt; lra).
  lia.
Qed.

Lemma round_Z (x : Q) (z : Z) : x == inject_Z z → Num.round x = z.
Proof.
  intros Hx. unfold Num.round. apply Qfloor_unique.
  - lra.
  - rewrite inject_Z_plus. change (inject_Z 1) with 1. lra.
Qed.

Lemma floor_Z (x : Q) (z : Z) : x == inject_Z z → Num.floor x = z.
Proof.
  intros Hx. unfold Num.floor. apply Qfloor_unique.
  - lra.
  - rewrite inject_Z_plus. change (inject_Z 1) with 1. lra.
Qed.

Lemma resampleAudio_same_rate (audioData : list Q) (a b : Q) :
  0 < a → a == b → resampleAudio audioData a b = Some (Some <$> audioData).
Proof.
  intros Ha Hab.
  destruct (resampleAudio_spec audioData a b Ha) as (_ & _ & ->); [lra|].
  assert (a / b == 1) as Hr by (field_simplify_eq; lra).
  f_equal. rewrite (round_Z _ (Z.of_nat (length audioData))).
  - rewrite Nat2Z.id. apply list_eq. intros i.
    destruct (decide (i < length audioData)%nat) as [Hi|Hi].
    + rewrite lookup_fmap_seq by done.
      rewrite (floor_Z _ (Z.of_nat i)).
      * rewrite at_index_nonneg, Nat2Z.id by lia.
        rewrite list_lookup_fmap.
        by destruct (lookup_lt_is_Some_2 _ _ Hi) as [x ->].
      * rewrite Hr. unfold Num.of_nat. ring.
    + rewrite !lookup_ge_None_2; [done| |];
        rewrite length_fmap, ?length_seq; lia.
  - rewrite Hr. unfold Num.of_nat. field.
Qed.

End ResamplingMore.

(** X18. The copy of [resampleAudio] in the mobile test computes the array
    the plugin's [resampleAudio] computes, for all positive rates; at
    equal rates both return the samples unchanged. *)
Theorem test_resampler_agrees_with_plugin
    (audioData : list Q) (fromSampleRate toSampleRate : Q) :
  (0 < fromSampleRate)%Q → (0 < toSampleRate)%Q →
  Resample.resampleAudio audioData fromSampleRate toSampleRate
  = Some (TestMobile.resampleAudio audioData fromSampleRate toSampleRate)
  ∧ ((fromSampleRate == toSampleRate)%Q →
     Resample.resampleAudio audioData fromSampleRate toSampleRate
     = Some (Some <$> audioData)).
Proof.
  intros Hf Ht. split.
  - unfold TestMobile.resampleAudio.
    destruct (Qeq_bool fromSampleRate toSampleRate) eqn:E.
    + apply Qeq_bool_iff in E. by apply resampleAudio_same_rate.
    + by destruct (resampleAudio_spec audioData _ _ Hf Ht) as (_ & _ & ->).
  - intros E. by apply resampleAudio_same_rate.
Qed.

Lemma test_resampler_agrees_with_plugin_witness :
  Resample.resampleAudio [0; 1; 0; 0]%Q 24000 16000
  = Some (TestMobile.resampleAudio [0; 1; 0; 0]%Q 24000 16000).
Proof.
  apply (test_resampler_agrees_with_plugin [0; 1; 0; 0]%Q 24000 16000);
    reflexivity.
Defined.

Section Prepare.
Import Resample Audio.
Local Open Scope Q_scope.





End Prepare.



Section IntegerRatios.
Import Resample.
Local Open Scope Q_scope.


End IntegerRatios.





Section Includes.
Import Str.

Lemma prefix_app (a b : string) :
  String.prefix a b = true ↔ ∃ t, b = (a ++ t)%string.
Proof.
  revert b. induction a as [|c a IH]; intros b.
  - split; [intros _; by exists b|intros _; by destruct b].
  - destruct b as [|d b]; cbn [String.prefix].
    + split; [done|by intros [t ?]].
    + destruct (Ascii.ascii_dec c d) as [->|Hne].
      * rewrite IH. split; intros [t Ht]; exists t.
        -- by rewrite Ht.
        -- by injection Ht.
      * split; [done|]. intros [t Ht]. by injection Ht as ? ?.
Qed.

Lemma includes_app (s sub : string) :
  includes s sub = true ↔ ∃ l r, s = (l ++ sub ++ r)%string.
Proof.
  induction s as [|c s IH]; cbn [includes].
  - rewrite orb_false_r, prefix_app. split.
    + intros [t Ht]. by exists ""%string, t.
    + intros (l & r & Hs). destruct l; [by exists r|done].
  - rewrite orb_true_iff, prefix_app, IH. split.
    + intros [[t Ht]|(l & r & Hs)].
      * by exists ""%string, t.
      * exists (String c l), r. by rewrite Hs.
    + intros (l & r & Hs). destruct l as [|d l].
      * left. by exists r.
      * right. injection Hs as _ Hs. by exists l, r.
Qed.

Lemma includes_prefix (url a b : string) :
  String.prefix a b = true → includes url b = true → includes url a = true.
Proof.
  rewrite prefix_app, !includes_app. intros [t ->] (l & r & ->).
  exists l, (t ++ r)%string. by rewrite append_assoc.
Qed.

Lemma replace_prefix c rep (a b : string) :
  String.prefix a b = true →
  String.prefix (replace c rep a) (replace c rep b) = true.
Proof.
  rewrite !prefix_app. intros [t ->].
  induction a as [|d a IH]; [by exists (replace c rep t)|].
  cbn [replace]. change (String d a ++ t)%string with (String d (a ++ t)).
  cbn [replace]. destruct (Ascii.eqb d c).
  - exists t. by rewrite append_assoc.
  - destruct IH as [t' ->]. by exists t'.
Qed.

End Includes.

(** X22. On mobile a model whose id is a prefix of the id of a cached
    model is reported as cached: the check looks for the id as a
    substring of the cached URLs, so when [Xenova/whisper-tiny.en] is
    cached, [Xenova/whisper-tiny] counts as cached too. *)
Theorem mobile_cache_check_confuses_prefixes
    (caches : MobileCache.storage) (shorter longer : string) :
  String.prefix shorter longer = true →
  MobileCache.isModelCached caches longer = true →
  MobileCache.isModelCached caches shorter = true.
Proof.
  intros Hpre. unfold MobileCache.isModelCached.
  destruct caches as [caches|]; [|done]. cbv zeta.
  destruct (List.find _ caches) as [cache|]; [|done].
  rewrite !existsb_exists. intros (url & Hin & Hurl). exists url.
  split; [done|]. apply orb_true_iff in Hurl as [Hurl|Hurl];
    apply orb_true_iff; [left|right].
  - eapply includes_prefix; [|exact Hurl]. by apply replace_prefix.
  - by eapply includes_prefix.
Qed.

Lemma mobile_cache_check_confuses_prefixes_witness :
  MobileCache.isModelCached
    (Some [("transformers-cache",
            ["https://huggingface.co/Xenova/whisper-tiny.en/resolve/main/config.json"])]%string)
    "Xenova/whisper-tiny" = true.
Proof.
  apply (mobile_cache_check_confuses_prefixes _ "Xenova/whisper-tiny"
           "Xenova/whisper-tiny.en"); reflexivity.
Defined.

(** X23. The mobile check consults one cache only, the first whose name
    contains 'transformers' or 'xenova': what later caches hold does not
    matter, and without such a cache, or when the cache storage cannot be
    read, the answer is [false]. *)
Theorem mobile_cache_check_reads_first_cache
    (name : string) (urls : list string)
    (before later : list (string * list string)) (modelId : string) :
  let named c :=
    Str.includes (fst c) "transformers"
    || Str.includes (fst c) "xenova" in
  (Forall (λ c, named c = false) before → named (name, urls) = true →
   MobileCache.isModelCached (Some (before ++ (name, urls) :: later)) modelId
   = MobileCache.isModelCached (Some [(name, urls)]) modelId)
  ∧ (Forall (λ c, named c = false) before →
     MobileCache.isModelCached (Some before) modelId = false)
  ∧ MobileCache.isModelCached None modelId = false.
Proof.
  intros named. split; [|split; [|done]].
  - intros Hbefore Hnamed. unfold MobileCache.isModelCached. cbv zeta.
    fold named. cbn [List.find]. rewrite Hnamed.
    induction Hbefore as [|c before Hc _ IH]; cbn [app List.find].
    + by rewrite Hnamed.
    + by rewrite Hc.
  - intros Hbefore. unfold MobileCache.isModelCached. cbv zeta. fold named.
    induction Hbefore as [|c before Hc _ IH]; cbn [List.find]; [done|].
    by rewrite Hc.
Qed.

Section Switch.
Import ModelSwitch.



End Switch.


Section StatusFacts.
Import Status.

Lemma one_notice_up_showStatus message t now now' p :
  one_notice_up p → one_notice_up (showStatus message t now now' p).
Proof.
  intros [Hlast Hup]. unfold showStatus. cbv zeta.
  destruct (_ && _); [by split|].
  destruct (statusNotice p) as [i|] eqn:E.
  - split; cbn.
    + rewrite length_app, length_alter. cbn. lia.
    + intros j n. rewrite length_alter.
      destruct (decide (j < length (notices p))) as [Hj|Hj].
      * rewrite lookup_app_l by (by rewrite length_alter).
        destruct (decide (j = i)) as [->|Hne].
        -- rewrite list_lookup_alter_eq.
           destruct (notices p !! i); cbn; [|done]. by intros [= <-].
        -- rewrite list_lookup_alter_ne by done. intros Hn Hh.
           specialize (Hup j n Hn Hh). congruence.
      * rewrite lookup_app_r by (rewrite length_alter; lia).
        rewrite length_alter. intros Hn Hh.
        apply lookup_lt_Some in Hn as Hlt. cbn in Hlt. f_equal. lia.
  - rewrite Hlast. split; [done|]. intros [|j] n; [done|done].
Qed.

End StatusFacts.

(** X25. [showStatus] keeps at most one of its notices up: after any
    sequence of calls [this.statusNotice] is the notice created last and
    [hide()] has been called on every earlier one.  A call with a number
    as timeout always creates a notice; a call with [true] creates one
    only if at least 1000 ms have passed since [lastStatus], and is
    otherwise dropped without any effect. *)
Theorem status_notices
    (calls : list Status.call) (message : string) (n now now' : Z) :
  let p := Status.run Status.initial calls in
  one_notice_up p
  ∧ length (Status.notices (Status.showStatus message (Status.Ms n) now now' p))
    = S (length (Status.notices p))
  ∧ Status.showStatus message Status.Droppable now now' p
    = (if (now - Status.lastStatus p <? 1000)%Z then p
       else Status.showStatus message (Status.Ms 0) now now' p).
Proof.
  intros p. split; [|split].
  - subst p. unfold Status.run.
    assert (one_notice_up Status.initial) as Hinit by (by split).
    revert Hinit. generalize Status.initial.
    induction calls as [|c calls IH]; intros q Hq; [done|].
    cbn [foldl]. by apply IH, one_notice_up_showStatus.
  - unfold Status.showStatus. cbv zeta. rewrite andb_false_r. cbn.
    rewrite length_app. cbn.
    destruct (Status.statusNotice p); rewrite ?length_alter; lia.
  - unfold Status.showStatus. cbv zeta. rewrite andb_true_r, andb_false_r.
    by destruct (_ <? _)%Z.
Qed.

(** X26. Writing again what a reader decoded moves a 16-bit sample by at
    most one step: for the value [v / 32768] that the readers return for
    the stored integer [v], [writeWavFile] stores [v - 1], [v] or
    [v + 1], and [v] itself when [-16384 < v <= 16384]. *)
Theorem reencoding_within_one_step (v : Z) :
  (-32768 <= v <= 32767)%Z →
  let v' := Wav.intSample (inject_Z v / 32768)%Q in
  (v - 1 <= v' <= v + 1)%Z ∧ ((-16384 < v <= 16384)%Z → v' = v).
Proof.
  intros Hv. cbv zeta. rewrite intSample_clamp.
  set (x := (inject_Z v / 32768)%Q).
  assert (-1 <= x /\ x < 1)%Q as [Hx1 Hx2].
  { unfold x, Qdiv. change (/ 32768)%Q with (1 # 32768)%Q.
    assert (inject_Z (-32768) <= inject_Z v)%Q by (rewrite <- Zle_Qle; lia).
    assert (inject_Z v <= inject_Z 32767)%Q by (rewrite <- Zle_Qle; lia).
    change (inject_Z (-32768)) with (-32768)%Q in *.
    change (inject_Z 32767) with 32767%Q in *. split; lra. }
  assert (clamp x == x)%Q as Hc.
  { unfold clamp. destruct (Qlt_le_dec x (-1)); [lra|].
    destruct (Qlt_le_dec 1 x); [lra|reflexivity]. }
  assert (x * 32768 == inject_Z v)%Q as Hxv.
  { unfold x. field. }
  unfold Num.round.
  rewrite (Qfloor_comp _ (x * 32767 + (1 # 2))%Q) by (by rewrite Hc).
  pose proof (Qfloor_le (x * 32767 + (1 # 2))) as Hlo.
  pose proof (Qlt_floor (x * 32767 + (1 # 2))) as Hhi.
  rewrite inject_Z_plus in Hhi. change (inject_Z 1) with 1%Q in Hhi.
  set (f := Qfloor _) in *.
  split.
  - assert (v < f + 2)%Z.
    { rewrite Zlt_Qlt, inject_Z_plus. change (inject_Z 2) with 2%Q. lra. }
    assert (f < v + 2)%Z.
    { rewrite Zlt_Qlt, inject_Z_plus. change (inject_Z 2) with 2%Q. lra. }
    lia.
  - intros Hmid.
    assert (inject_Z (-16384) < inject_Z v)%Q by (rewrite <- Zlt_Qlt; lia).
    assert (inject_Z v <= inject_Z 16384)%Q by (rewrite <- Zle_Qle; lia).
    change (inject_Z (-16384)) with (-16384)%Q in *.
    change (inject_Z 16384) with 16384%Q in *.
    assert (v < f + 1)%Z.
    { rewrite Zlt_Qlt, inject_Z_plus. change (inject_Z 1) with 1%Q. lra. }
    assert (f < v + 1)%Z.
    { rewrite Zlt_Qlt, inject_Z_plus. change (inject_Z 1) with 1%Q. lra. }
    lia.
Qed.

Lemma reencoding_within_one_step_witness :
  Wav.intSample (inject_Z 20000 / 32768)%Q = 19999%Z.
Proof.
  destruct (reencoding_within_one_step 20000 ltac:(lia)) as [[Hlo Hhi] _].
  cbv zeta in *. 
  assert (Wav.intSample (inject_Z 20000 / 32768)%Q ≠ 20000%Z) by (by vm_compute).
  assert (Wav.intSample (inject_Z 20000 / 32768)%Q ≠ 20001%Z) by (by vm_compute).
  lia.
Defined.

(** X27. For a call of the form [https.get(url, options, callback...)] the
    wrapper passes the URL and the callback on and touches only the
    headers: for a URL that does not contain 'github.com' the arguments
    come back unchanged (the token goes to no other host); for one that
    does, an [Authorization] header is added exactly when a token is set
    and neither an [Authorization] nor an [authorization] header is
    there already, and every other header is kept. *)
Theorem token_header_only_for_github
    (token : option string) (url : string) (o : PatchHeader.options)
    (rest : list PatchHeader.value) :
  let args := PatchHeader.Str url :: PatchHeader.Object o :: rest in
  let old := default ∅ (PatchHeader.headers o) in
  let wanted :=
    PatchHeader.truthy token
    && negb (PatchHeader.truthy (old !! "Authorization"%string))
    && negb (PatchHeader.truthy (old !! "authorization"%string)) in
  if Str.includes url "github.com" then
    ∃ new,
      PatchHeader.wrapArguments token args
      = PatchHeader.Str url
        :: PatchHeader.Object
             (PatchHeader.mkOptions (PatchHeader.hostname o)
                (PatchHeader.host o) (Some new))
        :: rest
      ∧ (∀ k, k ≠ "Authorization"%string → new !! k = old !! k)
      ∧ new !! "Authorization"%string
        = (if wanted then Some ("token " ++ default "" token)%string
           else old !! "Authorization"%string)
  else PatchHeader.wrapArguments token args = args.
Proof.
  cbv zeta. unfold PatchHeader.wrapArguments. cbn [lookup list_lookup].
  destruct (Str.includes url "github.com").
  - eexists. split; [reflexivity|].
    destruct (_ && _ && _).
    + split; [|by rewrite lookup_insert_eq]. intros k Hk.
      by rewrite lookup_insert_ne.
    + by split.
  - unfold PatchHeader.assign. cbn. by destruct o.
Qed.

(** X28. For a call without an options object, [https.get(url, callback)],
    the wrapper puts the options it built in the place of the second
    argument: the callback is not passed on. *)
Theorem callback_replaced_without_options
    (token : option string) (url : string) (callback : nat) :
  ∃ o,
    PatchHeader.wrapArguments token
      [PatchHeader.Str url; PatchHeader.Other callback]
    = [PatchHeader.Str url; PatchHeader.Object o]
    ∧ PatchHeader.wrapArguments token [PatchHeader.Str url]
      = [PatchHeader.Str url; PatchHeader.Object o].
Proof.
  unfold PatchHeader.wrapArguments. cbn [lookup list_lookup].
  eexists. split; reflexivity.
Qed.
